(** * LDPC block decoders: bit flipping, majority logic and min-sum

    A shallow embedding of [blockdecoder.cc] and the properties its
    specification states about it.

    Modelling conventions.
    - [std::vector<T>] is a [list T].  [v[i]] outside the vector is undefined
      behaviour in C++; here every access goes through [vget] / [vset], which
      fail with [OutOfRange].  A decoder therefore returns a [result].
    - [int] is [Z].  The integer values that occur (bits, syndromes, sums over
      one column of H) are far from the limits of [int], so overflow is not
      modelled.
    - [double] is modelled by exact rational arithmetic ([Qc]).  Rounding,
      infinities and NaN are outside the model; a division by zero yields 0.
      What depends on infinities, on NaN or on overflow is stated on a second
      embedding of the [double] instances of the decoders, [Fp], over the
      values of binary64.
    - A function that returns [bool] and writes [out] through a reference
      returns the pair of the flag and the final [out]. *)

From Stdlib Require Import Ascii.
From Stdlib Require Import ZArith QArith Qcanon Qcabs Qround Lia Permutation.
From stdpp Require Import strings base tactics option list numbers.

Open Scope Z_scope.

(** ** Results of fallible code *)

Inductive error : Type :=
| OutOfRange        (* vector access outside its bounds, or *end() read *)
| InvalidArgument   (* std::invalid_argument *)
| AssertionFailed.  (* assert(...) *)

Inductive result (A : Type) : Type :=
| Ok (a : A)
| Err (e : error).
Arguments Ok {A} a.
Arguments Err {A} e.

Definition bind {A B : Type} (m : result A) (f : A -> result B) : result B :=
  match m with
  | Ok a => f a
  | Err e => Err e
  end.

Notation "'let*' p ':=' m 'in' f" :=
  (bind m (fun p => f))
  (at level 10, p pattern, m at level 200, f at level 200, only parsing).

(** [v[i]] as an rvalue. *)
Definition vget {A : Type} (v : list A) (i : nat) : result A :=
  match v !! i with
  | Some a => Ok a
  | None => Err OutOfRange
  end.

(** [v[i] = a]. *)
Definition vset {A : Type} (v : list A) (i : nat) (a : A) : result (list A) :=
  if decide (i < length v)%nat then Ok (<[i := a]> v) else Err OutOfRange.

(** [for (x : l) body], threading the loop state. *)
Fixpoint foldM {S A : Type} (body : S -> A -> result S) (l : list A) (s : S)
  : result S :=
  match l with
  | [] => Ok s
  | x :: l' =>
      match body s x with
      | Ok s' => foldM body l' s'
      | Err e => Err e
      end
  end.

(** [for (int i = 0; i < n; ++i) body]. *)
Definition for_range {S : Type} (n : nat) (body : S -> nat -> result S) (s : S)
  : result S :=
  foldM body (seq 0 n) s.

(** ** Numbers *)

Definition double : Type := Qc.

Definition of_Z (z : Z) : double := Q2Qc (inject_Z z).

Definition dlt (x y : double) : bool :=
  match (x ?= y)%Qc with
  | Lt => true
  | _ => false
  end.

Definition deqb (x y : double) : bool :=
  match (x ?= y)%Qc with
  | Eq => true
  | _ => false
  end.

Definition dabs (x : double) : double := Qcabs x.

(** Conversion of a [double] to [int]: truncation toward zero. *)
Definition trunc (x : double) : Z :=
  if dlt x (of_Z 0) then - Qfloor (this (- x)%Qc) else Qfloor (this x).

(** [std::round]: nearest integer, halfway cases away from zero. *)
Definition std_round (x : double) : double :=
  let half : double := Q2Qc (1 # 2) in
  if dlt x (of_Z 0)
  then of_Z (- Qfloor (this (- x + half)%Qc))
  else of_Z (Qfloor (this (x + half)%Qc)).

(** [std::numeric_limits<double>::max()] and [std::numeric_limits<int>::max()]. *)
Definition DBL_MAX : double := of_Z (2 ^ 1024 - 2 ^ 971).
Definition INT_MAX : Z := 2147483647.

(** [#define EPSILON_FLIP 0.001] *)
Definition EPSILON_FLIP : double := Q2Qc (1 # 1000).

(** [std::nan("")] has no counterpart among the rationals.  It is only the
    initial content of the message matrices, which the sparsity pattern of a
    consistent H never reads before writing; it is modelled by [0]. *)
Definition quiet_nan : double := of_Z 0.

(** The arithmetic a template parameter ([E] in [bf_decode], [R] in
    [iterative_mlg_decode]) has to provide; it is instantiated at [int] and
    at [double]. *)
Class Arith (T : Type) : Type := {
  of_int : Z -> T;
  of_double : double -> T;
  to_double : T -> double;
  to_int : T -> Z;
  add : T -> T -> T;
  sub : T -> T -> T;
  neg : T -> T;
  abs : T -> T;
  ltb : T -> T -> bool;
  eqb : T -> T -> bool
}.

#[export] Instance int_arith : Arith Z := {|
  of_int z := z;
  of_double := trunc;
  to_double := of_Z;
  to_int z := z;
  add := Z.add;
  sub := Z.sub;
  neg := Z.opp;
  abs := Z.abs;
  ltb := Z.ltb;
  eqb := Z.eqb
|}.

#[export] Instance double_arith : Arith double := {|
  of_int := of_Z;
  of_double x := x;
  to_double x := x;
  to_int := trunc;
  add := Qcplus;
  sub := Qcminus;
  neg := Qcopp;
  abs := Qcabs;
  ltb := dlt;
  eqb := deqb
|}.

(** [std::min(a, b)] is [(b < a) ? b : a]; [std::max(a, b)] is
    [(a < b) ? b : a]. *)
Definition std_min {T : Type} `{Arith T} (a b : T) : T := if ltb b a then b else a.
Definition std_max {T : Type} `{Arith T} (a b : T) : T := if ltb a b then b else a.

(** [*std::max_element(e.begin(), e.end())]: the first largest element;
    dereferencing [end()] of an empty vector is undefined. *)
Definition max_element {T : Type} `{Arith T} (e : list T) : result T :=
  match e with
  | [] => Err OutOfRange
  | x :: l => Ok (fold_left (fun m y => if ltb m y then y else m) l x)
  end.

(** ** The parity-check matrix *)

(** Modelled from the spec: [ctrlmat.h] is not among the sources.  The
    decoders use the members [n], [k], [K] and [N] only: the code length, the
    number of parity checks, and for every row (column) the ordered column
    (row) indices of its ones. *)
Module CtrlMat.
Record t : Type := Make {
  n : nat;
  k : nat;
  K : list (list nat);
  N : list (list nat)
}.
End CtrlMat.
Abbreviation CtrlMat := CtrlMat.t.

(** [out[j] = in[j] < 0.0 ? 1 : 0]; [min_sum_decode] writes it as
    [out[i] = in[i] < 0.0]. *)
Definition hard_bit (inp : list double) (out : list Z) (j : nat)
  : result (list Z) :=
  let* x := vget inp j in
  vset out j (if dlt x (of_Z 0) then 1 else 0).

(** [out[index] ^= 1] *)
Definition flip (out : list Z) (index : nat) : result (list Z) :=
  let* o := vget out index in
  vset out index (Z.lxor o 1).

(** ** Bit flipping: [bf_decode<E>] *)

(** The local vectors of [bf_decode] that live across iterations. *)
Record bf_state (E : Type) : Type := BfState {
  bf_w : list double;
  bf_s : list Z;
  bf_e : list E;
  bf_out : list Z
}.
Arguments BfState {E} _ _ _ _.
Arguments bf_w {E} _.
Arguments bf_s {E} _.
Arguments bf_e {E} _.
Arguments bf_out {E} _.

Section bf_decode.
Context {E : Type} {arith_E : Arith E}.
Variables (H : CtrlMat) (alpha : double) (inp : list double).
Variables (weighted modified improved : bool).

(** Body of [for (int j : H.K[i])] in the syndrome pass. *)
Definition bf_row_step (iter i : nat) (out : list Z)
    (sw : list Z * list double) (j : nat) : result (list Z * list double) :=
  let (s, w) := sw in
  let* si := vget s i in
  let* oj := vget out j in
  let* s := vset s i (Z.lxor si oj) in
  if (iter =? 0)%nat && weighted && negb improved then
    let* wi := vget w i in
    let* x := vget inp j in
    let* w := vset w i (std_min wi (dabs x)) in
    Ok (s, w)
  else Ok (s, w).

(** Body of [for (int i = 0; i < H.k; ++i)]. *)
Definition bf_syndrome (iter : nat) (out : list Z)
    (st : list Z * list double * bool) (i : nat)
    : result (list Z * list double * bool) :=
  let '(s, w, is_codeword) := st in
  let* s := vset s i 0 in
  let* Ki := vget (CtrlMat.K H) i in
  let* (s, w) := foldM (bf_row_step iter i out) Ki (s, w) in
  let* si := vget s i in
  Ok (s, w, if si =? 1 then false else is_codeword).

(** Body of [for (int jp : H.K[i])] of the improved variant. *)
Definition bf_weight_step (i j : nat) (w : list double) (jp : nat)
    : result (list double) :=
  if (jp =? j)%nat then Ok w
  else
    let* wij := vget w (i * CtrlMat.n H + j)%nat in
    let* x := vget inp jp in
    vset w (i * CtrlMat.n H + j)%nat (std_min wij (dabs x)).

(** [e[j] += (2 * s[i] - 1) * wt] *)
Definition bf_add_weighted (ej : E) (si : Z) (wt : double) : E :=
  of_double (to_double ej + of_Z (2 * si - 1) * wt)%Qc.

(** Body of [for (int i : H.N[j])]. *)
Definition bf_metric_step (iter j : nat) (s : list Z)
    (we : list double * list E) (i : nat) : result (list double * list E) :=
  let (w, e) := we in
  let* w :=
    if improved && (iter =? 0)%nat then
      let* Ki := vget (CtrlMat.K H) i in
      foldM (bf_weight_step i j) Ki w
    else Ok w in
  let* ej := vget e j in
  let* si := vget s i in
  if improved then
    let* wij := vget w (i * CtrlMat.n H + j)%nat in
    let* e := vset e j (bf_add_weighted ej si wij) in
    Ok (w, e)
  else if modified then
    let* wi := vget w i in
    let* e := vset e j (bf_add_weighted ej si wi) in
    Ok (w, e)
  else if weighted then
    let* wi := vget w i in
    let* e := vset e j (bf_add_weighted ej si wi) in
    Ok (w, e)
  else
    let* e := vset e j (add ej (of_int si)) in
    Ok (w, e).

(** Body of [for (int j = 0; j < H.n; ++j)] computing [e]. *)
Definition bf_metric (iter : nat) (s : list Z)
    (we : list double * list E) (j : nat) : result (list double * list E) :=
  let (w, e) := we in
  let* e :=
    if modified then
      let* x := vget inp j in
      vset e j (of_double (- alpha * dabs x)%Qc)
    else vset e j (of_int 0) in
  let* Nj := vget (CtrlMat.N H) j in
  foldM (bf_metric_step iter j s) Nj (w, e).

(** The test that puts [j] into [to_flip]. *)
Definition bf_flips (ej T_max : E) : bool :=
  if weighted then dlt (to_double (abs (sub ej T_max))) EPSILON_FLIP
  else eqb ej T_max.

(** Body of the loop that fills [std::set<int> to_flip].  The indices are
    inserted in increasing order, so the set is the list of the inserted
    indices, which is also its iteration order. *)
Definition bf_select (e : list E) (T_max : E) (to_flip : list nat) (j : nat)
    : result (list nat) :=
  let* ej := vget e j in
  if bf_flips ej T_max then Ok (to_flip ++ [j]) else Ok to_flip.

(** One pass through the body of [for (iter ...)]: the flag tells whether
    the body returned [true]. *)
Definition bf_iteration (iter : nat) (st : bf_state E)
    : result (bool * bf_state E) :=
  let* (s, w, is_codeword) :=
    for_range (CtrlMat.k H) (bf_syndrome iter (bf_out st))
              (bf_s st, bf_w st, true) in
  if is_codeword then Ok (true, BfState w s (bf_e st) (bf_out st))
  else
    let* (w, e) := for_range (CtrlMat.n H) (bf_metric iter s) (w, bf_e st) in
    let* T_max := max_element e in
    let* to_flip := for_range (CtrlMat.n H) (bf_select e T_max) [] in
    let* out := foldM flip to_flip (bf_out st) in
    Ok (false, BfState w s e out).

(** [for (int iter = 0; iter < max_iter; ++iter)], with [rem] iterations
    left. *)
Fixpoint bf_loop (rem iter : nat) (st : bf_state E) : result (bool * list Z) :=
  match rem with
  | O => Ok (false, bf_out st)
  | S rem' =>
      let* (returned, st') := bf_iteration iter st in
      if returned then Ok (true, bf_out st')
      else bf_loop rem' (S iter) st'
  end.

(** Everything before the loop. *)
Definition bf_init (out : list Z) : result (bf_state E) :=
  if negb (negb modified || weighted) then Err AssertionFailed
  else if negb (negb improved || (modified && weighted)) then Err AssertionFailed
  else
    let w_size :=
      if improved then (CtrlMat.k H * CtrlMat.n H)%nat
      else if weighted then CtrlMat.k H else 0%nat in
    let w := replicate w_size DBL_MAX in
    let s := replicate (CtrlMat.k H) 0 in
    let e := replicate (CtrlMat.n H) (of_int 0) in
    let* out := for_range (CtrlMat.n H) (hard_bit inp) out in
    Ok (BfState w s e out).
End bf_decode.

Definition bf_decode (E : Type) {arith_E : Arith E} (H : CtrlMat) (max_iter : Z)
    (alpha : double) (inp : list double) (out : list Z)
    (weighted modified improved : bool) : result (bool * list Z) :=
  let* st := bf_init (E := E) H inp weighted modified improved out in
  bf_loop H alpha inp weighted modified improved (Z.to_nat max_iter) 0 st.

Definition BF_decode (H : CtrlMat) (max_iter : Z) (inp : list double)
    (out : list Z) : result (bool * list Z) :=
  bf_decode Z H max_iter (of_Z 0) inp out false false false.

Definition WBF_decode (H : CtrlMat) (max_iter : Z) (inp : list double)
    (out : list Z) : result (bool * list Z) :=
  bf_decode double H max_iter (of_Z 0) inp out true false false.

Definition MWBF_decode (H : CtrlMat) (max_iter : Z) (alpha : double)
    (inp : list double) (out : list Z) : result (bool * list Z) :=
  bf_decode double H max_iter alpha inp out true true false.

Definition IMWBF_decode (H : CtrlMat) (max_iter : Z) (alpha : double)
    (inp : list double) (out : list Z) : result (bool * list Z) :=
  bf_decode double H max_iter alpha inp out true true true.

(** ** Majority logic *)

(** Body of [for (int j : H.K[i]) s[i] ^= out[j];]. *)
Definition mlg_row_step (i : nat) (out : list Z) (s : list Z) (j : nat)
    : result (list Z) :=
  let* si := vget s i in
  let* oj := vget out j in
  vset s i (Z.lxor si oj).

(** Body of the syndrome loop of [OneStepMLG::_decode] and of
    [iterative_mlg_decode]; both run it as [for (int i = 0; i < H.n; ++i)]. *)
Definition mlg_syndrome (H : CtrlMat) (out : list Z) (st : list Z * bool)
    (i : nat) : result (list Z * bool) :=
  let (s, is_codeword) := st in
  let* s := vset s i 0 in
  let* Ki := vget (CtrlMat.K H) i in
  let* s := foldM (mlg_row_step i out) Ki s in
  let* si := vget s i in
  Ok (s, if si =? 1 then false else is_codeword).

(** Body of [for (int i : H.N[j]) e[j] += s[i];]. *)
Definition one_step_sum (j : nat) (s : list Z) (e : list Z) (i : nat)
    : result (list Z) :=
  let* ej := vget e j in
  let* si := vget s i in
  vset e j (ej + si).

(** Body of the correction loop of [OneStepMLG::_decode]. *)
Definition one_step_correct (H : CtrlMat) (gamma_half : Z) (s : list Z)
    (eo : list Z * list Z) (j : nat) : result (list Z * list Z) :=
  let (e, out) := eo in
  let* e := vset e j 0 in
  let* Nj := vget (CtrlMat.N H) j in
  let* e := foldM (one_step_sum j s) Nj e in
  let* ej := vget e j in
  if gamma_half <? ej then
    let* out := flip out j in
    Ok (e, out)
  else Ok (e, out).

Definition OneStepMLG_decode (H : CtrlMat) (inp : list double) (out : list Z)
    : result (bool * list Z) :=
  let* col0 := vget (CtrlMat.N H) 0 in
  let gamma_half := Z.of_nat (length col0) / 2 in
  let s := replicate (CtrlMat.n H) 0 in
  let e := replicate (CtrlMat.n H) 0 in
  let* out := for_range (CtrlMat.n H) (hard_bit inp) out in
  let* (s, is_codeword) :=
    for_range (CtrlMat.n H) (mlg_syndrome H out) (s, true) in
  if is_codeword then Ok (true, out)
  else
    let* (e, out) :=
      for_range (CtrlMat.n H) (one_step_correct H gamma_half s) (e, out) in
    Ok (true, out).

(** The local vectors of [iterative_mlg_decode] that live across
    iterations. *)
Record mlg_state (R : Type) : Type := MlgState {
  mlg_r : list R;
  mlg_s : list Z;
  mlg_e : list Z;
  mlg_w : list Z;
  mlg_out : list Z
}.
Arguments MlgState {R} _ _ _ _ _.
Arguments mlg_r {R} _.
Arguments mlg_s {R} _.
Arguments mlg_e {R} _.
Arguments mlg_w {R} _.
Arguments mlg_out {R} _.

Section iterative_mlg_decode.
Context {R : Type} {arith_R : Arith R}.
Variables (H : CtrlMat) (alpha : double) (inp : list double).
Variables (soft adaptive : bool).

(** [R max = soft ? (1 << (x - 1)) - 1 : gamma; R min = -max;]
    with [gamma = H.N[0].size()] and [x = 3]. *)
Definition mlg_max (gamma : Z) : R :=
  let x := 3 in
  of_int (if soft then Z.shiftl 1 (x - 1) - 1 else gamma).
Definition mlg_min (gamma : Z) : R := neg (mlg_max gamma).

(** Body of the initialisation loop. *)
Definition mlg_init_step (gamma : Z) (ro : list R * list Z) (j : nat)
    : result (list R * list Z) :=
  let (r, out) := ro in
  let* out := hard_bit inp out j in
  if soft then
    let* x := vget inp j in
    let q : R := of_double (std_round (x * to_double (mlg_max gamma))%Qc) in
    let* r := vset r j (std_min (std_max q (mlg_min gamma)) (mlg_max gamma)) in
    Ok (r, out)
  else
    let* oj := vget out j in
    let* r := vset r j (if oj =? 0 then mlg_max gamma else mlg_min gamma) in
    Ok (r, out).

(** Body of [for (int jp : H.K[i])] in the weight table loop. *)
Definition mlg_wij_step (j : nat) (r : list R) (wij_min : R) (jp : nat)
    : result R :=
  if (jp =? j)%nat then Ok wij_min
  else
    let* rjp := vget r jp in
    Ok (std_min wij_min (abs rjp)).

(** Body of [for (int j = 0; j < H.n; ++j)] in the weight table loop: the
    running minimum [wij_min] is computed, and [min] is stored. *)
Definition mlg_weight_cell (gamma : Z) (r : list R) (i : nat) (w : list Z)
    (j : nat) : result (list Z) :=
  let* Ki := vget (CtrlMat.K H) i in
  let* wij_min := foldM (mlg_wij_step j r) Ki (of_int INT_MAX) in
  vset w (i * CtrlMat.n H + j)%nat (to_int (mlg_min gamma)).

Definition mlg_weight_row (gamma : Z) (r : list R) (w : list Z) (i : nat)
    : result (list Z) :=
  for_range (CtrlMat.n H) (mlg_weight_cell gamma r i) w.

(** Body of [for (int i : H.N[j])] computing [e[j]]. *)
Definition mlg_metric_step (j : nat) (s w out : list Z) (e : list Z) (i : nat)
    : result (list Z) :=
  let* ej := vget e j in
  let* si := vget s i in
  let* oj := vget out j in
  if adaptive then
    let* wij := vget w (i * CtrlMat.n H + j)%nat in
    vset e j (ej + (2 * Z.lxor si oj - 1) * wij)
  else vset e j (ej + (2 * Z.lxor si oj - 1)).

Definition mlg_metric (s w out : list Z) (e : list Z) (j : nat)
    : result (list Z) :=
  let* e := vset e j 0 in
  let* Nj := vget (CtrlMat.N H) j in
  foldM (mlg_metric_step j s w out) Nj e.

(** Body of the loop that updates [r] and re-derives [out]. *)
Definition mlg_update (gamma : Z) (e : list Z) (ro : list R * list Z)
    (j : nat) : result (list R * list Z) :=
  let (r, out) := ro in
  let* rj := vget r j in
  let* ej := vget e j in
  let* r :=
    if adaptive then
      vset r j (of_double
        (std_min (std_max (to_double rj - alpha * of_Z ej)%Qc
                          (to_double (mlg_min gamma)))
                 (to_double (mlg_max gamma))))
    else
      vset r j (std_min (std_max (sub rj (of_int ej)) (mlg_min gamma))
                        (mlg_max gamma)) in
  let* rj := vget r j in
  let* out := vset out j (if ltb rj (of_int 0) then 1 else 0) in
  Ok (r, out).

(** One pass through the body of [for (iter ...)]: the flag tells whether
    the body returned [true]. *)
Definition mlg_iteration (gamma : Z) (st : mlg_state R)
    : result (bool * mlg_state R) :=
  let* (s, is_codeword) :=
    for_range (CtrlMat.n H) (mlg_syndrome H (mlg_out st)) (mlg_s st, true) in
  if is_codeword
  then Ok (true, MlgState (mlg_r st) s (mlg_e st) (mlg_w st) (mlg_out st))
  else
    let* e :=
      for_range (CtrlMat.n H) (mlg_metric s (mlg_w st) (mlg_out st))
                (mlg_e st) in
    let* (r, out) :=
      for_range (CtrlMat.n H) (mlg_update gamma e) (mlg_r st, mlg_out st) in
    Ok (false, MlgState r s e (mlg_w st) out).

Fixpoint mlg_loop (gamma : Z) (rem : nat) (st : mlg_state R)
    : result (bool * list Z) :=
  match rem with
  | O => Ok (false, mlg_out st)
  | S rem' =>
      let* (returned, st') := mlg_iteration gamma st in
      if returned then Ok (true, mlg_out st')
      else mlg_loop gamma rem' st'
  end.

(** Everything before the loop; also yields [gamma]. *)
Definition mlg_init (out : list Z) : result (Z * mlg_state R) :=
  let* col0 := vget (CtrlMat.N H) 0 in
  let gamma := Z.of_nat (length col0) in
  let r := replicate (CtrlMat.n H) (of_int 0) in
  let s := replicate (CtrlMat.n H) 0 in
  let e := replicate (CtrlMat.n H) 0 in
  let w := replicate (CtrlMat.k H * CtrlMat.n H) INT_MAX in
  let* (r, out) := for_range (CtrlMat.n H) (mlg_init_step gamma) (r, out) in
  let* w :=
    if adaptive then for_range (CtrlMat.k H) (mlg_weight_row gamma r) w
    else Ok w in
  Ok (gamma, MlgState r s e w out).
End iterative_mlg_decode.

Definition iterative_mlg_decode (R : Type) {arith_R : Arith R} (H : CtrlMat)
    (max_iter : Z) (alpha : double) (inp : list double) (out : list Z)
    (soft adaptive : bool) : result (bool * list Z) :=
  let* (gamma, st) := mlg_init (R := R) H inp soft adaptive out in
  mlg_loop H alpha soft adaptive gamma (Z.to_nat max_iter) st.

Definition HardMLG_decode (H : CtrlMat) (max_iter : Z) (inp : list double)
    (out : list Z) : result (bool * list Z) :=
  iterative_mlg_decode Z H max_iter (of_Z 0) inp out false false.

Definition SoftMLG_decode (H : CtrlMat) (max_iter : Z) (inp : list double)
    (out : list Z) : result (bool * list Z) :=
  iterative_mlg_decode Z H max_iter (of_Z 0) inp out true false.

Definition AdaptiveSoftMLG_decode (H : CtrlMat) (max_iter : Z) (alpha : double)
    (inp : list double) (out : list Z) : result (bool * list Z) :=
  iterative_mlg_decode double H max_iter alpha inp out true true.

(** ** Min-sum *)

(** [for (int j : H.K[i]) s ^= out[j];] on the local [int s]. *)
Definition hard_decide_step (out : list Z) (s : Z) (j : nat) : result Z :=
  let* oj := vget out j in
  Ok (Z.lxor s oj).

(** The row loop of [hard_decide], over the rows that are left; the first
    row with [s == 1] returns [false]. *)
Fixpoint hard_decide_rows (out : list Z) (H : CtrlMat) (rows : list nat)
    : result bool :=
  match rows with
  | [] => Ok true
  | i :: rows' =>
      let* Ki := vget (CtrlMat.K H) i in
      let* s := foldM (hard_decide_step out) Ki 0 in
      if s =? 1 then Ok false else hard_decide_rows out H rows'
  end.

Definition hard_decide (out : list Z) (H : CtrlMat) : result bool :=
  hard_decide_rows out H (seq 0 (CtrlMat.k H)).

(** The local vectors of [min_sum_decode] that live across iterations. *)
Record ms_state : Type := MsState {
  ms_Q : list double;
  ms_R : list double;
  ms_min1 : list double;
  ms_min2 : list double;
  ms_sgn : list Z;
  ms_out : list Z
}.

(** The row summary under construction: [Q], [min1], [min2], [sgn]. *)
Definition ms_summary : Type :=
  (list double * list double * list double * list Z)%type.

Section min_sum_decode.
Variables (H : CtrlMat) (alpha : double) (inp : list double).
Variables (normalized offset : bool).

(** Body of [for (int j : H.K[i])] in the summary pass. *)
Definition ms_summary_step (iter i : nat) (st : ms_summary) (j : nat)
    : result ms_summary :=
  let '(Q, min1, min2, sgn) := st in
  let n := CtrlMat.n H in
  let* Q :=
    if (iter =? 0)%nat then
      let* x := vget inp j in
      vset Q (i * n + j)%nat x
    else Ok Q in
  let* q := vget Q (i * n + j)%nat in
  let q_abs := dabs q in
  let* m1 := vget min1 i in
  let* m2 := vget min2 i in
  let* (min1, min2) :=
    if dlt q_abs m1 then
      let* min2 := vset min2 i m1 in
      let* min1 := vset min1 i q_abs in
      Ok (min1, min2)
    else if dlt q_abs m2 then
      let* min2 := vset min2 i q_abs in
      Ok (min1, min2)
    else Ok (min1, min2) in
  let* sgn :=
    if dlt q (of_Z 0) then
      let* sg := vget sgn i in
      vset sgn i (Z.lxor sg 1)
    else Ok sgn in
  Ok (Q, min1, min2, sgn).

(** Body of [for (int i = 0; i < k; ++i)] in the summary pass. *)
Definition ms_summary_row (iter : nat) (st : ms_summary) (i : nat)
    : result ms_summary :=
  let '(Q, min1, min2, sgn) := st in
  let* min1 := vset min1 i DBL_MAX in
  let* min2 := vset min2 i DBL_MAX in
  let* sgn := vset sgn i 0 in
  let* Ki := vget (CtrlMat.K H) i in
  foldM (ms_summary_step iter i) Ki (Q, min1, min2, sgn).

(** The value stored into [R[i * n + j]]: [sg] is [sgn[i]], [r] the
    selected minimum. *)
Definition ms_message (sg : Z) (q r : double) : double :=
  let negative := negb (Z.lxor sg (if dlt q (of_Z 0) then 1 else 0) =? 0) in
  if normalized then
    ((Q2Qc 1 / alpha) * (if negative then - r else r))%Qc
  else if offset then
    let tmp := std_max (r - alpha)%Qc (of_Z 0) in
    if negative then (- tmp)%Qc else tmp
  else if negative then (- r)%Qc else r.

(** Body of [for (int j : H.K[i])] in the update of [R]. *)
Definition ms_update_step (Q min1 min2 : list double) (sgn : list Z) (i : nat)
    (R : list double) (j : nat) : result (list double) :=
  let n := CtrlMat.n H in
  let* q := vget Q (i * n + j)%nat in
  let q_abs := dabs q in
  let* m1 := vget min1 i in
  let* m2 := vget min2 i in
  let r := if deqb q_abs m1 then m2 else m1 in
  let* sg := vget sgn i in
  vset R (i * n + j)%nat (ms_message sg q r).

Definition ms_update_row (Q min1 min2 : list double) (sgn : list Z)
    (R : list double) (i : nat) : result (list double) :=
  let* Ki := vget (CtrlMat.K H) i in
  foldM (ms_update_step Q min1 min2 sgn i) Ki R.

(** [for (int i : H.N[j]) Le += R[i * n + j];] *)
Definition ms_extrinsic_step (R : list double) (j : nat) (Le : double)
    (i : nat) : result double :=
  let* x := vget R (i * CtrlMat.n H + j)%nat in
  Ok (Le + x)%Qc.

(** [for (int i : H.N[j]) Q[i * n + j] = in[j] + Le - R[i * n + j];] *)
Definition ms_posterior_step (R : list double) (j : nat) (Le : double)
    (Q : list double) (i : nat) : result (list double) :=
  let* x := vget inp j in
  let* y := vget R (i * CtrlMat.n H + j)%nat in
  vset Q (i * CtrlMat.n H + j)%nat (x + Le - y)%Qc.

(** Body of [for (int j = 0; j < n; ++j)] in the variable-node pass. *)
Definition ms_variable (R : list double) (Qo : list double * list Z)
    (j : nat) : result (list double * list Z) :=
  let (Q, out) := Qo in
  let* Nj := vget (CtrlMat.N H) j in
  let* Le := foldM (ms_extrinsic_step R j) Nj (of_Z 0) in
  let* x := vget inp j in
  let* out := vset out j (if dlt (x + Le)%Qc (of_Z 0) then 1 else 0) in
  let* Q := foldM (ms_posterior_step R j Le) Nj Q in
  Ok (Q, out).

(** One pass through the body of [for (iter ...)]: the flag tells whether
    the body returned [true]. *)
Definition ms_iteration (iter : nat) (st : ms_state)
    : result (bool * ms_state) :=
  let* (Q, min1, min2, sgn) :=
    for_range (CtrlMat.k H) (ms_summary_row iter)
              (ms_Q st, ms_min1 st, ms_min2 st, ms_sgn st) in
  let* R := for_range (CtrlMat.k H) (ms_update_row Q min1 min2 sgn) (ms_R st) in
  let* (Q, out) := for_range (CtrlMat.n H) (ms_variable R) (Q, ms_out st) in
  let* codeword := hard_decide out H in
  Ok (codeword, MsState Q R min1 min2 sgn out).

Fixpoint ms_loop (rem iter : nat) (st : ms_state) : result (bool * list Z) :=
  match rem with
  | O => Ok (false, ms_out st)
  | S rem' =>
      let* (returned, st') := ms_iteration iter st in
      if returned then Ok (true, ms_out st')
      else ms_loop rem' (S iter) st'
  end.

End min_sum_decode.

Definition min_sum_decode (H : CtrlMat) (max_iter : Z) (alpha : double)
    (inp : list double) (out : list Z) (normalized offset : bool)
    : result (bool * list Z) :=
  if normalized && offset then Err InvalidArgument
  else
    let k := CtrlMat.k H in
    let n := CtrlMat.n H in
    let Q := replicate (k * n) quiet_nan in
    let R := replicate (k * n) quiet_nan in
    let min1 := replicate k DBL_MAX in
    let min2 := replicate k DBL_MAX in
    let sgn := replicate k 0 in
    let* out := for_range n (hard_bit inp) out in
    let* codeword := hard_decide out H in
    if codeword then Ok (true, out)
    else
      ms_loop H alpha inp normalized offset (Z.to_nat max_iter) 0
              (MsState Q R min1 min2 sgn out).

Definition MinSum_decode (H : CtrlMat) (max_iter : Z) (inp : list double)
    (out : list Z) : result (bool * list Z) :=
  min_sum_decode H max_iter (of_Z 0) inp out false false.

Definition NormalizedMinSum_decode (H : CtrlMat) (max_iter : Z)
    (alpha : double) (inp : list double) (out : list Z)
    : result (bool * list Z) :=
  min_sum_decode H max_iter alpha inp out true false.

Definition OffsetMinSum_decode (H : CtrlMat) (max_iter : Z) (alpha : double)
    (inp : list double) (out : list Z) : result (bool * list Z) :=
  min_sum_decode H max_iter alpha inp out false true.

(** ** The decoder classes *)

(** Modelled from the spec: [blockdecoder.h] is not among the sources.  Every
    decoder class holds [H], [max_iter] and [alpha] and overrides [_decode];
    the classes are the eleven whose [_decode] is defined above. *)
Inductive decoder : Type :=
| BF | WBF | MWBF | IMWBF
| OneStepMLG | HardMLG | SoftMLG | AdaptiveSoftMLG
| MinSum | NormalizedMinSum | OffsetMinSum.

(** Virtual dispatch of [_decode]. *)
Definition decode (d : decoder) (H : CtrlMat) (max_iter : Z) (alpha : double)
    (inp : list double) (out : list Z) : result (bool * list Z) :=
  match d with
  | BF => BF_decode H max_iter inp out
  | WBF => WBF_decode H max_iter inp out
  | MWBF => MWBF_decode H max_iter alpha inp out
  | IMWBF => IMWBF_decode H max_iter alpha inp out
  | OneStepMLG => OneStepMLG_decode H inp out
  | HardMLG => HardMLG_decode H max_iter inp out
  | SoftMLG => SoftMLG_decode H max_iter inp out
  | AdaptiveSoftMLG => AdaptiveSoftMLG_decode H max_iter alpha inp out
  | MinSum => MinSum_decode H max_iter inp out
  | NormalizedMinSum => NormalizedMinSum_decode H max_iter alpha inp out
  | OffsetMinSum => OffsetMinSum_decode H max_iter alpha inp out
  end.

Definition is_min_sum (d : decoder) : bool :=
  match d with
  | MinSum | NormalizedMinSum | OffsetMinSum => true
  | _ => false
  end.

Definition is_iterative_mlg (d : decoder) : bool :=
  match d with
  | HardMLG | SoftMLG | AdaptiveSoftMLG => true
  | _ => false
  end.

(** ** Vocabulary of the specification *)

(** The hard decision of a sample. *)
Definition hard (x : double) : Z := if dlt x (of_Z 0) then 1 else 0.

(** [out[j]] for the statements; [0] outside the vector. *)
Definition bit_at (out : list Z) (j : nat) : Z := default 0 (out !! j).

(** The XOR of [out[j]] over the columns [j] of one row. *)
Definition parity (out : list Z) (row : list nat) : Z :=
  fold_left (fun a j => Z.lxor a (bit_at out j)) row 0.

(** [out] satisfies every parity check of H. *)
Definition is_codeword (H : CtrlMat) (out : list Z) : bool :=
  forallb (fun row => parity out row =? 0) (CtrlMat.K H).

(** The invariants of the data model: [K] has [k] rows and [N] has [n]
    columns, and every index is within bounds. *)
Record well_formed (H : CtrlMat) : Prop := {
  wf_rows : length (CtrlMat.K H) = CtrlMat.k H;
  wf_cols : length (CtrlMat.N H) = CtrlMat.n H;
  wf_K : Forall (Forall (fun j => (j < CtrlMat.n H)%nat)) (CtrlMat.K H);
  wf_N : Forall (Forall (fun i => (i < CtrlMat.k H)%nat)) (CtrlMat.N H)
}.

(** * The benchmark tool

    [to_bin_str] of [src/tool/benchmark] turns the exponents of a generator
    polynomial into the string of its binary coefficients, highest first.
    A Python [int] is a [Z], a [str] a [string]; a raised exception ends the
    computation. *)

Inductive py_exception : Type :=
| ValueError.  (* max() of an empty sequence *)

Inductive py_result (A : Type) : Type :=
| Return (a : A)
| Raise (e : py_exception).
Arguments Return {A} _.
Arguments Raise {A} _.

(** [max(l)] on a list of integers. *)
Definition py_max (l : list Z) : py_result Z :=
  match l with
  | [] => Raise ValueError
  | x :: l' => Return (fold_left Z.max l' x)
  end.

(** [range(start, -1, -1)]: [start, start - 1, ..., 0]. *)
Definition range_down (start : Z) : list Z :=
  map (fun i => start - Z.of_nat i) (seq 0 (Z.to_nat (start + 1))).

(** [to_bin_str(exponents)]. *)
Definition to_bin_str (exponents : list Z) : py_result string :=
  match py_max exponents with
  | Raise e => Raise e
  | Return degree =>
      Return
        (fold_left
           (fun bin_str e =>
              bin_str +:+ (if bool_decide (e ∈ exponents) then "1" else "0"))
           (range_down degree) EmptyString)
  end.

(** * Debug printers

    [sprint_word] and [sprint_set] of [blockdecoder.cc], compiled unless
    [NDEBUG] is defined.  [operator<<] on an element is the parameter [show];
    a [std::set] is the list of its elements in iteration order. *)

(** [s.replace(pos, len, t)]; a [pos] beyond the end throws
    [std::out_of_range]. *)
Definition std_replace (s : string) (pos len : nat) (t : string)
    : result string :=
  if (String.length s <? pos)%nat then Err OutOfRange
  else
    Ok (String.substring 0 pos s
        +:+ t
        +:+ String.substring (pos + len) (String.length s - (pos + len)) s).

Section printers.
Context {T : Type} (show : T -> string).

(** [ss << vect[i] << (i == vect.size() - 1 ? ')' : ' ')], for every
    index [i]. *)
Definition sprint_word (name : string) (vect : list T) : string :=
  fold_left
    (fun ss ix =>
       (ss +:+ show ix.2)
       +:+ (if (ix.1 =? length vect - 1)%nat then ")" else " "))
    (imap pair vect) (name +:+ " = (").

(** [ret.replace(ret.size() - 2, 2, "}")]: on a string of fewer than two
    characters the unsigned [size() - 2] wraps around to a position beyond
    the end. *)
Definition sprint_set (name : string) (set : list T) : result string :=
  let ret :=
    fold_left (fun ss val => (ss +:+ show val) +:+ ", ") set
              (name +:+ " = {") in
  if (String.length ret <? 2)%nat then Err OutOfRange
  else std_replace ret (String.length ret - 2) 2 "}".
End printers.

(** * The decoders at [double], with the special values of binary64

    [double] above holds finite values only and computes exactly.  The
    instance [bf_decode<double>] and the template [iterative_mlg_decode] are
    embedded here a second time, over an arbitrary type [F] of floating-point
    values with the operations the code applies to them.  A statement proved
    for every [F] holds whatever the arithmetic does with rounding, overflow
    and NaN.  [xdouble] is the instance with the infinities and the NaN of
    binary64 and with overflow to infinity; a finite result within range is
    kept exact, and the two zeros, which every comparison of the code treats
    alike, are one value. *)
Module Fp.

(** The operations on [double] that the decoders use. *)
Class Float (F : Type) : Type := {
  f_of_int : Z -> F;          (* conversion of an [int], and the literals *)
  f_add : F -> F -> F;
  f_sub : F -> F -> F;
  f_mul : F -> F -> F;
  f_neg : F -> F;
  f_abs : F -> F;             (* [std::abs] *)
  f_round : F -> F;           (* [std::round] *)
  f_to_int : F -> option Z;   (* conversion to [int], where it is defined *)
  f_lt : F -> F -> bool;      (* [<] *)
  f_eq : F -> F -> bool;      (* [==] *)
  f_max_value : F;            (* [std::numeric_limits<double>::max()] *)
  f_epsilon_flip : F          (* [EPSILON_FLIP], 0.001 *)
}.

(** The arithmetic of the template parameter [R] of
    [iterative_mlg_decode], which is instantiated at [int] and at
    [double], next to the values [F] of [double].  A conversion to [int]
    is undefined for a value that does not fit. *)
Class Register (F R : Type) : Type := {
  r_of_int : Z -> R;            (* an [int] as an [R] *)
  r_of_float : F -> option R;   (* a [double] as an [R], where defined *)
  r_to_float : R -> F;          (* an [R] as a [double] *)
  r_to_int : R -> option Z;     (* an [R] as an [int], where defined *)
  r_neg : R -> R;
  r_abs : R -> R;               (* [std::abs] *)
  r_sub : R -> R -> R;
  r_lt : R -> R -> bool         (* [<] *)
}.

#[global] Instance int_register {F : Type} {float_F : Float F}
  : Register F Z := {|
  r_of_int z := z;
  r_of_float := f_to_int;
  r_to_float := f_of_int;
  r_to_int z := Some z;
  r_neg := Z.opp;
  r_abs := Z.abs;
  r_sub := Z.sub;
  r_lt := Z.ltb
|}.

#[global] Instance double_register {F : Type} {float_F : Float F}
  : Register F F := {|
  r_of_int := f_of_int;
  r_of_float x := Some x;
  r_to_float x := x;
  r_to_int := f_to_int;
  r_neg := f_neg;
  r_abs := f_abs;
  r_sub := f_sub;
  r_lt := f_lt
|}.

(** The values of binary64: the finite ones, the two infinities and NaN. *)
Inductive xdouble : Type :=
| Finite (q : Qc)
| PInf
| NInf
| NaN.

(** A finite result of an operation: from [DBL_MAX] plus half a unit in the
    last place on it overflows to infinity, below that it rounds to at most
    [DBL_MAX]. *)
Definition x_result (q : Qc) : xdouble :=
  let limit : Qc := of_Z (2 ^ 1024 - 2 ^ 970) in
  if dlt q limit then
    if dlt (- limit)%Qc q then
      if dlt DBL_MAX q then Finite DBL_MAX
      else if dlt q (- DBL_MAX)%Qc then Finite (- DBL_MAX)%Qc
      else Finite q
    else NInf
  else PInf.

Definition x_neg (a : xdouble) : xdouble :=
  match a with
  | Finite q => Finite (- q)%Qc
  | PInf => NInf
  | NInf => PInf
  | NaN => NaN
  end.

Definition x_abs (a : xdouble) : xdouble :=
  match a with
  | Finite q => Finite (Qcabs q)
  | PInf | NInf => PInf
  | NaN => NaN
  end.

Definition x_add (a b : xdouble) : xdouble :=
  match a, b with
  | NaN, _ | _, NaN => NaN
  | PInf, NInf | NInf, PInf => NaN
  | PInf, _ | _, PInf => PInf
  | NInf, _ | _, NInf => NInf
  | Finite p, Finite q => x_result (p + q)%Qc
  end.

Definition x_sub (a b : xdouble) : xdouble := x_add a (x_neg b).

(** The sign of a value that is not NaN: [-1], [0] or [1]. *)
Definition x_sign (a : xdouble) : Z :=
  match a with
  | Finite q => if dlt q (of_Z 0) then -1 else if dlt (of_Z 0) q then 1 else 0
  | PInf => 1
  | NInf => -1
  | NaN => 0
  end.

Definition x_mul (a b : xdouble) : xdouble :=
  match a, b with
  | NaN, _ | _, NaN => NaN
  | Finite p, Finite q => x_result (p * q)%Qc
  | _, _ =>
      (* an infinity times a value: NaN at zero, else the infinity of the
         product of the signs *)
      match x_sign a * x_sign b with
      | 0 => NaN
      | Zpos _ => PInf
      | Zneg _ => NInf
      end
  end.

Definition x_round (a : xdouble) : xdouble :=
  match a with
  | Finite q => Finite (std_round q)
  | _ => a
  end.

(** Conversion to [int] truncates; it is undefined for a value whose
    truncation is not an [int]. *)
Definition x_to_int (a : xdouble) : option Z :=
  match a with
  | Finite q =>
      let z := trunc q in
      if (- INT_MAX - 1 <=? z) && (z <=? INT_MAX) then Some z else None
  | _ => None
  end.

Definition x_lt (a b : xdouble) : bool :=
  match a, b with
  | NaN, _ | _, NaN => false
  | Finite p, Finite q => dlt p q
  | NInf, NInf => false
  | NInf, _ => true
  | _, NInf => false
  | PInf, _ => false
  | _, PInf => true
  end.

Definition x_eq (a b : xdouble) : bool :=
  match a, b with
  | Finite p, Finite q => deqb p q
  | PInf, PInf | NInf, NInf => true
  | _, _ => false
  end.

(** [EPSILON_FLIP]: the value of binary64 nearest to 0.001, which is
    [0x1.0624dd2f1a9fcp-10]. *)
Definition x_epsilon_flip : xdouble :=
  Finite (Q2Qc (1152921504606847 # 1152921504606846976)).

#[global] Instance xdouble_float : Float xdouble := {|
  f_of_int z := Finite (of_Z z);
  f_add := x_add;
  f_sub := x_sub;
  f_mul := x_mul;
  f_neg := x_neg;
  f_abs := x_abs;
  f_round := x_round;
  f_to_int := x_to_int;
  f_lt := x_lt;
  f_eq := x_eq;
  f_max_value := Finite DBL_MAX;
  f_epsilon_flip := x_epsilon_flip
|}.

(** The local vectors of [bf_decode<double>] that live across iterations. *)
Record bf_state (F : Type) : Type := BfState {
  bf_w : list F;
  bf_s : list Z;
  bf_e : list F;
  bf_out : list Z
}.
Arguments BfState {F} _ _ _ _.
Arguments bf_w {F} _.
Arguments bf_s {F} _.
Arguments bf_e {F} _.
Arguments bf_out {F} _.

Section decoders.
Context {F : Type} {float_F : Float F}.

(** [std::min(a, b)] is [(b < a) ? b : a]; [std::max(a, b)] is
    [(a < b) ? b : a]. *)
Definition std_min (a b : F) : F := if f_lt b a then b else a.
Definition std_max (a b : F) : F := if f_lt a b then b else a.

(** [*std::max_element(e.begin(), e.end())]. *)
Definition max_element (e : list F) : result F :=
  match e with
  | [] => Err OutOfRange
  | x :: l => Ok (fold_left (fun m y => if f_lt m y then y else m) l x)
  end.

(** [out[j] = in[j] < 0.0 ? 1 : 0] *)
Definition hard_bit (inp : list F) (out : list Z) (j : nat)
  : result (list Z) :=
  let* x := vget inp j in
  vset out j (if f_lt x (f_of_int 0) then 1 else 0).

Section bf_decode.
Variables (H : CtrlMat) (alpha : F) (inp : list F).
Variables (weighted modified improved : bool).

(** Body of [for (int j : H.K[i])] in the syndrome pass. *)
Definition bf_row_step (iter i : nat) (out : list Z)
    (sw : list Z * list F) (j : nat) : result (list Z * list F) :=
  let (s, w) := sw in
  let* si := vget s i in
  let* oj := vget out j in
  let* s := vset s i (Z.lxor si oj) in
  if (iter =? 0)%nat && weighted && negb improved then
    let* wi := vget w i in
    let* x := vget inp j in
    let* w := vset w i (std_min wi (f_abs x)) in
    Ok (s, w)
  else Ok (s, w).

(** Body of [for (int i = 0; i < H.k; ++i)]. *)
Definition bf_syndrome (iter : nat) (out : list Z)
    (st : list Z * list F * bool) (i : nat)
    : result (list Z * list F * bool) :=
  let '(s, w, is_codeword) := st in
  let* s := vset s i 0 in
  let* Ki := vget (CtrlMat.K H) i in
  let* (s, w) := foldM (bf_row_step iter i out) Ki (s, w) in
  let* si := vget s i in
  Ok (s, w, if si =? 1 then false else is_codeword).

(** Body of [for (int jp : H.K[i])] of the improved variant. *)
Definition bf_weight_step (i j : nat) (w : list F) (jp : nat)
    : result (list F) :=
  if (jp =? j)%nat then Ok w
  else
    let* wij := vget w (i * CtrlMat.n H + j)%nat in
    let* x := vget inp jp in
    vset w (i * CtrlMat.n H + j)%nat (std_min wij (f_abs x)).

(** [e[j] += (2 * s[i] - 1) * wt] *)
Definition bf_add_weighted (ej : F) (si : Z) (wt : F) : F :=
  f_add ej (f_mul (f_of_int (2 * si - 1)) wt).

(** Body of [for (int i : H.N[j])]. *)
Definition bf_metric_step (iter j : nat) (s : list Z)
    (we : list F * list F) (i : nat) : result (list F * list F) :=
  let (w, e) := we in
  let* w :=
    if improved && (iter =? 0)%nat then
      let* Ki := vget (CtrlMat.K H) i in
      foldM (bf_weight_step i j) Ki w
    else Ok w in
  let* ej := vget e j in
  let* si := vget s i in
  if improved then
    let* wij := vget w (i * CtrlMat.n H + j)%nat in
    let* e := vset e j (bf_add_weighted ej si wij) in
    Ok (w, e)
  else if modified then
    let* wi := vget w i in
    let* e := vset e j (bf_add_weighted ej si wi) in
    Ok (w, e)
  else if weighted then
    let* wi := vget w i in
    let* e := vset e j (bf_add_weighted ej si wi) in
    Ok (w, e)
  else
    let* e := vset e j (f_add ej (f_of_int si)) in
    Ok (w, e).

(** Body of [for (int j = 0; j < H.n; ++j)] computing [e]. *)
Definition bf_metric (iter : nat) (s : list Z)
    (we : list F * list F) (j : nat) : result (list F * list F) :=
  let (w, e) := we in
  let* e :=
    if modified then
      let* x := vget inp j in
      vset e j (f_mul (f_neg alpha) (f_abs x))
    else vset e j (f_of_int 0) in
  let* Nj := vget (CtrlMat.N H) j in
  foldM (bf_metric_step iter j s) Nj (w, e).

(** The test that puts [j] into [to_flip]. *)
Definition bf_flips (ej T_max : F) : bool :=
  if weighted then f_lt (f_abs (f_sub ej T_max)) f_epsilon_flip
  else f_eq ej T_max.

(** Body of the loop that fills [std::set<int> to_flip]. *)
Definition bf_select (e : list F) (T_max : F) (to_flip : list nat)
    (j : nat) : result (list nat) :=
  let* ej := vget e j in
  if bf_flips ej T_max then Ok (to_flip ++ [j]) else Ok to_flip.

(** One pass through the body of [for (iter ...)]: the flag tells
    whether the body returned [true]. *)
Definition bf_iteration (iter : nat) (st : bf_state F)
    : result (bool * bf_state F) :=
  let* (s, w, is_codeword) :=
    for_range (CtrlMat.k H) (bf_syndrome iter (bf_out st))
              (bf_s st, bf_w st, true) in
  if is_codeword then Ok (true, BfState w s (bf_e st) (bf_out st))
  else
    let* (w, e) :=
      for_range (CtrlMat.n H) (bf_metric iter s) (w, bf_e st) in
    let* T_max := max_element e in
    let* to_flip := for_range (CtrlMat.n H) (bf_select e T_max) [] in
    let* out := foldM flip to_flip (bf_out st) in
    Ok (false, BfState w s e out).

Fixpoint bf_loop (rem iter : nat) (st : bf_state F)
    : result (bool * list Z) :=
  match rem with
  | O => Ok (false, bf_out st)
  | S rem' =>
      let* (returned, st') := bf_iteration iter st in
      if returned then Ok (true, bf_out st')
      else bf_loop rem' (S iter) st'
  end.

(** Everything before the loop. *)
Definition bf_init (out : list Z) : result (bf_state F) :=
  if negb (negb modified || weighted) then Err AssertionFailed
  else if negb (negb improved || (modified && weighted))
  then Err AssertionFailed
  else
    let w_size :=
      if improved then (CtrlMat.k H * CtrlMat.n H)%nat
      else if weighted then CtrlMat.k H else 0%nat in
    let w := replicate w_size f_max_value in
    let s := replicate (CtrlMat.k H) 0 in
    let e := replicate (CtrlMat.n H) (f_of_int 0) in
    let* out := for_range (CtrlMat.n H) (hard_bit inp) out in
    Ok (BfState w s e out).
End bf_decode.

(** [bf_decode<double>] *)
Definition bf_decode (H : CtrlMat) (max_iter : Z) (alpha : F)
    (inp : list F) (out : list Z) (weighted modified improved : bool)
    : result (bool * list Z) :=
  let* st := bf_init H inp weighted modified improved out in
  bf_loop H alpha inp weighted modified improved (Z.to_nat max_iter) 0 st.

Definition WBF_decode (H : CtrlMat) (max_iter : Z) (inp : list F)
    (out : list Z) : result (bool * list Z) :=
  bf_decode H max_iter (f_of_int 0) inp out true false false.

Definition MWBF_decode (H : CtrlMat) (max_iter : Z) (alpha : F)
    (inp : list F) (out : list Z) : result (bool * list Z) :=
  bf_decode H max_iter alpha inp out true true false.

Definition IMWBF_decode (H : CtrlMat) (max_iter : Z) (alpha : F)
    (inp : list F) (out : list Z) : result (bool * list Z) :=
  bf_decode H max_iter alpha inp out true true true.

(** A conversion that is undefined is reported like an access outside a
    vector. *)
Definition converted {A : Type} (o : option A) : result A :=
  match o with
  | Some a => Ok a
  | None => Err OutOfRange
  end.

Section iterative_mlg_decode.
Context {R : Type} {register_R : Register F R}.
Variables (H : CtrlMat) (alpha : F) (inp : list F).
Variables (soft adaptive : bool).

(** [std::min] and [std::max] at [R]. *)
Definition std_min_R (a b : R) : R := if r_lt b a then b else a.
Definition std_max_R (a b : R) : R := if r_lt a b then b else a.

(** [R max = soft ? (1 << (x - 1)) - 1 : gamma; R min = -max;]
    with [gamma = H.N[0].size()] and [x = 3]. *)
Definition mlg_max (gamma : Z) : R :=
  let x := 3 in
  r_of_int (if soft then Z.shiftl 1 (x - 1) - 1 else gamma).
Definition mlg_min (gamma : Z) : R := r_neg (mlg_max gamma).

(** Body of the initialisation loop; [R q = std::round(in[j] * max)]
    converts the rounded product to [R]. *)
Definition mlg_init_step (gamma : Z) (ro : list R * list Z) (j : nat)
    : result (list R * list Z) :=
  let (r, out) := ro in
  let* out := hard_bit inp out j in
  if soft then
    let* x := vget inp j in
    let* q :=
      converted
        (r_of_float (f_round (f_mul x (r_to_float (mlg_max gamma))))) in
    let* r :=
      vset r j (std_min_R (std_max_R q (mlg_min gamma))
                          (mlg_max gamma)) in
    Ok (r, out)
  else
    let* oj := vget out j in
    let* r :=
      vset r j (if oj =? 0 then mlg_max gamma else mlg_min gamma) in
    Ok (r, out).

(** Body of [for (int jp : H.K[i])] in the weight table loop. *)
Definition mlg_wij_step (j : nat) (r : list R) (wij_min : R) (jp : nat)
    : result R :=
  if (jp =? j)%nat then Ok wij_min
  else
    let* rjp := vget r jp in
    Ok (std_min_R wij_min (r_abs rjp)).

(** Body of [for (int j = 0; j < H.n; ++j)] in the weight table loop:
    the running minimum [wij_min] is computed, and [min] is stored. *)
Definition mlg_weight_cell (gamma : Z) (r : list R) (i : nat)
    (w : list Z) (j : nat) : result (list Z) :=
  let* Ki := vget (CtrlMat.K H) i in
  let* wij_min := foldM (mlg_wij_step j r) Ki (r_of_int INT_MAX) in
  let* m := converted (r_to_int (mlg_min gamma)) in
  vset w (i * CtrlMat.n H + j)%nat m.

Definition mlg_weight_row (gamma : Z) (r : list R) (w : list Z)
    (i : nat) : result (list Z) :=
  for_range (CtrlMat.n H) (mlg_weight_cell gamma r i) w.

(** Body of the loop that updates [r] and re-derives [out].  The
    adaptive update is computed at [double] and converted to [R]. *)
Definition mlg_update (gamma : Z) (e : list Z) (ro : list R * list Z)
    (j : nat) : result (list R * list Z) :=
  let (r, out) := ro in
  let* rj := vget r j in
  let* ej := vget e j in
  let* r :=
    if adaptive then
      let* v :=
        converted
          (r_of_float
             (std_min
                (std_max (f_sub (r_to_float rj)
                                (f_mul alpha (f_of_int ej)))
                         (r_to_float (mlg_min gamma)))
                (r_to_float (mlg_max gamma)))) in
      vset r j v
    else
      vset r j (std_min_R (std_max_R (r_sub rj (r_of_int ej))
                                     (mlg_min gamma))
                          (mlg_max gamma)) in
  let* rj := vget r j in
  let* out := vset out j (if r_lt rj (r_of_int 0) then 1 else 0) in
  Ok (r, out).

(** One pass through the body of [for (iter ...)]: the flag tells
    whether the body returned [true].  The syndrome and the metric
    are integer vectors whatever [R] is. *)
Definition mlg_iteration (gamma : Z) (st : mlg_state R)
    : result (bool * mlg_state R) :=
  let* (s, is_codeword) :=
    for_range (CtrlMat.n H) (mlg_syndrome H (mlg_out st))
              (mlg_s st, true) in
  if is_codeword
  then Ok (true,
           MlgState (mlg_r st) s (mlg_e st) (mlg_w st) (mlg_out st))
  else
    let* e :=
      for_range (CtrlMat.n H)
                (mlg_metric H adaptive s (mlg_w st) (mlg_out st))
                (mlg_e st) in
    let* (r, out) :=
      for_range (CtrlMat.n H) (mlg_update gamma e)
                (mlg_r st, mlg_out st) in
    Ok (false, MlgState r s e (mlg_w st) out).

Fixpoint mlg_loop (gamma : Z) (rem : nat) (st : mlg_state R)
    : result (bool * list Z) :=
  match rem with
  | O => Ok (false, mlg_out st)
  | S rem' =>
      let* (returned, st') := mlg_iteration gamma st in
      if returned then Ok (true, mlg_out st')
      else mlg_loop gamma rem' st'
  end.

(** Everything before the loop; also yields [gamma]. *)
Definition mlg_init (out : list Z) : result (Z * mlg_state R) :=
  let* col0 := vget (CtrlMat.N H) 0 in
  let gamma := Z.of_nat (length col0) in
  let r := replicate (CtrlMat.n H) (r_of_int 0) in
  let s := replicate (CtrlMat.n H) 0 in
  let e := replicate (CtrlMat.n H) 0 in
  let w := replicate (CtrlMat.k H * CtrlMat.n H) INT_MAX in
  let* (r, out) :=
    for_range (CtrlMat.n H) (mlg_init_step gamma) (r, out) in
  let* w :=
    if adaptive then for_range (CtrlMat.k H) (mlg_weight_row gamma r) w
    else Ok w in
  Ok (gamma, MlgState r s e w out).
End iterative_mlg_decode.

(** [iterative_mlg_decode<R>] *)
Definition iterative_mlg_decode (R : Type) {register_R : Register F R}
    (H : CtrlMat) (max_iter : Z) (alpha : F) (inp : list F)
    (out : list Z) (soft adaptive : bool) : result (bool * list Z) :=
  let* (gamma, st) := mlg_init (R := R) H inp soft adaptive out in
  mlg_loop H alpha soft adaptive gamma (Z.to_nat max_iter) st.

Definition HardMLG_decode (H : CtrlMat) (max_iter : Z) (inp : list F)
    (out : list Z) : result (bool * list Z) :=
  iterative_mlg_decode Z H max_iter (f_of_int 0) inp out false false.

Definition SoftMLG_decode (H : CtrlMat) (max_iter : Z) (inp : list F)
    (out : list Z) : result (bool * list Z) :=
  iterative_mlg_decode Z H max_iter (f_of_int 0) inp out true false.

Definition AdaptiveSoftMLG_decode (H : CtrlMat) (max_iter : Z) (alpha : F)
    (inp : list F) (out : list Z) : result (bool * list Z) :=
  iterative_mlg_decode F H max_iter alpha inp out true true.
End decoders.

End Fp.

(** * Vocabulary of the statements and of their proofs *)

(** The first [n] entries of [out] exist and are 0 or 1. *)
Definition bits (n : nat) (out : list Z) : Prop :=
  forall j, (j < n)%nat -> out !! j = Some 0 \/ out !! j = Some 1.

Definition parity_from (out : list Z) (row : list nat) (a : Z) : Z :=
  fold_left (fun a j => Z.lxor a (bit_at out j)) row a.

(** What the syndrome loop over the rows [0 .. m) leaves behind. *)
Definition syndrome_done (H : CtrlMat) (out s : list Z) (cw : bool) (m : nat)
    (st : list Z * bool) : Prop :=
  length st.1 = length s
  /\ (forall i, (i < m)%nat -> exists Ki,
        CtrlMat.K H !! i = Some Ki
        /\ Forall (fun j => (j < length out)%nat) Ki
        /\ st.1 !! i = Some (parity out Ki))
  /\ (forall i, (m <= i)%nat -> st.1 !! i = s !! i)
  /\ (st.2 = true <->
      cw = true /\ forall i Ki, (i < m)%nat -> CtrlMat.K H !! i = Some Ki ->
                                parity out Ki <> 1).

(** The first [m] entries are within bounds. *)
Definition saturated {R : Type} (in_bounds : R -> Prop) (m : nat)
    (r : list R) : Prop :=
  forall j x, (j < m)%nat -> r !! j = Some x -> in_bounds x.

(** The cells before position [p] hold [floor], the value the weight loop
    stores. *)
Definition floored (floor : Z) (p : nat) (w : list Z) : Prop :=
  forall p', (p' < p)%nat -> w !! p' = Some floor.

(** The sum of the syndrome bits over the rows of one column. *)
Definition column_sum_from (s : list Z) (col : list nat) (a : Z) : Z :=
  fold_left (fun a i => a + default 0 (s !! i)) col a.
Definition column_sum (s : list Z) (col : list nat) : Z :=
  column_sum_from s col 0.

(** [gamma / 2] of the code: [int gamma = H.N[0].size();], the weight of
    column 0. *)
Definition gamma_half (H : CtrlMat) : Z :=
  Z.of_nat (length (default [] (CtrlMat.N H !! 0%nat))) / 2.

(** The one-step correction as a function of the received word: hard
    decision, syndrome, and a flip of [out[j]] iff the sum of the syndrome
    bits over [N[j]] exceeds [gamma / 2], where [gamma] is what the code takes
    it to be, [H.N[0].size()]: the number of checks on bit 0. *)
Definition one_step_rule (H : CtrlMat) (inp : list double) : list Z :=
  let out := map hard inp in
  let s := map (parity out) (CtrlMat.K H) in
  imap (fun j o =>
          if gamma_half H <? column_sum s (default [] (CtrlMat.N H !! j))
          then Z.lxor o 1 else o)
       out.

(** [gamma] as the code takes it, [H.N[0].size()]: the weight of column 0. *)
Definition column_gamma (H : CtrlMat) : Z :=
  Z.of_nat (length (default [] (CtrlMat.N H !! 0%nat))).

(** [gamma] in the words of the specification: the row weight, the size of
    [K[0]]. *)
Definition row_gamma (H : CtrlMat) : Z :=
  Z.of_nat (length (default [] (CtrlMat.K H !! 0%nat))).

(** The threshold in the words of the specification. *)
Definition row_gamma_half (H : CtrlMat) : Z := row_gamma H / 2.

(** The one-step correction in the words of the specification: as
    [one_step_rule], with the threshold [row_gamma_half]. *)
Definition one_step_claimed (H : CtrlMat) (inp : list double) : list Z :=
  let out := map hard inp in
  let s := map (parity out) (CtrlMat.K H) in
  imap (fun j o =>
          if row_gamma_half H <? column_sum s (default [] (CtrlMat.N H !! j))
          then Z.lxor o 1 else o)
       out.

(** The correction of column [j]. *)
Definition corrected (H : CtrlMat) (gh : Z) (s : list Z) (j : nat) (o : Z) : Z :=
  if gh <? column_sum s (default [] (CtrlMat.N H !! j)) then Z.lxor o 1 else o.

(** The per-edge weight in the words of the specification: the minimum of
    [|r[j']|] over the columns [j'] of row [i] other than [j]. *)
Definition spec_adaptive_weight (H : CtrlMat) (r : list double) (i j : nat)
    : double :=
  fold_left
    (fun m jp => if (jp =? j)%nat then m
                 else std_min m (dabs (default (of_Z 0) (r !! jp))))
    (default [] (CtrlMat.K H !! i)) (of_Z INT_MAX).

(** The decision metric in the words of the specification, with those
    weights. *)
Definition spec_adaptive_metric (H : CtrlMat) (r : list double) (s out : list Z)
    (j : nat) : double :=
  fold_left
    (fun a i =>
       let sign := 2 * Z.lxor (default 0 (s !! i)) (bit_at out j) - 1 in
       (a + of_Z sign * spec_adaptive_weight H r i j)%Qc)
    (default [] (CtrlMat.N H !! j)) (of_Z 0).

(** A computation can only fail with [OutOfRange]. *)
Definition only_range_errors {A : Type} (m : result A) : Prop :=
  forall e, m = Err e -> e = OutOfRange.




(** What the loop that fills [to_flip] has collected after [m] columns. *)
Definition selected {E : Type} {arith_E : Arith E} (weighted : bool)
    (e : list E) (T_max : E) (m : nat) (fl : list nat) : Prop :=
  NoDup fl
  /\ (m <= length e)%nat
  /\ forall j, j ∈ fl <->
       (j < m)%nat /\ exists ej, e !! j = Some ej
                                 /\ bf_flips weighted ej T_max = true.

(** The states of [iterative_mlg_decode] after the initialisation and after
    the update of every iteration that does not return. *)
Inductive mlg_reachable {R : Type} {arith_R : Arith R} (H : CtrlMat)
    (alpha : double) (inp : list double) (soft adaptive : bool)
    (out : list Z) (gamma : Z) : mlg_state R -> Prop :=
| reach_init (st : mlg_state R) :
    mlg_init H inp soft adaptive out = Ok (gamma, st) ->
    mlg_reachable H alpha inp soft adaptive out gamma st
| reach_update (st st' : mlg_state R) :
    mlg_reachable H alpha inp soft adaptive out gamma st ->
    mlg_iteration H alpha soft adaptive gamma st = Ok (false, st') ->
    mlg_reachable H alpha inp soft adaptive out gamma st'.










(** [out'] has the length of [out], holds bits in its first [n] entries and
    agrees with [out] beyond them. *)
Definition shaped (n : nat) (out out' : list Z) : Prop :=
  length out' = length out
  /\ bits n out'
  /\ forall j, (n <= j)%nat -> out' !! j = out !! j.

(** The size of the weight vector [w] of [bf_decode]. *)
Definition bf_w_size (H : CtrlMat) (weighted improved : bool) : nat :=
  if improved then (CtrlMat.k H * CtrlMat.n H)%nat
  else if weighted then CtrlMat.k H else 0%nat.

(** The local vectors of [bf_decode] have the sizes they were created
    with, and [out] has at least [n] entries. *)
Definition bf_sized {E : Type} (H : CtrlMat) (weighted improved : bool)
    (st : bf_state E) : Prop :=
  length (bf_s st) = CtrlMat.k H
  /\ length (bf_e st) = CtrlMat.n H
  /\ length (bf_w st) = bf_w_size H weighted improved
  /\ (CtrlMat.n H <= length (bf_out st))%nat.

(** The flags pass the two assertions of [bf_decode]. *)
Definition bf_flags_ok (weighted modified improved : bool) : Prop :=
  negb modified || weighted = true
  /\ negb improved || (modified && weighted) = true.

Definition is_bit_flipping (d : decoder) : bool :=
  match d with
  | BF | WBF | MWBF | IMWBF => true
  | _ => false
  end.

(** The budget and shape conditions under which a decoder reaches its first
    syndrome test: the iterative decoders other than min-sum need one
    iteration, the MLG decoders a square matrix. *)
Definition reaches_first_test (d : decoder) (H : CtrlMat) (max_iter : Z) : Prop :=
  (is_min_sum d = false -> d <> OneStepMLG -> 1 <= max_iter)
  /\ (is_iterative_mlg d = true \/ d = OneStepMLG -> CtrlMat.k H = CtrlMat.n H)
  /\ (0 < CtrlMat.n H)%nat.



(** What lets the syndrome vector [s] of size [n] serve the MLG decoders: a
    first column, at least [n] rows, and no column that names a row beyond
    [n]. *)
Definition mlg_fits (H : CtrlMat) : Prop :=
  (0 < CtrlMat.n H)%nat
  /\ (CtrlMat.n H <= CtrlMat.k H)%nat
  /\ Forall (Forall (fun i => (i < CtrlMat.n H)%nat)) (CtrlMat.N H).

(** The sizes [iterative_mlg_decode] gives to its local vectors. *)
Definition mlg_sized {R : Type} (H : CtrlMat) (st : mlg_state R) : Prop :=
  length (mlg_r st) = CtrlMat.n H
  /\ length (mlg_s st) = CtrlMat.n H
  /\ length (mlg_e st) = CtrlMat.n H
  /\ length (mlg_w st) = (CtrlMat.k H * CtrlMat.n H)%nat
  /\ (CtrlMat.n H <= length (mlg_out st))%nat.

(** The decoders built on the MLG syndrome loop. *)
Definition is_majority_logic (d : decoder) : bool :=
  match d with
  | OneStepMLG | HardMLG | SoftMLG | AdaptiveSoftMLG => true
  | _ => false
  end.

(** A vector of magnitudes. *)
Definition nonneg (v : list double) : Prop :=
  Forall (fun x => (of_Z 0 <= x)%Qc) v.

(** The running minimum of [|in[j]|] over a row, started at [a]. *)
Definition row_min (inp : list double) (row : list nat) (a : double) : double :=
  fold_left (fun a j => std_min a (dabs (default (of_Z 0) (inp !! j)))) row a.

(** The character of a binary digit. *)
Definition digit_char (b : bool) : ascii := if b then "1"%char else "0"%char.

(** The string of a list of binary digits. *)
Fixpoint digits_string (ds : list bool) : string :=
  match ds with
  | [] => EmptyString
  | b :: ds' => String (digit_char b) (digits_string ds')
  end.

(** [int(s, 2)], continued from the value [v] of the digits already read. *)
Fixpoint bin_value_from (s : string) (v : Z) : Z :=
  match s with
  | EmptyString => v
  | String c s' =>
      bin_value_from s' (2 * v + (if bool_decide (c = "1"%char) then 1 else 0))
  end.

Definition bin_value (s : string) : Z := bin_value_from s 0.




(** The votes of the rows of one column: a row whose syndrome bit differs
    from [oj] counts [+1], the others [-1], each times its weight (1 unless
    [adaptive]); added to [a]. *)
Definition mlg_vote_from (H : CtrlMat) (adaptive : bool) (s w : list Z)
    (oj : Z) (j : nat) (col : list nat) (a : Z) : Z :=
  fold_left
    (fun a i =>
       a + (2 * Z.lxor (default 0 (s !! i)) oj - 1)
           * (if adaptive then default 0 (w !! (i * CtrlMat.n H + j)%nat)
              else 1))
    col a.

Definition mlg_vote (H : CtrlMat) (adaptive : bool) (s w : list Z)
    (oj : Z) (j : nat) (col : list nat) : Z :=
  mlg_vote_from H adaptive s w oj j col 0.

(** [m] is below the magnitude of every column of [row] other than [j]. *)
Definition edge_low (inp : list double) (j : nat) (row : list nat)
    (m : double) : Prop :=
  forall jp, jp ∈ row -> jp <> j ->
    exists x, inp !! jp = Some x /\ (m <= dabs x)%Qc.

(** Every cell of [w] is the cell of [w0] or the magnitude of a column, other
    than [j], of the row [i] the cell [(i, j)] belongs to, and is not above
    the cell of [w0]. *)
Definition edge_cells (H : CtrlMat) (inp : list double) (w0 w : list double)
    : Prop :=
  forall c a, w0 !! c = Some a ->
    exists m, w !! c = Some m /\ (m <= a)%Qc
      /\ (m = a
          \/ exists i j Ki jp x,
               c = (i * CtrlMat.n H + j)%nat /\ (j < CtrlMat.n H)%nat
               /\ CtrlMat.K H !! i = Some Ki /\ jp ∈ Ki /\ jp <> j
               /\ inp !! jp = Some x /\ m = dabs x).

(** The cell [(i, j)] has been minimised over row [i]. *)
Definition edge_done (H : CtrlMat) (inp : list double) (w0 w : list double)
    (i j : nat) : Prop :=
  forall Ki a, CtrlMat.K H !! i = Some Ki ->
    w0 !! (i * CtrlMat.n H + j)%nat = Some a ->
    exists m, w !! (i * CtrlMat.n H + j)%nat = Some m /\ edge_low inp j Ki m.




(** What the loop that fills [to_flip] has collected after [m] columns, in
    [Fp.bf_decode]. *)
Definition fp_selected {F : Type} {float_F : Fp.Float F} (weighted : bool)
    (e : list F) (T_max : F) (m : nat) (fl : list nat) : Prop :=
  NoDup fl
  /\ (m <= length e)%nat
  /\ forall j, j ∈ fl <->
       (j < m)%nat /\ exists ej, e !! j = Some ej
                                 /\ Fp.bf_flips weighted ej T_max = true.

(** [std::isfinite] and [std::isnan]. *)
Definition is_finite (a : Fp.xdouble) : bool :=
  match a with
  | Fp.Finite _ => true
  | _ => false
  end.

Definition is_nan (a : Fp.xdouble) : bool :=
  match a with
  | Fp.NaN => true
  | _ => false
  end.

(** A register of the adaptive decoder that is a number between [-b] and
    [b]. *)
Definition x_in_bounds (b : Z) (x : Fp.xdouble) : Prop :=
  match x with
  | Fp.Finite q => (- of_Z b <= q <= of_Z b)%Qc
  | _ => False
  end.

(** The states of [Fp.iterative_mlg_decode] after the initialisation and
    after the update of every iteration that does not return. *)
Inductive fp_mlg_reachable {F R : Type} {float_F : Fp.Float F}
    {register_R : Fp.Register F R} (H : CtrlMat)
    (alpha : F) (inp : list F) (soft adaptive : bool)
    (out : list Z) (gamma : Z) : mlg_state R -> Prop :=
| fp_reach_init (st : mlg_state R) :
    Fp.mlg_init H inp soft adaptive out = Ok (gamma, st) ->
    fp_mlg_reachable H alpha inp soft adaptive out gamma st
| fp_reach_update (st st' : mlg_state R) :
    fp_mlg_reachable H alpha inp soft adaptive out gamma st ->
    Fp.mlg_iteration H alpha soft adaptive gamma st = Ok (false, st') ->
    fp_mlg_reachable H alpha inp soft adaptive out gamma st'.

(** The state of SoftMLG after its initialisation on the triangle matrix,
    for the received word (1, -0.875, 1). *)
Definition soft_example_start : mlg_state Z :=
  MlgState [3; -3; 3] [0; 0; 0] [0; 0; 0] (replicate 9 INT_MAX) [0; 1; 0].

(** ** Matrices and received words used as examples *)

(** The (3,3) matrix with rows {0,1}, {1,2}, {0,2}. *)
Definition H_triangle : CtrlMat :=
  CtrlMat.Make 3 3 [[0; 1]; [1; 2]; [0; 2]]%nat [[0; 2]; [0; 1]; [1; 2]]%nat.

(** The (2,2) matrix whose two rows both check columns 0 and 1. *)
Definition H_double_check : CtrlMat :=
  CtrlMat.Make 2 2 [[0; 1]; [0; 1]]%nat [[0; 1]; [0; 1]]%nat.

Definition sample (a b : Z) : double := Q2Qc (a # Z.to_pos b).

(** A (4,4) matrix whose rows have weight 2 and whose column 0 has weight 4:
    rows {0,1}, {0,1}, {0,2}, {0,3}. *)
Definition H_star : CtrlMat :=
  CtrlMat.Make 4 4 [[0; 1]; [0; 1]; [0; 2]; [0; 3]]%nat
                   [[0; 1; 2; 3]; [0; 1]; [2]; [3]]%nat.

(** A matrix with two rows and three columns. *)
Definition H_2x3 : CtrlMat :=
  CtrlMat.Make 3 2 [[0; 1]; [1; 2]]%nat [[0]; [0; 1]; [1]]%nat.

(** A matrix with four rows and two columns. *)
Definition H_4x2 : CtrlMat :=
  CtrlMat.Make 2 4 [[0]; [0]; [1]; [1]]%nat [[0; 1]; [2; 3]]%nat.

(** The state of WBF before and after its first iteration, for the received
    word (1, -0.9, 1) on the triangle matrix. *)
Definition wbf_example_start : bf_state double :=
  BfState (replicate 3 DBL_MAX) [0; 0; 0] (replicate 3 (of_Z 0)) [0; 1; 0].

Definition wbf_example_next : bf_state double :=
  match bf_iteration H_triangle (of_Z 0)
          [sample 1 1; sample (-9) 10; sample 1 1] true false false 0
          wbf_example_start with
  | Ok (_, st') => st'
  | Err _ => wbf_example_start
  end.

(** The state of the adaptive decoder after its initialisation and after its
    first iteration, for the received word (1, -0.9, 1) on the triangle
    matrix and [alpha = 0.5]. *)
Definition adaptive_example_start : mlg_state double :=
  match mlg_init H_triangle [sample 1 1; sample (-9) 10; sample 1 1]
                 true true [0; 0; 0] with
  | Ok (_, st) => st
  | Err _ => MlgState [] [] [] [] []
  end.

Definition adaptive_example_next : mlg_state double :=
  match mlg_iteration H_triangle (sample 1 2) true true 2
                      adaptive_example_start with
  | Ok (_, st') => st'
  | Err _ => adaptive_example_start
  end.




(** The state of WBF after its second iteration on the same word. *)
Definition wbf_example_last : bf_state double :=
  match bf_iteration H_triangle (of_Z 0)
          [sample 1 1; sample (-9) 10; sample 1 1] true false false 1
          wbf_example_next with
  | Ok (_, st') => st'
  | Err _ => wbf_example_next
  end.

(** The state of IMWBF before and after its first iteration, for the
    received word (1, -0.9, 1) on the triangle matrix and [alpha = 0.5]. *)
Definition imwbf_example_start : bf_state double :=
  BfState (replicate 9 DBL_MAX) [0; 0; 0] (replicate 3 (of_Z 0)) [0; 1; 0].

Definition imwbf_example_next : bf_state double :=
  match bf_iteration H_triangle (sample 1 2)
          [sample 1 1; sample (-9) 10; sample 1 1] true true true 0
          imwbf_example_start with
  | Ok (_, st') => st'
  | Err _ => imwbf_example_start
  end.

(** IMWBF with [alpha = 0] on the matrix with four rows and two columns, for
    the received word (1, -1): the state before and after the first
    iteration. *)
Definition fp_example_word : list Fp.xdouble :=
  [Fp.Finite (sample 1 1); Fp.Finite (sample (-1) 1)].

Definition fp_example_start : Fp.bf_state Fp.xdouble :=
  match Fp.bf_init H_4x2 fp_example_word true true true [0; 0] with
  | Ok st => st
  | Err _ => Fp.BfState [] [] [] []
  end.

Definition fp_example_next : Fp.bf_state Fp.xdouble :=
  match Fp.bf_iteration H_4x2 (Fp.f_of_int 0) fp_example_word true true true 0
          fp_example_start with
  | Ok (_, st') => st'
  | Err _ => fp_example_start
  end.

(** WBF on the triangle matrix, for the received word (1, -0.875, 1): the
    state before and after the first iteration.  The samples and every value
    computed from them are values of binary64. *)
Definition fp_example_triangle_word : list Fp.xdouble :=
  [Fp.Finite (sample 1 1); Fp.Finite (sample (-7) 8); Fp.Finite (sample 1 1)].

Definition fp_example_triangle_start : Fp.bf_state Fp.xdouble :=
  match Fp.bf_init H_triangle fp_example_triangle_word true false false
          [0; 0; 0] with
  | Ok st => st
  | Err _ => Fp.BfState [] [] [] []
  end.

Definition fp_example_triangle_next : Fp.bf_state Fp.xdouble :=
  match Fp.bf_iteration H_triangle (Fp.f_of_int 0) fp_example_triangle_word
          true false false 0 fp_example_triangle_start with
  | Ok (_, st') => st'
  | Err _ => fp_example_triangle_start
  end.

(** The state of HardMLG after its initialisation on [H_star], for the
    received word (1, -1, 1, 1). *)
Definition hard_example_word : list Fp.xdouble :=
  [Fp.Finite (sample 1 1); Fp.Finite (sample (-1) 1); Fp.Finite (sample 1 1);
   Fp.Finite (sample 1 1)].

Definition hard_example_start : mlg_state Z :=
  MlgState [4; -4; 4; 4] [0; 0; 0; 0] [0; 0; 0; 0] (replicate 16 INT_MAX)
           [0; 1; 0; 0].

(** The state of the adaptive decoder after its initialisation on the
    triangle matrix, for a received word whose first sample is NaN. *)
Definition fp_example_nan_start : mlg_state Fp.xdouble :=
  match Fp.mlg_init H_triangle
          [Fp.NaN; Fp.Finite (sample 1 1); Fp.Finite (sample 1 1)]
          true true [0; 0; 0] with
  | Ok (_, st) => st
  | Err _ => MlgState [] [] [] [] []
  end.

(** The state of the adaptive decoder after its initialisation and after its
    first iteration, for the received word (1, -0.875, 1) on the triangle
    matrix and [alpha = 0.5]. *)
Definition fp_example_adaptive_start : mlg_state Fp.xdouble :=
  match Fp.mlg_init H_triangle fp_example_triangle_word true true
          [0; 0; 0] with
  | Ok (_, st) => st
  | Err _ => MlgState [] [] [] [] []
  end.

Definition fp_example_adaptive_next : mlg_state Fp.xdouble :=
  match Fp.mlg_iteration H_triangle (Fp.Finite (sample 1 2)) true true 2
          fp_example_adaptive_start with
  | Ok (_, st') => st'
  | Err _ => fp_example_adaptive_start
  end.

(** * Proofs *)

(** ** Reasoning about results *)

Lemma bind_Ok {A B : Type} (m : result A) (f : A -> result B) (b : B) :
  bind m f = Ok b <-> exists a, m = Ok a /\ f a = Ok b.
Proof.
  destruct m as [a|e]; simpl.
  - split; [eauto | intros (a' & [= <-] & Hf); exact Hf].
  - split; [discriminate | intros (a' & [=] & _)].
Qed.

Lemma vget_Ok {A : Type} (v : list A) (i : nat) (a : A) :
  vget v i = Ok a <-> v !! i = Some a.
Proof. unfold vget. destruct (v !! i); split; congruence. Qed.

Lemma vset_Ok {A : Type} (v v' : list A) (i : nat) (a : A) :
  vset v i a = Ok v' <-> (i < length v)%nat /\ v' = <[i := a]> v.
Proof.
  unfold vset. case_decide; split.
  - intros [= <-]. auto.
  - intros [_ ->]. reflexivity.
  - discriminate.
  - intros [? _]. lia.
Qed.

Lemma vget_lt {A : Type} (v : list A) (i : nat) :
  (i < length v)%nat -> exists a, vget v i = Ok a /\ v !! i = Some a.
Proof.
  intros Hi. destruct (lookup_lt_is_Some_2 v i Hi) as [a Ha].
  exists a. split; [by apply vget_Ok | done].
Qed.

Lemma vset_lt {A : Type} (v : list A) (i : nat) (a : A) :
  (i < length v)%nat -> vset v i a = Ok (<[i := a]> v).
Proof. intros Hi. unfold vset. by rewrite decide_True. Qed.

(** Splits a hypothesis [let* x := m in f = Ok r] into its steps. *)
Ltac inv_ok :=
  repeat match goal with
  | Hb : bind _ _ = Ok _ |- _ =>
      let a := fresh "a" in
      let Hm := fresh "Hm" in
      apply bind_Ok in Hb as (a & Hm & Hb)
  | Hb : Ok _ = Ok _ |- _ => injection Hb as Hb
  | Hb : Err _ = Ok _ |- _ => discriminate Hb
  | Hb : vget _ _ = Ok _ |- _ => apply vget_Ok in Hb
  | Hb : vset _ _ _ = Ok _ |- _ =>
      let Hl := fresh "Hlen" in apply vset_Ok in Hb as (Hl & Hb)
  end.

Lemma foldM_app {S A : Type} (body : S -> A -> result S) (l1 l2 : list A) (s : S) :
  foldM body (l1 ++ l2) s = bind (foldM body l1 s) (foldM body l2).
Proof.
  revert s. induction l1 as [|x l1 IH]; intros s; simpl; [done|].
  destruct (body s x); simpl; auto.
Qed.

Lemma for_range_S {S : Type} (n : nat) (body : S -> nat -> result S) (s : S) :
  for_range (Datatypes.S n) body s
  = bind (for_range n body s) (fun s' => body s' n).
Proof.
  unfold for_range. rewrite seq_S, foldM_app. simpl.
  destruct (foldM body (seq 0 n) s) as [s'|e]; simpl; [|done].
  by destruct (body s' n).
Qed.

(** A loop over a list keeps an invariant that its body keeps. *)
Lemma foldM_invariant {S A : Type} (P : S -> Prop) (body : S -> A -> result S)
    (l : list A) (s s' : S) :
  (forall x t t', x ∈ l -> P t -> body t x = Ok t' -> P t') ->
  P s -> foldM body l s = Ok s' -> P s'.
Proof.
  revert s. induction l as [|x l IH]; intros s Hbody Hs Hrun; simpl in Hrun.
  - by injection Hrun as <-.
  - destruct (body s x) as [t|e] eqn:Hx; [|done].
    apply (IH t); [|eapply Hbody; eauto; by left|done].
    intros y u u' Hy. apply Hbody. by right.
Qed.

(** A counted loop keeps an invariant indexed by the number of rounds. *)
Lemma for_range_invariant {S : Type} (P : nat -> S -> Prop)
    (body : S -> nat -> result S) (n : nat) (s s' : S) :
  (forall i t t', (i < n)%nat -> P i t -> body t i = Ok t' -> P (Datatypes.S i) t') ->
  P 0%nat s -> for_range n body s = Ok s' -> P n s'.
Proof.
  revert s'. induction n as [|n IH]; intros s' Hbody Hs Hrun.
  - by injection Hrun as <-.
  - rewrite for_range_S in Hrun. apply bind_Ok in Hrun as (t & Ht & Hrun).
    apply (Hbody n t); [lia| |done].
    apply IH; [|done|done]. intros i u u' Hi. apply Hbody. lia.
Qed.

(** Two loops with bodies that agree on the elements agree. *)
Lemma foldM_ext {S A : Type} (f g : S -> A -> result S) (l : list A) (s : S) :
  (forall x t, x ∈ l -> f t x = g t x) -> foldM f l s = foldM g l s.
Proof.
  revert s. induction l as [|x l IH]; intros s Hfg; simpl; [done|].
  rewrite <- (Hfg x s) by (by left).
  destruct (f s x); [|done]. apply IH. intros y t Hy. apply Hfg. by right.
Qed.

Lemma for_range_ext {S : Type} (f g : S -> nat -> result S) (n : nat) (s : S) :
  (forall i t, (i < n)%nat -> f t i = g t i) -> for_range n f s = for_range n g s.
Proof.
  intros Hfg. apply foldM_ext. intros i t Hi. apply Hfg.
  apply elem_of_seq in Hi. lia.
Qed.

(** ** The hard decision *)

Lemma hard_bit_unfold (inp : list double) (out : list Z) (j : nat) :
  hard_bit inp out j = bind (vget inp j) (fun x => vset out j (hard x)).
Proof. reflexivity. Qed.

(** The hard-decision loop overwrites the first [n] entries of [out], and
    fails exactly when [inp] or [out] is shorter than [n]. *)
Lemma hard_loop_eq (inp : list double) (out : list Z) (n : nat) :
  for_range n (hard_bit inp) out
  = if decide (n <= length inp /\ n <= length out)%nat
    then Ok (map hard (take n inp) ++ drop n out)
    else Err OutOfRange.
Proof.
  induction n as [|n IH].
  - rewrite decide_True by lia. by rewrite take_0, drop_0.
  - rewrite for_range_S, IH. clear IH.
    destruct (decide (n <= length inp /\ n <= length out)%nat) as [[Hi Ho]|Hn];
      simpl; [|by rewrite decide_False by lia].
    rewrite hard_bit_unfold.
    destruct (decide (n < length inp)%nat) as [Hi'|Hi'].
    + destruct (vget_lt inp n Hi') as (x & -> & Hx). simpl.
      assert (Hlen : length (map hard (take n inp)) = n)
        by (rewrite length_map, length_take; lia).
      destruct (decide (n < length out)%nat) as [Ho'|Ho'].
      * rewrite decide_True by lia.
        rewrite vset_lt by (rewrite length_app, Hlen, length_drop; lia).
        f_equal.
        destruct (lookup_lt_is_Some_2 out n Ho') as [o Hout].
        rewrite (take_S_r _ _ _ Hx), map_app, <- app_assoc. simpl.
        rewrite (drop_S _ _ _ Hout).
        rewrite insert_app_r_alt by lia. rewrite Hlen, Nat.sub_diag. done.
      * rewrite decide_False by lia. unfold vset.
        rewrite decide_False; [done|].
        rewrite length_app, Hlen, length_drop. lia.
    + rewrite decide_False by lia. unfold vget.
      by rewrite lookup_ge_None_2 by lia.
Qed.

Lemma hard_loop_full (inp : list double) (out : list Z) (n : nat) :
  length inp = n -> length out = n ->
  for_range n (hard_bit inp) out = Ok (map hard inp).
Proof.
  intros Hi Ho. rewrite hard_loop_eq, decide_True by lia.
  rewrite <- Hi at 1. rewrite firstn_all.
  rewrite drop_ge by lia. by rewrite app_nil_r.
Qed.

(** ** Bits *)

Lemma hard_is_bit (x : double) : hard x = 0 \/ hard x = 1.
Proof. unfold hard. destruct (dlt x (of_Z 0)); auto. Qed.

Lemma bits_hard_loop (inp : list double) (out out' : list Z) (n : nat) :
  for_range n (hard_bit inp) out = Ok out' -> bits n out'.
Proof.
  rewrite hard_loop_eq. case_decide as Hn; [|done]. intros [= <-] j Hj.
  destruct Hn as [Hi Ho].
  rewrite lookup_app_l by (rewrite length_map, length_take; lia).
  rewrite list_lookup_fmap, lookup_take_lt by lia.
  destruct (lookup_lt_is_Some_2 inp j ltac:(lia)) as [x ->]. simpl.
  destruct (hard_is_bit x) as [-> | ->]; auto.
Qed.

Lemma bits_insert (n : nat) (out : list Z) (j : nat) (b : Z) :
  bits n out -> b = 0 \/ b = 1 -> bits n (<[j := b]> out).
Proof.
  intros Hb Hbit i Hi. destruct (decide (i = j)) as [->|Hne].
  - destruct (Hb j Hi) as [Ho | Ho];
      rewrite list_lookup_insert_eq by (eapply lookup_lt_Some; eauto);
      destruct Hbit as [-> | ->]; auto.
  - rewrite list_lookup_insert_ne by done. auto.
Qed.

Lemma lxor_bit (a b : Z) :
  a = 0 \/ a = 1 -> b = 0 \/ b = 1 -> Z.lxor a b = 0 \/ Z.lxor a b = 1.
Proof. intros [-> | ->] [-> | ->]; auto. Qed.

Lemma bits_flip (n : nat) (out out' : list Z) (j : nat) :
  bits n out -> flip out j = Ok out' -> bits n out'.
Proof.
  intros Hb Hf. unfold flip in Hf. inv_ok. subst out'.
  destruct (decide (j < n)%nat) as [Hj|Hj].
  - apply bits_insert; [done|]. apply lxor_bit; [|auto].
    destruct (Hb j Hj); simplify_eq; auto.
  - intros i Hi. rewrite list_lookup_insert_ne by lia. auto.
Qed.

Lemma bits_flips (n : nat) (out out' : list Z) (l : list nat) :
  bits n out -> foldM flip l out = Ok out' -> bits n out'.
Proof.
  intros Hb. apply foldM_invariant; [|done].
  intros j t t' _. apply bits_flip.
Qed.

(** ** Parity of a row *)

Lemma parity_from_bit (n : nat) (out : list Z) (row : list nat) (a : Z) :
  bits n out -> Forall (fun j => (j < n)%nat) row -> a = 0 \/ a = 1 ->
  parity_from out row a = 0 \/ parity_from out row a = 1.
Proof.
  intros Hb Hrow. revert a. induction Hrow as [|j row Hj _ IH]; intros a Ha.
  - exact Ha.
  - simpl. apply IH. apply lxor_bit; [done|].
    unfold bit_at. destruct (Hb j Hj) as [-> | ->]; auto.
Qed.

(** The accumulating loop of [hard_decide]. *)
Lemma hard_decide_row_eq (out : list Z) (row : list nat) (a : Z) :
  foldM (hard_decide_step out) row a
  = if decide (Forall (fun j => (j < length out)%nat) row)
    then Ok (parity_from out row a) else Err OutOfRange.
Proof.
  revert a. induction row as [|j row IH]; intros a; cbn [foldM].
  - by rewrite decide_True.
  - unfold hard_decide_step at 1. unfold vget.
    destruct (out !! j) as [o|] eqn:Hj; cbn [bind].
    + rewrite IH. apply lookup_lt_Some in Hj as Hlt.
      destruct (decide (Forall (fun j => (j < length out)%nat) row)) as [Hr|Hr].
      * rewrite decide_True by (by constructor).
        unfold parity_from, bit_at. cbn [fold_left]. by rewrite Hj.
      * rewrite decide_False; [done|]. by intros [_ Hc]%Forall_cons_1.
    + apply lookup_ge_None in Hj.
      rewrite decide_False; [done|]. intros [Hc _]%Forall_cons_1. lia.
Qed.

(** The loop of the MLG decoders, which accumulates in [s[i]]. *)
Lemma mlg_row_eq (out s : list Z) (i : nat) (row : list nat) (si : Z) :
  s !! i = Some si ->
  foldM (mlg_row_step i out) row s
  = if decide (Forall (fun j => (j < length out)%nat) row)
    then Ok (<[i := parity_from out row si]> s) else Err OutOfRange.
Proof.
  revert s si. induction row as [|j row IH]; intros s si Hsi; cbn [foldM].
  - rewrite decide_True by done. by rewrite list_insert_id.
  - unfold mlg_row_step at 1. unfold vget. rewrite Hsi. cbn [bind].
    apply lookup_lt_Some in Hsi as Hi.
    destruct (out !! j) as [o|] eqn:Hj; cbn [bind].
    + rewrite vset_lt by done. apply lookup_lt_Some in Hj as Hlt.
      rewrite (IH _ (Z.lxor si o)) by (by apply list_lookup_insert_eq).
      rewrite list_insert_insert_eq.
      destruct (decide (Forall (fun j => (j < length out)%nat) row)) as [Hr|Hr].
      * rewrite decide_True by (by constructor).
        unfold parity_from, bit_at. cbn [fold_left]. by rewrite Hj.
      * rewrite decide_False; [done|]. by intros [_ Hc]%Forall_cons_1.
    + apply lookup_ge_None in Hj.
      rewrite decide_False; [done|]. intros [Hc _]%Forall_cons_1. lia.
Qed.

Lemma parity_eq (out : list Z) (row : list nat) :
  parity out row = parity_from out row 0.
Proof. reflexivity. Qed.

Lemma parity_bit (n : nat) (out : list Z) (row : list nat) :
  bits n out -> Forall (fun j => (j < n)%nat) row ->
  parity out row = 0 \/ parity out row = 1.
Proof. intros Hb Hrow. rewrite parity_eq. eapply parity_from_bit; eauto. Qed.

(** A row whose indices are below [n] lies within a vector that has [n]
    bits. *)
Lemma bits_length (n : nat) (out : list Z) : bits n out -> (n <= length out)%nat.
Proof.
  intros Hb. destruct n as [|n]; [lia|].
  destruct (Hb n ltac:(lia)) as [Ho | Ho]; apply lookup_lt_Some in Ho; lia.
Qed.

Lemma row_in_range (n : nat) (out : list Z) (row : list nat) :
  bits n out -> Forall (fun j => (j < n)%nat) row ->
  Forall (fun j => (j < length out)%nat) row.
Proof.
  intros Hb%bits_length. apply Forall_impl. intros j Hj. lia.
Qed.

(** *** [hard_decide] *)

Lemma hard_decide_rows_true (out : list Z) (H : CtrlMat) (rows : list nat) :
  hard_decide_rows out H rows = Ok true ->
  forall i, i ∈ rows ->
    exists Ki, CtrlMat.K H !! i = Some Ki /\ parity out Ki <> 1.
Proof.
  induction rows as [|i rows IH]; intros Hrun i' Hi'.
  - by apply elem_of_nil in Hi'.
  - cbn [hard_decide_rows] in Hrun.
    apply bind_Ok in Hrun as (Ki & HKi%vget_Ok & Hrun).
    apply bind_Ok in Hrun as (s & Hs & Hrun).
    rewrite hard_decide_row_eq in Hs. case_decide; [|done].
    injection Hs as <-. rewrite <- parity_eq in Hrun.
    destruct (parity out Ki =? 1) eqn:Hp; [done|].
    apply Z.eqb_neq in Hp.
    apply elem_of_cons in Hi' as [-> | Hi']; eauto.
Qed.

(** On a vector of bits, [hard_decide] is total and decides [is_codeword]. *)
Lemma hard_decide_rows_eq (out : list Z) (H : CtrlMat) (n : nat)
    (rows : list (list nat)) (a : nat) :
  bits n out ->
  Forall (Forall (fun j => (j < n)%nat)) rows ->
  drop a (CtrlMat.K H) = rows ->
  hard_decide_rows out H (seq a (length rows))
  = Ok (forallb (fun row => parity out row =? 0) rows).
Proof.
  intros Hb Hrows. revert a.
  induction Hrows as [|Ki rows HKi Hrows IH]; intros a Hdrop; [done|].
  cbn [length seq hard_decide_rows forallb].
  assert (HK : CtrlMat.K H !! a = Some Ki).
  { rewrite <- (Nat.add_0_r a), <- lookup_drop, Hdrop. done. }
  unfold vget at 1. rewrite HK. cbn [bind].
  rewrite hard_decide_row_eq, decide_True by (eapply row_in_range; eauto).
  cbn [bind]. rewrite <- parity_eq.
  rewrite (IH (S a)).
  - destruct (parity_bit n out Ki Hb HKi) as [-> | ->]; done.
  - rewrite <- (Nat.add_1_r a), <- drop_drop, Hdrop. done.
Qed.

Lemma hard_decide_eq (out : list Z) (H : CtrlMat) :
  well_formed H -> bits (CtrlMat.n H) out ->
  hard_decide out H = Ok (is_codeword H out).
Proof.
  intros [Hk _ HK _] Hb. unfold hard_decide, is_codeword.
  rewrite <- Hk. by apply (hard_decide_rows_eq out H (CtrlMat.n H) _ 0%nat).
Qed.

(** When [hard_decide] answers [true], every one of the [k] parity checks
    holds. *)
Lemma hard_decide_sound (out : list Z) (H : CtrlMat) :
  Forall (Forall (fun j => (j < CtrlMat.n H)%nat)) (CtrlMat.K H) ->
  bits (CtrlMat.n H) out ->
  hard_decide out H = Ok true ->
  forall i Ki, (i < CtrlMat.k H)%nat -> CtrlMat.K H !! i = Some Ki ->
    parity out Ki = 0.
Proof.
  intros HK Hb Hrun i Ki Hi HKi.
  destruct (hard_decide_rows_true _ _ _ Hrun i) as (Ki' & HKi' & Hp).
  { apply elem_of_seq. lia. }
  simplify_eq.
  destruct (parity_bit (CtrlMat.n H) out Ki Hb); [|done|done].
  eapply Forall_lookup_1 in HK; eauto.
Qed.

(** *** The syndrome loop of the MLG decoders *)

Lemma mlg_syndrome_Ok (H : CtrlMat) (out s s' : list Z) (cw cw' : bool) (i : nat) :
  mlg_syndrome H out (s, cw) i = Ok (s', cw') <->
  exists Ki, (i < length s)%nat /\ CtrlMat.K H !! i = Some Ki
    /\ Forall (fun j => (j < length out)%nat) Ki
    /\ s' = <[i := parity out Ki]> s
    /\ cw' = (if parity out Ki =? 1 then false else cw).
Proof.
  unfold mlg_syndrome. split.
  - intros Hrun.
    apply bind_Ok in Hrun as (s0 & (Hi & ->)%vset_Ok & Hrun).
    apply bind_Ok in Hrun as (Ki & HKi%vget_Ok & Hrun).
    apply bind_Ok in Hrun as (s1 & Hs1 & Hrun).
    rewrite (mlg_row_eq _ _ _ _ 0) in Hs1 by (by apply list_lookup_insert_eq).
    case_decide as Hr; [|done]. injection Hs1 as <-.
    rewrite list_insert_insert_eq in Hrun.
    apply bind_Ok in Hrun as (si & Hsi%vget_Ok & Hrun).
    rewrite list_lookup_insert_eq in Hsi by done.
    injection Hsi as <-. injection Hrun as <- <-.
    exists Ki. rewrite parity_eq. auto.
  - intros (Ki & Hi & HKi & Hr & -> & ->).
    rewrite vset_lt by done. cbn [bind].
    unfold vget at 1. rewrite HKi. cbn [bind].
    rewrite (mlg_row_eq _ _ _ _ 0) by (by apply list_lookup_insert_eq).
    rewrite decide_True by done. cbn [bind].
    rewrite list_insert_insert_eq. unfold vget.
    rewrite list_lookup_insert_eq by done. done.
Qed.

Lemma mlg_syndrome_loop (H : CtrlMat) (out s : list Z) (cw : bool) (m : nat)
    (st : list Z * bool) :
  for_range m (mlg_syndrome H out) (s, cw) = Ok st ->
  syndrome_done H out s cw m st.
Proof.
  apply (for_range_invariant (syndrome_done H out s cw)).
  - intros i [t c] [t' c'] Hi (Hlen & Hrows & Hrest & Hcw) Hstep.
    cbn [fst snd] in *.
    apply mlg_syndrome_Ok in Hstep as (Ki & Hit & HKi & Hr & -> & ->).
    unfold syndrome_done. cbn [fst snd].
    split; [by rewrite length_insert|]. split; [|split; [|split]].
    + intros i' Hi'. destruct (decide (i' = i)) as [->|Hne].
      * exists Ki. by rewrite list_lookup_insert_eq.
      * destruct (Hrows i') as (Ki' & ? & ? & ?); [lia|].
        exists Ki'. by rewrite list_lookup_insert_ne.
    + intros i' Hi'. rewrite list_lookup_insert_ne by lia. apply Hrest. lia.
    + destruct (parity out Ki =? 1) eqn:Hp; [done|].
      intros Hc. apply Hcw in Hc as [Hcw1 Hc]. split; [done|].
      intros i' Ki' Hi' HKi'.
      destruct (decide (i' = i)) as [->|Hne].
      * simplify_eq. by apply Z.eqb_neq.
      * apply (Hc i'); [lia|done].
    + intros [-> Hall].
      destruct (parity out Ki =? 1) eqn:Hp.
      * apply Z.eqb_eq in Hp. by destruct (Hall i Ki ltac:(lia) HKi).
      * apply Hcw. split; [done|]. intros i' Ki' Hi'. apply Hall. lia.
  - unfold syndrome_done. cbn [fst snd].
    split; [done|]. split; [intros; lia|]. split; [done|].
    split; [intros ->; split; [done|intros; lia]|by intros [-> _]].
Qed.

(** The loop is total when the rows it visits exist and lie within [out]. *)
Lemma mlg_syndrome_total (H : CtrlMat) (out s : list Z) (cw : bool) (m : nat) :
  (m <= length s)%nat -> (m <= length (CtrlMat.K H))%nat ->
  Forall (Forall (fun j => (j < length out)%nat)) (CtrlMat.K H) ->
  exists st, for_range m (mlg_syndrome H out) (s, cw) = Ok st.
Proof.
  intros Hs HK Hrows. induction m as [|m IH]; [by eexists|].
  destruct IH as ([t c] & Hrun); [lia|lia|].
  rewrite for_range_S, Hrun. cbn [bind].
  apply mlg_syndrome_loop in Hrun as (Hlen & _).
  destruct (lookup_lt_is_Some_2 (CtrlMat.K H) m ltac:(lia)) as [Ki HKi].
  eexists (_, _). apply mlg_syndrome_Ok. exists Ki.
  cbn [fst] in Hlen. repeat split; [lia|done|].
  eapply Forall_lookup_1 in Hrows; eauto.
Qed.

(** ** Bit flipping: the syndrome pass and the success flag *)

Section bf_facts.
Context {E : Type} {arith_E : Arith E}.
Variables (H : CtrlMat) (alpha : double) (inp : list double).
Variables (weighted modified improved : bool).

Lemma bf_row_run (iter i : nat) (out : list Z) (row : list nat)
    (s s' : list Z) (w w' : list double) (si : Z) :
  foldM (bf_row_step inp weighted improved iter i out) row (s, w) = Ok (s', w') ->
  s !! i = Some si ->
  s' !! i = Some (parity_from out row si).
Proof.
  revert s w si. induction row as [|j row IH]; intros s w si Hrun Hsi.
  - injection Hrun as <- <-. done.
  - cbn [foldM] in Hrun.
    destruct (bf_row_step inp weighted improved iter i out (s, w) j)
      as [[s1 w1]|] eqn:Hstep; [|done].
    apply (IH _ _ (Z.lxor si (bit_at out j))) in Hrun; [done|].
    unfold bf_row_step in Hstep.
    apply bind_Ok in Hstep as (si' & Hsi'%vget_Ok & Hstep).
    apply bind_Ok in Hstep as (oj & Hoj%vget_Ok & Hstep).
    apply bind_Ok in Hstep as (s2 & (Hlt & ->)%vset_Ok & Hstep).
    assert (s1 = <[i := Z.lxor si' oj]> s) as ->.
    { destruct ((iter =? 0)%nat && weighted && negb improved).
      - apply bind_Ok in Hstep as (? & _ & Hstep).
        apply bind_Ok in Hstep as (? & _ & Hstep).
        apply bind_Ok in Hstep as (? & _ & Hstep). by injection Hstep.
      - by injection Hstep. }
    simplify_eq. unfold bit_at. rewrite Hoj.
    by apply list_lookup_insert_eq.
Qed.

Lemma bf_syndrome_Ok (iter i : nat) (out s s' : list Z) (w w' : list double)
    (cw cw' : bool) :
  bf_syndrome H inp weighted improved iter out (s, w, cw) i = Ok (s', w', cw') ->
  exists Ki, CtrlMat.K H !! i = Some Ki
    /\ cw' = (if parity out Ki =? 1 then false else cw).
Proof.
  unfold bf_syndrome. intros Hrun.
  apply bind_Ok in Hrun as (s0 & (Hi & ->)%vset_Ok & Hrun).
  apply bind_Ok in Hrun as (Ki & HKi%vget_Ok & Hrun).
  apply bind_Ok in Hrun as ([s1 w1] & Hrow & Hrun).
  apply bind_Ok in Hrun as (si & Hsi%vget_Ok & Hrun).
  eapply bf_row_run in Hrow; [|by apply list_lookup_insert_eq].
  injection Hrun as <- <- <-. exists Ki. split; [done|].
  rewrite parity_eq. by simplify_eq.
Qed.

Lemma bf_syndrome_loop (iter m : nat) (out s : list Z) (w : list double)
    (st : list Z * list double * bool) :
  for_range m (bf_syndrome H inp weighted improved iter out) (s, w, true) = Ok st ->
  st.2 = true ->
  forall i Ki, (i < m)%nat -> CtrlMat.K H !! i = Some Ki -> parity out Ki <> 1.
Proof.
  apply (for_range_invariant (fun m (st : list Z * list double * bool) =>
    st.2 = true ->
    forall i Ki, (i < m)%nat -> CtrlMat.K H !! i = Some Ki ->
                 parity out Ki <> 1)).
  - intros i [[t u] c] [[t' u'] c'] Hi IH Hstep Hc i' Ki' Hi' HKi'.
    cbn [snd] in *.
    apply bf_syndrome_Ok in Hstep as (Ki & HKi & ->).
    destruct (parity out Ki =? 1) eqn:Hp; [done|].
    destruct (decide (i' = i)) as [->|Hne].
    + simplify_eq. by apply Z.eqb_neq.
    + apply (IH Hc i'); [lia|done].
  - intros; lia.
Qed.

(** An iteration that returns [true] leaves [out] alone and has seen every
    one of the [k] syndrome bits differ from 1. *)
Lemma bf_iteration_true (iter : nat) (st st' : bf_state E) :
  bf_iteration H alpha inp weighted modified improved iter st = Ok (true, st') ->
  bf_out st' = bf_out st
  /\ forall i Ki, (i < CtrlMat.k H)%nat -> CtrlMat.K H !! i = Some Ki ->
       parity (bf_out st) Ki <> 1.
Proof.
  unfold bf_iteration. intros Hrun.
  apply bind_Ok in Hrun as ([[s w] cw] & Hsyn & Hrun).
  destruct cw.
  - injection Hrun as <-. split; [done|].
    by apply (bf_syndrome_loop _ _ _ _ _ _ Hsyn).
  - apply bind_Ok in Hrun as ([w1 e1] & _ & Hrun).
    apply bind_Ok in Hrun as (T & _ & Hrun).
    apply bind_Ok in Hrun as (fl & _ & Hrun).
    apply bind_Ok in Hrun as (o & _ & Hrun). done.
Qed.

Lemma bf_iteration_bits (n iter : nat) (st st' : bf_state E) (b : bool) :
  bf_iteration H alpha inp weighted modified improved iter st = Ok (b, st') ->
  bits n (bf_out st) -> bits n (bf_out st').
Proof.
  unfold bf_iteration. intros Hrun Hb.
  apply bind_Ok in Hrun as ([[s w] cw] & Hsyn & Hrun).
  destruct cw.
  - by injection Hrun as <- <-.
  - apply bind_Ok in Hrun as ([w1 e1] & _ & Hrun).
    apply bind_Ok in Hrun as (T & _ & Hrun).
    apply bind_Ok in Hrun as (fl & _ & Hrun).
    apply bind_Ok in Hrun as (o & Hfl & Hrun).
    injection Hrun as <- <-. cbn [bf_out]. eapply bits_flips; eauto.
Qed.

Lemma bf_loop_true (n rem iter : nat) (st : bf_state E) (out' : list Z) :
  bits n (bf_out st) ->
  bf_loop H alpha inp weighted modified improved rem iter st = Ok (true, out') ->
  bits n out'
  /\ forall i Ki, (i < CtrlMat.k H)%nat -> CtrlMat.K H !! i = Some Ki ->
       parity out' Ki <> 1.
Proof.
  revert iter st. induction rem as [|rem IH]; intros iter st Hb Hrun.
  - done.
  - cbn [bf_loop] in Hrun.
    apply bind_Ok in Hrun as ([b st'] & Hit & Hrun).
    pose proof (bf_iteration_bits n _ _ _ _ Hit Hb) as Hb'.
    destruct b.
    + injection Hrun as <-.
      apply bf_iteration_true in Hit as [Heq Hpar].
      rewrite Heq. auto.
    + eapply IH; eauto.
Qed.

Lemma bf_init_Ok (out : list Z) (st : bf_state E) :
  bf_init H inp weighted modified improved out = Ok st ->
  for_range (CtrlMat.n H) (hard_bit inp) out = Ok (bf_out st)
  /\ length (bf_e st) = CtrlMat.n H
  /\ length (bf_s st) = CtrlMat.k H.
Proof.
  unfold bf_init. intros Hrun.
  destruct (negb (negb modified || weighted)); [done|].
  destruct (negb (negb improved || modified && weighted)); [done|].
  apply bind_Ok in Hrun as (o & Hhard & Hrun). injection Hrun as <-.
  cbn [bf_out bf_e bf_s]. by rewrite !length_replicate.
Qed.
End bf_facts.

(** When [bf_decode] returns [true], every parity check holds. *)
Lemma bf_decode_sound (E : Type) {arith_E : Arith E} (H : CtrlMat)
    (max_iter : Z) (alpha : double) (inp : list double) (out out' : list Z)
    (weighted modified improved : bool) :
  Forall (Forall (fun j => (j < CtrlMat.n H)%nat)) (CtrlMat.K H) ->
  bf_decode E H max_iter alpha inp out weighted modified improved = Ok (true, out') ->
  forall i Ki, (i < CtrlMat.k H)%nat -> CtrlMat.K H !! i = Some Ki ->
    parity out' Ki = 0.
Proof.
  intros HK Hrun i Ki Hi HKi. unfold bf_decode in Hrun.
  apply bind_Ok in Hrun as (st & Hinit & Hrun).
  apply bf_init_Ok in Hinit as (Hhard%bits_hard_loop & _).
  destruct (bf_loop_true _ _ _ _ _ _ _ _ _ _ _ Hhard Hrun) as [Hb Hpar].
  destruct (parity_bit (CtrlMat.n H) out' Ki Hb) as [Hp|Hp]; [|done|].
  - eapply Forall_lookup_1 in HK; eauto.
  - by destruct (Hpar i Ki).
Qed.

(** ** Iterative majority logic *)

Section mlg_facts.
Context {R : Type} {arith_R : Arith R}.
Variables (H : CtrlMat) (alpha : double) (inp : list double).
Variables (soft adaptive : bool).

(** The initialisation loop treats [out] as the hard-decision loop does. *)
Lemma mlg_init_step_Ok (gamma : Z) (r r' : list R) (out out' : list Z) (j : nat) :
  mlg_init_step inp soft gamma (r, out) j = Ok (r', out') ->
  hard_bit inp out j = Ok out'
  /\ (j < length r)%nat
  /\ exists x, r' = <[j := x]> r
       /\ (soft = true -> exists q,
             x = std_min (std_max q (mlg_min soft gamma)) (mlg_max soft gamma))
       /\ (soft = false -> x = mlg_max soft gamma \/ x = mlg_min soft gamma).
Proof.
  unfold mlg_init_step. intros Hrun.
  apply bind_Ok in Hrun as (o & Hhard & Hrun). destruct soft.
  - apply bind_Ok in Hrun as (x & _ & Hrun).
    apply bind_Ok in Hrun as (r1 & (Hlt & ->)%vset_Ok & Hrun).
    injection Hrun as <- <-. repeat (split; [done|]).
    eexists. split; [done|]. split; [eauto|done].
  - apply bind_Ok in Hrun as (oj & _ & Hrun).
    apply bind_Ok in Hrun as (r1 & (Hlt & ->)%vset_Ok & Hrun).
    injection Hrun as <- <-. repeat (split; [done|]).
    eexists. split; [done|]. split; [done|].
    intros _. destruct (oj =? 0); auto.
Qed.

Lemma mlg_init_loop_out (gamma : Z) (m : nat) (r : list R) (out : list Z)
    (st : list R * list Z) :
  for_range m (mlg_init_step inp soft gamma) (r, out) = Ok st ->
  for_range m (hard_bit inp) out = Ok st.2 /\ length st.1 = length r.
Proof.
  apply (for_range_invariant (fun m (st : list R * list Z) =>
    for_range m (hard_bit inp) out = Ok st.2 /\ length st.1 = length r)).
  - intros j [t o] [t' o'] Hj [IH Hlen] Hstep. cbn [fst snd] in *.
    apply mlg_init_step_Ok in Hstep as (Hhard & _ & x & -> & _).
    rewrite for_range_S, IH. cbn [bind]. by rewrite length_insert.
  - done.
Qed.

Lemma mlg_init_loop_total (gamma : Z) (m : nat) (r : list R) (out out' : list Z) :
  (m <= length r)%nat ->
  for_range m (hard_bit inp) out = Ok out' ->
  exists r', for_range m (mlg_init_step inp soft gamma) (r, out) = Ok (r', out').
Proof.
  revert out'. induction m as [|m IH]; intros out' Hr Hhard.
  - injection Hhard as <-. by eexists.
  - rewrite for_range_S in Hhard.
    apply bind_Ok in Hhard as (o & Hhard & Hstep).
    destruct (IH o) as (r1 & Hrun); [lia|done|].
    rewrite for_range_S, Hrun. cbn [bind].
    apply mlg_init_loop_out in Hrun as [_ Hlen]. cbn [fst] in Hlen.
    unfold mlg_init_step. rewrite Hstep. cbn [bind].
    unfold hard_bit in Hstep.
    apply bind_Ok in Hstep as (x & Hx & (Hlt & ->)%vset_Ok).
    destruct soft.
    + rewrite Hx. cbn [bind]. rewrite vset_lt by lia. by eexists.
    + unfold vget. rewrite list_lookup_insert_eq by done. cbn [bind].
      rewrite vset_lt by lia. by eexists.
Qed.

(** *** The reliability register stays within its bounds *)

Section saturation.
Variables (gamma : Z) (in_bounds : R -> Prop).
Hypothesis clamp_in_bounds : forall x : R,
  in_bounds (std_min (std_max x (mlg_min soft gamma)) (mlg_max soft gamma)).
Hypothesis clamp_double_in_bounds : adaptive = true -> forall x : double,
  in_bounds (of_double
    (std_min (std_max x (to_double (mlg_min soft gamma)))
             (to_double (mlg_max soft gamma)))).
Hypothesis max_in_bounds : in_bounds (mlg_max soft gamma).
Hypothesis min_in_bounds : in_bounds (mlg_min soft gamma).

Lemma saturated_insert (m : nat) (r : list R) (x : R) :
  saturated in_bounds m r -> in_bounds x -> saturated in_bounds (S m) (<[m := x]> r).
Proof.
  intros Hr Hx j y Hj Hy. destruct (decide (j = m)) as [->|Hne].
  - apply lookup_lt_Some in Hy as Hlt. rewrite length_insert in Hlt.
    rewrite list_lookup_insert_eq in Hy by done. by simplify_eq.
  - rewrite list_lookup_insert_ne in Hy by done. apply (Hr j); [lia|done].
Qed.

Lemma saturated_Forall (r : list R) :
  saturated in_bounds (length r) r -> Forall in_bounds r.
Proof.
  intros Hr. apply Forall_lookup_2. intros j x Hx.
  apply (Hr j); [|done]. by eapply lookup_lt_Some.
Qed.

Lemma mlg_init_loop_saturated (m : nat) (r : list R) (out : list Z)
    (st : list R * list Z) :
  for_range m (mlg_init_step inp soft gamma) (r, out) = Ok st ->
  saturated in_bounds m st.1.
Proof.
  apply (for_range_invariant (fun m (st : list R * list Z) =>
    saturated in_bounds m st.1)).
  - intros j [t o] [t' o'] Hj IH Hstep. cbn [fst] in *.
    apply mlg_init_step_Ok in Hstep as (_ & _ & x & -> & Hs & Hh).
    apply saturated_insert; [done|]. destruct soft.
    + destruct Hs as [q ->]; done.
    + destruct Hh as [-> | ->]; done.
  - intros j x Hj. lia.
Qed.

Lemma mlg_update_Ok (e : list Z) (r r' : list R) (out out' : list Z) (j : nat) :
  mlg_update alpha soft adaptive gamma e (r, out) j = Ok (r', out') ->
  (j < length r)%nat /\ (j < length out)%nat
  /\ exists x b, r' = <[j := x]> r /\ out' = <[j := b]> out
       /\ in_bounds x /\ (b = 0 \/ b = 1).
Proof.
  unfold mlg_update. intros Hrun.
  apply bind_Ok in Hrun as (rj & Hrj%vget_Ok & Hrun).
  apply bind_Ok in Hrun as (ej & _ & Hrun).
  apply bind_Ok in Hrun as (r1 & Hr1 & Hrun).
  apply bind_Ok in Hrun as (rj' & _ & Hrun).
  apply bind_Ok in Hrun as (o1 & (Hlt & ->)%vset_Ok & Hrun).
  injection Hrun as <- <-. apply lookup_lt_Some in Hrj.
  repeat (split; [done|]).
  destruct adaptive eqn:Had.
  - apply vset_Ok in Hr1 as [_ ->].
    eexists _, _. repeat split; [by apply clamp_double_in_bounds|].
    destruct (ltb rj' (of_int 0)); auto.
  - apply vset_Ok in Hr1 as [_ ->].
    eexists _, _. repeat split; [by apply clamp_in_bounds|].
    destruct (ltb rj' (of_int 0)); auto.
Qed.

Lemma mlg_update_loop (n m : nat) (e : list Z) (r : list R) (out : list Z)
    (st : list R * list Z) :
  for_range m (mlg_update alpha soft adaptive gamma e) (r, out) = Ok st ->
  bits n out ->
  length st.1 = length r /\ saturated in_bounds m st.1 /\ bits n st.2.
Proof.
  intros Hrun Hb. revert Hrun.
  apply (for_range_invariant (fun m (st : list R * list Z) =>
    length st.1 = length r /\ saturated in_bounds m st.1 /\ bits n st.2)).
  - intros j [t o] [t' o'] Hj (Hlen & Hsat & Hbits) Hstep. cbn [fst snd] in *.
    apply mlg_update_Ok in Hstep as (_ & _ & x & b & -> & -> & Hx & Hbit).
    rewrite length_insert. split; [done|].
    split; [by apply saturated_insert|by apply bits_insert].
  - cbn [fst snd]. split; [done|]. split; [|done]. intros j x Hj. lia.
Qed.
End saturation.

(** *** The success flag *)

Lemma mlg_iteration_true (gamma : Z) (st st' : mlg_state R) :
  mlg_iteration H alpha soft adaptive gamma st = Ok (true, st') ->
  mlg_out st' = mlg_out st
  /\ forall i Ki, (i < CtrlMat.n H)%nat -> CtrlMat.K H !! i = Some Ki ->
       parity (mlg_out st) Ki <> 1.
Proof.
  unfold mlg_iteration. intros Hrun.
  apply bind_Ok in Hrun as ([s cw] & Hsyn & Hrun).
  apply mlg_syndrome_loop in Hsyn as (_ & _ & _ & Hcw). cbn [snd] in Hcw.
  destruct cw.
  - injection Hrun as <-. split; [done|]. by apply Hcw.
  - apply bind_Ok in Hrun as (e & _ & Hrun).
    apply bind_Ok in Hrun as ([r o] & _ & Hrun). done.
Qed.

Lemma mlg_iteration_bits (n : nat) (gamma : Z) (st st' : mlg_state R) (b : bool) :
  mlg_iteration H alpha soft adaptive gamma st = Ok (b, st') ->
  bits n (mlg_out st) -> bits n (mlg_out st').
Proof.
  unfold mlg_iteration. intros Hrun Hb.
  apply bind_Ok in Hrun as ([s cw] & Hsyn & Hrun).
  destruct cw.
  - by injection Hrun as <- <-.
  - apply bind_Ok in Hrun as (e & _ & Hrun).
    apply bind_Ok in Hrun as ([r o] & Hupd & Hrun).
    injection Hrun as <- <-. cbn [mlg_out].
    eapply (mlg_update_loop gamma (fun _ => True)) in Hupd as (_ & _ & Hbits);
      eauto.
Qed.

Lemma mlg_loop_true (n : nat) (gamma : Z) (rem : nat) (st : mlg_state R)
    (out' : list Z) :
  bits n (mlg_out st) ->
  mlg_loop H alpha soft adaptive gamma rem st = Ok (true, out') ->
  bits n out'
  /\ forall i Ki, (i < CtrlMat.n H)%nat -> CtrlMat.K H !! i = Some Ki ->
       parity out' Ki <> 1.
Proof.
  revert st. induction rem as [|rem IH]; intros st Hb Hrun.
  - done.
  - cbn [mlg_loop] in Hrun.
    apply bind_Ok in Hrun as ([b st'] & Hit & Hrun).
    pose proof (mlg_iteration_bits n _ _ _ _ Hit Hb) as Hb'.
    destruct b.
    + injection Hrun as <-.
      apply mlg_iteration_true in Hit as [Heq Hpar].
      rewrite Heq. auto.
    + eapply IH; eauto.
Qed.

Lemma mlg_init_Ok (out : list Z) (gamma : Z) (st : mlg_state R) :
  mlg_init H inp soft adaptive out = Ok (gamma, st) ->
  (exists col0, CtrlMat.N H !! 0%nat = Some col0 /\ gamma = Z.of_nat (length col0))
  /\ for_range (CtrlMat.n H) (hard_bit inp) out = Ok (mlg_out st)
  /\ length (mlg_r st) = CtrlMat.n H
  /\ exists r0 out0,
       for_range (CtrlMat.n H) (mlg_init_step inp soft gamma) (r0, out)
       = Ok (mlg_r st, out0).
Proof.
  unfold mlg_init. intros Hrun.
  apply bind_Ok in Hrun as (col0 & Hcol%vget_Ok & Hrun).
  apply bind_Ok in Hrun as ([r o] & Hloop & Hrun).
  apply bind_Ok in Hrun as (w & _ & Hrun).
  injection Hrun as <- <-. cbn [mlg_out mlg_r].
  split; [eauto|].
  pose proof (mlg_init_loop_out _ _ _ _ _ Hloop) as [Hhard Hlen].
  cbn [fst snd] in *. rewrite length_replicate in Hlen. eauto.
Qed.
End mlg_facts.

(** When an iterative MLG decoder returns [true], the parity checks of the
    rows [0 .. n) hold. *)
Lemma iterative_mlg_decode_sound (R : Type) {arith_R : Arith R} (H : CtrlMat)
    (max_iter : Z) (alpha : double) (inp : list double) (out out' : list Z)
    (soft adaptive : bool) :
  Forall (Forall (fun j => (j < CtrlMat.n H)%nat)) (CtrlMat.K H) ->
  iterative_mlg_decode R H max_iter alpha inp out soft adaptive = Ok (true, out') ->
  forall i Ki, (i < CtrlMat.n H)%nat -> CtrlMat.K H !! i = Some Ki ->
    parity out' Ki = 0.
Proof.
  intros HK Hrun i Ki Hi HKi. unfold iterative_mlg_decode in Hrun.
  apply bind_Ok in Hrun as ([gamma st] & Hinit & Hrun).
  apply mlg_init_Ok in Hinit as (_ & Hhard%bits_hard_loop & _).
  destruct (mlg_loop_true _ _ _ _ _ _ _ _ _ Hhard Hrun) as [Hb Hpar].
  destruct (parity_bit (CtrlMat.n H) out' Ki Hb) as [Hp|Hp]; [|done|].
  - eapply Forall_lookup_1 in HK; eauto.
  - by destruct (Hpar i Ki).
Qed.

(** ** Min-sum: the success flag *)

Section ms_facts.
Variables (H : CtrlMat) (alpha : double) (inp : list double).
Variables (normalized offset : bool).

Lemma ms_variable_Ok (R Q Q' : list double) (out out' : list Z) (j : nat) :
  ms_variable H inp R (Q, out) j = Ok (Q', out') ->
  (j < length out)%nat /\ exists b, out' = <[j := b]> out /\ (b = 0 \/ b = 1).
Proof.
  unfold ms_variable. intros Hrun.
  apply bind_Ok in Hrun as (Nj & _ & Hrun).
  apply bind_Ok in Hrun as (Le & _ & Hrun).
  apply bind_Ok in Hrun as (x & _ & Hrun).
  apply bind_Ok in Hrun as (o & (Hlt & ->)%vset_Ok & Hrun).
  apply bind_Ok in Hrun as (Q1 & _ & Hrun).
  injection Hrun as <- <-. split; [done|]. eexists. split; [done|].
  destruct (dlt (x + Le)%Qc (of_Z 0)); auto.
Qed.

Lemma ms_variable_loop (n m : nat) (R Q : list double) (out : list Z)
    (st : list double * list Z) :
  for_range m (ms_variable H inp R) (Q, out) = Ok st ->
  bits n out -> bits n st.2.
Proof.
  intros Hrun Hb. revert Hrun.
  apply (for_range_invariant (fun _ (st : list double * list Z) => bits n st.2));
    [|done].
  intros j [t o] [t' o'] Hj IH Hstep. cbn [snd] in *.
  apply ms_variable_Ok in Hstep as (_ & b & -> & Hbit).
  by apply bits_insert.
Qed.

Lemma ms_iteration_Ok (n iter : nat) (st st' : ms_state) (b : bool) :
  ms_iteration H alpha inp normalized offset iter st = Ok (b, st') ->
  bits n (ms_out st) ->
  bits n (ms_out st') /\ hard_decide (ms_out st') H = Ok b.
Proof.
  unfold ms_iteration. intros Hrun Hb.
  apply bind_Ok in Hrun as ([[[Q m1] m2] sg] & _ & Hrun).
  apply bind_Ok in Hrun as (R & _ & Hrun).
  apply bind_Ok in Hrun as ([Q' o] & Hvar & Hrun).
  apply bind_Ok in Hrun as (cw & Hcw & Hrun).
  injection Hrun as <- <-. cbn [ms_out]. split; [|done].
  by apply (ms_variable_loop n _ _ _ _ _ Hvar).
Qed.

Lemma ms_loop_true (n rem iter : nat) (st : ms_state) (out' : list Z) :
  bits n (ms_out st) ->
  ms_loop H alpha inp normalized offset rem iter st = Ok (true, out') ->
  bits n out' /\ hard_decide out' H = Ok true.
Proof.
  revert iter st. induction rem as [|rem IH]; intros iter st Hb Hrun.
  - done.
  - cbn [ms_loop] in Hrun.
    apply bind_Ok in Hrun as ([b st'] & Hit & Hrun).
    apply (ms_iteration_Ok n) in Hit as [Hb' Hcw]; [|done].
    destruct b.
    + by injection Hrun as <-.
    + eapply IH; eauto.
Qed.
End ms_facts.

(** When [min_sum_decode] returns [true], every parity check holds. *)
Lemma min_sum_decode_sound (H : CtrlMat) (max_iter : Z) (alpha : double)
    (inp : list double) (out out' : list Z) (normalized offset : bool) :
  Forall (Forall (fun j => (j < CtrlMat.n H)%nat)) (CtrlMat.K H) ->
  min_sum_decode H max_iter alpha inp out normalized offset = Ok (true, out') ->
  forall i Ki, (i < CtrlMat.k H)%nat -> CtrlMat.K H !! i = Some Ki ->
    parity out' Ki = 0.
Proof.
  intros HK Hrun. unfold min_sum_decode in Hrun.
  destruct (normalized && offset); [done|].
  apply bind_Ok in Hrun as (o & Hhard & Hrun).
  apply bind_Ok in Hrun as (cw & Hcw & Hrun).
  apply bits_hard_loop in Hhard. destruct cw.
  - injection Hrun as <-. by apply hard_decide_sound.
  - apply (ms_loop_true _ _ _ _ _ (CtrlMat.n H)) in Hrun as [Hb Hcw']; [|done].
    by apply hard_decide_sound.
Qed.

(** ** The success flag and the parity checks *)

(** C1, as amended: apart from [OneStepMLG], a decoder that returns [true]
    returns a vector that satisfies every parity check of H; for the iterative
    MLG decoders this is stated for a matrix with as many rows as columns. *)
Theorem success_flag_means_codeword (d : decoder) (H : CtrlMat) (max_iter : Z)
    (alpha : double) (inp : list double) (out out' : list Z) :
  d <> OneStepMLG ->
  (is_iterative_mlg d = true -> CtrlMat.k H = CtrlMat.n H) ->
  Forall (Forall (fun j => (j < CtrlMat.n H)%nat)) (CtrlMat.K H) ->
  decode d H max_iter alpha inp out = Ok (true, out') ->
  forall i Ki, (i < CtrlMat.k H)%nat -> CtrlMat.K H !! i = Some Ki ->
    parity out' Ki = 0.
Proof.
  intros Hd Hsq HK Hrun i Ki Hi HKi.
  destruct d; cbn [decode is_iterative_mlg] in *; try done;
    unfold BF_decode, WBF_decode, MWBF_decode, IMWBF_decode, HardMLG_decode,
      SoftMLG_decode, AdaptiveSoftMLG_decode, MinSum_decode,
      NormalizedMinSum_decode, OffsetMinSum_decode in Hrun.
  1-4: exact (bf_decode_sound _ _ _ _ _ _ _ _ _ _ HK Hrun i Ki Hi HKi).
  1-3: rewrite Hsq in Hi by done;
       exact (iterative_mlg_decode_sound _ _ _ _ _ _ _ _ _ HK Hrun i Ki Hi HKi).
  all: exact (min_sum_decode_sound _ _ _ _ _ _ _ _ HK Hrun i Ki Hi HKi).
Qed.

Lemma success_flag_means_codeword_witness :
  decode BF H_triangle 5 (of_Z 0) [sample 1 1; sample (-9) 10; sample 1 1] [0; 0; 0]
  = Ok (true, [0; 0; 0])
  /\ parity [0; 0; 0] [1; 2]%nat = 0.
Proof.
  split; [by vm_compute|].
  apply (success_flag_means_codeword BF H_triangle 5 (of_Z 0)
           [sample 1 1; sample (-9) 10; sample 1 1] [0; 0; 0] [0; 0; 0]
           ltac:(discriminate) ltac:(discriminate)
           ltac:(repeat constructor) ltac:(by vm_compute) 1%nat [1; 2]%nat
           ltac:(cbn; lia) eq_refl).
Defined.

(** C1, as stated, fails for [OneStepMLG]: it returns [true] after its one
    correction pass although row 0 is violated. *)
Lemma one_step_true_without_codeword :
  decode OneStepMLG H_double_check 1 (of_Z 0) [sample (-1) 1; sample 1 1] [0; 0]
  = Ok (true, [0; 1])
  /\ CtrlMat.K H_double_check !! 0%nat = Some [0; 1]%nat
  /\ parity [0; 1] [0; 1]%nat = 1.
Proof. by vm_compute. Qed.

(** ** The weight table of the adaptive MLG decoder *)

Section mlg_weights.
Context {R : Type} {arith_R : Arith R}.
Variables (H : CtrlMat) (soft : bool) (gamma : Z) (r : list R).

Lemma mlg_wij_total (j : nat) (row : list nat) (a : R) :
  Forall (fun jp => (jp < length r)%nat) row ->
  exists b, foldM (mlg_wij_step j r) row a = Ok b.
Proof.
  intros Hrow. revert a. induction Hrow as [|jp row Hjp _ IH]; intros a.
  - by eexists.
  - cbn [foldM]. unfold mlg_wij_step at 1.
    destruct (jp =? j)%nat; [apply IH|].
    destruct (vget_lt r jp Hjp) as (x & -> & _). cbn [bind]. apply IH.
Qed.

Lemma mlg_weight_cell_Ok (i j : nat) (w w' : list Z) :
  mlg_weight_cell H soft gamma r i w j = Ok w' ->
  (i * CtrlMat.n H + j < length w)%nat
  /\ w' = <[(i * CtrlMat.n H + j)%nat := to_int (mlg_min soft gamma)]> w.
Proof.
  unfold mlg_weight_cell. intros Hrun.
  apply bind_Ok in Hrun as (Ki & _ & Hrun).
  apply bind_Ok in Hrun as (m & _ & Hrun).
  by apply vset_Ok in Hrun.
Qed.

Lemma mlg_weight_cell_total (i j : nat) (w : list Z) :
  (i < length (CtrlMat.K H))%nat ->
  Forall (Forall (fun jp => (jp < length r)%nat)) (CtrlMat.K H) ->
  (i * CtrlMat.n H + j < length w)%nat ->
  exists w', mlg_weight_cell H soft gamma r i w j = Ok w'.
Proof.
  intros Hi HK Hw. unfold mlg_weight_cell.
  destruct (vget_lt _ i Hi) as (Ki & -> & HKi). cbn [bind].
  eapply Forall_lookup_1 in HK; [|done].
  destruct (mlg_wij_total j Ki (of_int INT_MAX) HK) as [b ->]. cbn [bind].
  rewrite vset_lt by done. by eexists.
Qed.

Lemma mlg_weight_row_Ok (i : nat) (w w' : list Z) :
  mlg_weight_row H soft gamma r w i = Ok w' ->
  floored (to_int (mlg_min soft gamma)) (i * CtrlMat.n H) w ->
  length w' = length w /\ floored (to_int (mlg_min soft gamma)) (S i * CtrlMat.n H) w'.
Proof.
  unfold mlg_weight_row. intros Hrun Hw.
  replace (S i * CtrlMat.n H)%nat with (i * CtrlMat.n H + CtrlMat.n H)%nat by lia.
  revert Hrun.
  apply (for_range_invariant (fun j (w' : list Z) =>
    length w' = length w /\ floored (to_int (mlg_min soft gamma)) (i * CtrlMat.n H + j) w')).
  - intros j t t' Hj [Hlen IH] Hstep.
    apply mlg_weight_cell_Ok in Hstep as [Hlt ->].
    rewrite length_insert. split; [done|]. intros p Hp.
    destruct (decide (p = i * CtrlMat.n H + j)%nat) as [->|Hne].
    + by apply list_lookup_insert_eq.
    + rewrite list_lookup_insert_ne by done. apply IH. lia.
  - split; [done|]. by rewrite Nat.add_0_r.
Qed.

Lemma mlg_weight_row_total (i : nat) (w : list Z) :
  (i < length (CtrlMat.K H))%nat ->
  Forall (Forall (fun jp => (jp < length r)%nat)) (CtrlMat.K H) ->
  (S i * CtrlMat.n H <= length w)%nat ->
  exists w', mlg_weight_row H soft gamma r w i = Ok w'.
Proof.
  intros Hi HK Hw. unfold mlg_weight_row.
  assert (Hgen : forall m, (m <= CtrlMat.n H)%nat -> exists w',
    for_range m (mlg_weight_cell H soft gamma r i) w = Ok w'
    /\ length w' = length w).
  { induction m as [|m IH]; intros Hm; [by eexists|].
    destruct IH as (w1 & Hrun & Hlen); [lia|].
    rewrite for_range_S, Hrun. cbn [bind].
    destruct (mlg_weight_cell_total i m w1 Hi HK) as [w2 Hcell]; [nia|].
    exists w2. split; [done|].
    apply mlg_weight_cell_Ok in Hcell as [_ ->]. by rewrite length_insert. }
  destruct (Hgen (CtrlMat.n H)) as (w' & Hrun & _); eauto.
Qed.

Lemma mlg_weight_table_Ok (m : nat) (w w' : list Z) :
  for_range m (mlg_weight_row H soft gamma r) w = Ok w' ->
  length w' = length w /\ floored (to_int (mlg_min soft gamma)) (m * CtrlMat.n H) w'.
Proof.
  apply (for_range_invariant (fun i (w' : list Z) =>
    length w' = length w /\ floored (to_int (mlg_min soft gamma)) (i * CtrlMat.n H) w')).
  - intros i t t' Hi [Hlen IH] Hstep.
    apply mlg_weight_row_Ok in Hstep as [Hlen' Hfl]; [|done].
    split; [congruence|done].
  - split; [done|]. intros p Hp. lia.
Qed.

Lemma mlg_weight_table_total (m : nat) (w : list Z) :
  (m <= length (CtrlMat.K H))%nat ->
  Forall (Forall (fun jp => (jp < length r)%nat)) (CtrlMat.K H) ->
  (m * CtrlMat.n H <= length w)%nat ->
  exists w', for_range m (mlg_weight_row H soft gamma r) w = Ok w'.
Proof.
  intros Hm HK Hw. induction m as [|m IH]; [by eexists|].
  destruct IH as (w1 & Hrun); [lia|lia|].
  rewrite for_range_S, Hrun. cbn [bind].
  apply mlg_weight_table_Ok in Hrun as [Hlen _].
  apply mlg_weight_row_total; [lia|done|lia].
Qed.
End mlg_weights.

(** Every weight the adaptive decoder uses is the saturation floor. *)
Lemma mlg_init_weights (R : Type) {arith_R : Arith R} (H : CtrlMat)
    (inp : list double) (soft : bool) (out : list Z) (gamma : Z)
    (st : mlg_state R) :
  mlg_init H inp soft true out = Ok (gamma, st) ->
  mlg_w st = replicate (CtrlMat.k H * CtrlMat.n H) (to_int (mlg_min soft gamma)).
Proof.
  unfold mlg_init. intros Hrun.
  apply bind_Ok in Hrun as (col0 & _ & Hrun).
  apply bind_Ok in Hrun as ([r o] & _ & Hrun).
  apply bind_Ok in Hrun as (w & Hw & Hrun).
  injection Hrun as <- <-. cbn [mlg_w].
  apply mlg_weight_table_Ok in Hw as [Hlen Hfl].
  rewrite length_replicate in Hlen.
  apply list_eq. intros p. destruct (decide (p < CtrlMat.k H * CtrlMat.n H)%nat).
  - rewrite Hfl by done. by rewrite lookup_replicate_2.
  - rewrite !lookup_ge_None_2; [done| |]; rewrite ?length_replicate; lia.
Qed.

(** ** An iteration budget of zero *)

Lemma bits_map_hard (inp : list double) : bits (length inp) (map hard inp).
Proof.
  intros j Hj. rewrite list_lookup_fmap.
  destruct (lookup_lt_is_Some_2 inp j Hj) as [x ->]. simpl.
  destruct (hard_is_bit x) as [-> | ->]; auto.
Qed.

Lemma bf_decode_zero (E : Type) {arith_E : Arith E} (H : CtrlMat)
    (alpha : double) (inp : list double) (out : list Z)
    (weighted modified improved : bool) :
  negb modified || weighted = true ->
  negb improved || (modified && weighted) = true ->
  length inp = CtrlMat.n H -> length out = CtrlMat.n H ->
  bf_decode E H 0 alpha inp out weighted modified improved
  = Ok (false, map hard inp).
Proof.
  intros Ha1 Ha2 Hi Ho. unfold bf_decode, bf_init.
  rewrite Ha1, Ha2. cbn [negb].
  by rewrite hard_loop_full.
Qed.

Lemma iterative_mlg_decode_zero (R : Type) {arith_R : Arith R} (H : CtrlMat)
    (alpha : double) (inp : list double) (out : list Z) (soft adaptive : bool) :
  well_formed H -> (0 < CtrlMat.n H)%nat ->
  length inp = CtrlMat.n H -> length out = CtrlMat.n H ->
  iterative_mlg_decode R H 0 alpha inp out soft adaptive
  = Ok (false, map hard inp).
Proof.
  intros [Hk Hn HK _] Hpos Hi Ho. unfold iterative_mlg_decode, mlg_init.
  destruct (vget_lt (CtrlMat.N H) 0%nat ltac:(lia)) as (col0 & -> & _).
  cbn [bind].
  pose proof (hard_loop_full inp out _ Hi Ho) as Hhard.
  eapply (mlg_init_loop_total inp soft (Z.of_nat (length col0)) _
            (replicate (CtrlMat.n H) (of_int 0))) in Hhard as [r Hloop];
    [|by rewrite length_replicate].
  rewrite Hloop. cbn [bind].
  apply mlg_init_loop_out in Hloop as [_ Hlen]. cbn [fst] in Hlen.
  rewrite length_replicate in Hlen.
  destruct adaptive; [|done].
  edestruct (mlg_weight_table_total H soft (Z.of_nat (length col0)) r (CtrlMat.k H))
    as [w ->]; [lia|by rewrite Hlen| |done].
  by rewrite length_replicate.
Qed.

Lemma min_sum_decode_zero (H : CtrlMat) (alpha : double) (inp : list double)
    (out : list Z) (normalized offset : bool) :
  normalized && offset = false ->
  well_formed H ->
  length inp = CtrlMat.n H -> length out = CtrlMat.n H ->
  min_sum_decode H 0 alpha inp out normalized offset
  = Ok (is_codeword H (map hard inp), map hard inp).
Proof.
  intros Hflags Hwf Hi Ho. unfold min_sum_decode.
  rewrite Hflags, hard_loop_full by done. cbn [bind].
  rewrite hard_decide_eq by (rewrite <- ?Hi; auto using bits_map_hard).
  cbn [bind]. by destruct (is_codeword H (map hard inp)).
Qed.

(** C3, as amended: with [max_iter = 0] the min-sum decoders return the hard
    decision together with the answer whether it satisfies all parity checks;
    the bit-flipping decoders and the iterative MLG decoders return [false]
    and the hard decision, whether or not it is a codeword. *)
Theorem max_iter_zero (d : decoder) (H : CtrlMat) (alpha : double)
    (inp : list double) (out : list Z) :
  d <> OneStepMLG ->
  well_formed H -> (0 < CtrlMat.n H)%nat ->
  length inp = CtrlMat.n H -> length out = CtrlMat.n H ->
  decode d H 0 alpha inp out
  = Ok (is_min_sum d && is_codeword H (map hard inp), map hard inp).
Proof.
  intros Hd Hwf Hpos Hi Ho.
  destruct d; cbn [decode is_min_sum andb]; try done.
  1-4: by apply bf_decode_zero.
  1-3: by apply iterative_mlg_decode_zero.
  all: by apply min_sum_decode_zero.
Qed.

Lemma H_triangle_well_formed : well_formed H_triangle.
Proof. split; [done|done|repeat constructor|repeat constructor]. Qed.

Lemma max_iter_zero_witness :
  decode MinSum H_triangle 0 (of_Z 0) [sample 1 1; sample 1 1; sample 1 1] [0; 0; 0]
  = Ok (true, [0; 0; 0]).
Proof.
  exact (max_iter_zero MinSum H_triangle (of_Z 0)
           [sample 1 1; sample 1 1; sample 1 1] [0; 0; 0]
           ltac:(discriminate) H_triangle_well_formed
           ltac:(cbn; lia) eq_refl eq_refl).
Defined.

(** C3, as stated, fails for [BF]: the all-zero hard decision satisfies every
    parity check, and with [max_iter = 0] the decoder returns [false]. *)
Lemma bf_zero_budget_rejects_codeword :
  is_codeword H_triangle (map hard [sample 1 1; sample 1 1; sample 1 1]) = true
  /\ decode BF H_triangle 0 (of_Z 0) [sample 1 1; sample 1 1; sample 1 1] [0; 0; 0]
     = Ok (false, [0; 0; 0]).
Proof. by vm_compute. Qed.

(** ** One-step majority logic *)

Lemma one_step_sum_eq (j : nat) (s e : list Z) (col : list nat) (ej : Z) :
  e !! j = Some ej ->
  foldM (one_step_sum j s) col e
  = if decide (Forall (fun i => (i < length s)%nat) col)
    then Ok (<[j := column_sum_from s col ej]> e) else Err OutOfRange.
Proof.
  revert e ej. induction col as [|i col IH]; intros e ej Hej; cbn [foldM].
  - rewrite decide_True by done. by rewrite list_insert_id.
  - unfold one_step_sum at 1. unfold vget. rewrite Hej. cbn [bind].
    apply lookup_lt_Some in Hej as Hj.
    destruct (s !! i) as [si|] eqn:Hi; cbn [bind].
    + rewrite vset_lt by done. apply lookup_lt_Some in Hi as Hlt.
      rewrite (IH _ (ej + si)) by (by apply list_lookup_insert_eq).
      rewrite list_insert_insert_eq.
      destruct (decide (Forall (fun i => (i < length s)%nat) col)) as [Hr|Hr].
      * rewrite decide_True by (by constructor).
        unfold column_sum_from. cbn [fold_left]. by rewrite Hi.
      * rewrite decide_False; [done|]. by intros [_ Hc]%Forall_cons_1.
    + apply lookup_ge_None in Hi.
      rewrite decide_False; [done|]. intros [Hc _]%Forall_cons_1. lia.
Qed.

Lemma one_step_correct_eq (H : CtrlMat) (gh : Z) (s e out : list Z) (j : nat)
    (Nj : list nat) (o : Z) :
  (j < length e)%nat -> CtrlMat.N H !! j = Some Nj ->
  Forall (fun i => (i < length s)%nat) Nj -> out !! j = Some o ->
  one_step_correct H gh s (e, out) j
  = Ok (<[j := column_sum s Nj]> e, <[j := corrected H gh s j o]> out).
Proof.
  intros He HNj Hcol Ho. unfold one_step_correct.
  rewrite vset_lt by done. cbn [bind].
  unfold vget at 1. rewrite HNj. cbn [bind].
  rewrite (one_step_sum_eq _ _ _ _ 0) by (by apply list_lookup_insert_eq).
  rewrite decide_True by done. cbn [bind].
  rewrite list_insert_insert_eq. unfold vget at 1.
  rewrite list_lookup_insert_eq by done. cbn [bind].
  unfold corrected. rewrite HNj. change (default [] (Some Nj)) with Nj.
  fold (column_sum s Nj).
  destruct (gh <? column_sum s Nj).
  - unfold flip, vget. rewrite Ho. cbn [bind].
    rewrite vset_lt by (by eapply lookup_lt_Some). done.
  - by rewrite (list_insert_id out j o).
Qed.

Lemma one_step_correct_loop (H : CtrlMat) (gh : Z) (s e out : list Z) (m : nat) :
  (m <= length e)%nat -> (m <= length out)%nat ->
  (m <= length (CtrlMat.N H))%nat ->
  Forall (Forall (fun i => (i < length s)%nat)) (CtrlMat.N H) ->
  exists e' out',
    for_range m (one_step_correct H gh s) (e, out) = Ok (e', out')
    /\ length e' = length e /\ length out' = length out
    /\ forall j, out' !! j
         = if decide (j < m)%nat then corrected H gh s j <$> out !! j
           else out !! j.
Proof.
  intros He Ho HN Hcols. induction m as [|m IH].
  - exists e, out. split; [done|]. split; [done|]. split; [done|].
    intros j. by rewrite decide_False by lia.
  - destruct IH as (e1 & out1 & Hrun & Hlen1 & Hlen2 & Hout); [lia..|].
    destruct (lookup_lt_is_Some_2 (CtrlMat.N H) m ltac:(lia)) as [Nj HNj].
    destruct (lookup_lt_is_Some_2 out m ltac:(lia)) as [o Hom].
    assert (Ho1 : out1 !! m = Some o) by (by rewrite Hout, decide_False by lia).
    rewrite for_range_S, Hrun. cbn [bind].
    rewrite (one_step_correct_eq H gh s e1 out1 m Nj o); [|lia|done| |done].
    2: { eapply Forall_lookup_1 in Hcols; eauto. }
    eexists _, _. split; [done|]. rewrite !length_insert.
    split; [done|]. split; [done|]. intros j.
    destruct (decide (j = m)) as [->|Hne].
    + rewrite list_lookup_insert_eq by lia.
      rewrite decide_True by lia. by rewrite Hom.
    + rewrite list_lookup_insert_ne by done. rewrite Hout.
      destruct (decide (j < m)%nat); [by rewrite decide_True by lia|].
      by rewrite decide_False by lia.
Qed.

Lemma column_sum_from_zero (s : list Z) (col : list nat) (a : Z) :
  Forall (fun x => x = 0) s -> column_sum_from s col a = a.
Proof.
  intros Hs. revert a. unfold column_sum_from.
  induction col as [|i col IH]; intros a; cbn [fold_left]; [done|].
  rewrite IH. destruct (s !! i) as [x|] eqn:Hx; simpl; [|lia].
  eapply Forall_lookup_1 in Hs; eauto. simpl in Hs. lia.
Qed.

Lemma gamma_half_nonneg (H : CtrlMat) : 0 <= gamma_half H.
Proof. unfold gamma_half. apply Z.div_pos; lia. Qed.

Lemma one_step_never_false (H : CtrlMat) (inp : list double) (out out' : list Z) :
  OneStepMLG_decode H inp out <> Ok (false, out').
Proof.
  unfold OneStepMLG_decode. intros Hrun.
  apply bind_Ok in Hrun as (col0 & _ & Hrun).
  apply bind_Ok in Hrun as (o & _ & Hrun).
  apply bind_Ok in Hrun as ([s cw] & _ & Hrun).
  destruct cw; [done|].
  apply bind_Ok in Hrun as ([e o'] & _ & Hrun). done.
Qed.

Lemma one_step_decode_eq (H : CtrlMat) (inp : list double) (out : list Z) :
  well_formed H -> CtrlMat.k H = CtrlMat.n H -> (0 < CtrlMat.n H)%nat ->
  length inp = CtrlMat.n H -> length out = CtrlMat.n H ->
  OneStepMLG_decode H inp out = Ok (true, one_step_rule H inp).
Proof.
  intros [Hk Hn HK HN] Hsq Hpos Hi Ho. unfold OneStepMLG_decode.
  destruct (vget_lt (CtrlMat.N H) 0%nat ltac:(lia)) as (col0 & -> & Hcol0).
  cbn [bind]. rewrite hard_loop_full by done. cbn [bind].
  set (hd := map hard inp).
  assert (Hb : bits (CtrlMat.n H) hd) by (rewrite <- Hi; apply bits_map_hard).
  assert (Hlen : length hd = CtrlMat.n H) by (unfold hd; by rewrite length_map).
  destruct (mlg_syndrome_total H hd (replicate (CtrlMat.n H) 0) true (CtrlMat.n H))
    as ([s cw] & Hsyn); [by rewrite length_replicate|lia| |].
  { by rewrite Hlen. }
  rewrite Hsyn. cbn [bind].
  apply mlg_syndrome_loop in Hsyn as (Hslen & Hrows & _ & Hcw).
  cbn [fst snd] in *. rewrite length_replicate in Hslen.
  assert (Hs : s = map (parity hd) (CtrlMat.K H)).
  { apply list_eq. intros i. rewrite list_lookup_fmap.
    destruct (decide (i < CtrlMat.n H)%nat) as [Hlt|Hge].
    - destruct (Hrows i Hlt) as (Ki & -> & _ & ->). done.
    - rewrite !lookup_ge_None_2 by lia. done. }
  assert (Hgh : Z.of_nat (length col0) / 2 = gamma_half H).
  { unfold gamma_half. by rewrite Hcol0. }
  rewrite Hgh.
  assert (Hspec : forall out',
    length out' = CtrlMat.n H ->
    (forall j, out' !! j = corrected H (gamma_half H) s j <$> hd !! j) ->
    out' = one_step_rule H inp).
  { intros out' Hl Hpt. apply list_eq. intros j. rewrite Hpt.
    unfold one_step_rule. fold hd. rewrite <- Hs.
    by rewrite list_lookup_imap. }
  destruct cw.
  - f_equal. f_equal. apply Hspec; [done|]. intros j.
    destruct (hd !! j) as [o|] eqn:Hj; [|done]. cbn [fmap option_fmap option_map].
    unfold corrected. unfold column_sum.
    rewrite column_sum_from_zero.
    + pose proof (gamma_half_nonneg H).
      by rewrite (proj2 (Z.ltb_ge _ _)) by lia.
    + apply Forall_lookup_2. intros i x Hx.
      assert (Hlt : (i < CtrlMat.n H)%nat)
        by (apply lookup_lt_Some in Hx; lia).
      destruct (Hrows i Hlt) as (Ki & HKi & _ & Hp). simplify_eq.
      destruct (proj1 Hcw eq_refl) as [_ Hne].
      destruct (parity_bit (CtrlMat.n H) hd Ki Hb); [|done|].
      * eapply Forall_lookup_1 in HK; eauto.
      * by destruct (Hne i Ki).
  - destruct (one_step_correct_loop H (gamma_half H) s
                (replicate (CtrlMat.n H) 0) hd (CtrlMat.n H))
      as (e' & out' & -> & _ & Hl & Hpt);
      [by rewrite length_replicate|lia|lia| |].
    { rewrite Hslen, <- Hsq. done. }
    cbn [bind]. f_equal. f_equal. apply Hspec; [lia|].
    intros j. rewrite Hpt. destruct (decide (j < CtrlMat.n H)%nat); [done|].
    by rewrite lookup_ge_None_2 by lia.
Qed.

(** C5, as amended: [OneStepMLG] never returns [false]; on a well-formed
    matrix with as many rows as columns it returns [true] together with the
    hard decision corrected once, where [out[j]] is flipped iff the sum of the
    syndrome bits over [N[j]] exceeds [gamma / 2], [gamma] being the weight of
    column 0. *)
Theorem one_step_always_true (H : CtrlMat) (inp : list double) (out : list Z) :
  (forall out', OneStepMLG_decode H inp out <> Ok (false, out'))
  /\ (well_formed H -> CtrlMat.k H = CtrlMat.n H -> (0 < CtrlMat.n H)%nat ->
      length inp = CtrlMat.n H -> length out = CtrlMat.n H ->
      OneStepMLG_decode H inp out = Ok (true, one_step_rule H inp)).
Proof.
  split.
  - intros out'. apply one_step_never_false.
  - apply one_step_decode_eq.
Qed.

Lemma one_step_always_true_witness :
  OneStepMLG_decode H_triangle [sample 1 1; sample (-9) 10; sample 1 1] [0; 0; 0]
  = Ok (true, [0; 0; 0]).
Proof.
  exact (proj2 (one_step_always_true H_triangle
                  [sample 1 1; sample (-9) 10; sample 1 1] [0; 0; 0])
           H_triangle_well_formed eq_refl ltac:(cbn; lia) eq_refl eq_refl).
Defined.

(** ** The adaptive weights *)

(** C2 fails on the code: for the received word (1, -0.9, 1) on the triangle
    matrix the weight table holds the saturation floor -3 in every cell, where
    the minimum over the other column of the row is 3, and the metric of the
    first iteration is (0, 6, 0) where the minima give (0, -6, 0); the decoder
    then fails although one flip of bit 1 yields the zero codeword. *)
Theorem adaptive_weights_store_floor :
  let inp := [sample 1 1; sample (-9) 10; sample 1 1] in
  exists gamma st st',
    mlg_init (R := double) H_triangle inp true true [0; 0; 0] = Ok (gamma, st)
    /\ mlg_w st = replicate 9 (-3)
    /\ this (spec_adaptive_weight H_triangle (mlg_r st) 0 1) = 3 # 1
    /\ mlg_iteration H_triangle (sample 1 2) true true gamma st = Ok (false, st')
    /\ mlg_e st' = [0; 6; 0]
    /\ map (fun j => this (spec_adaptive_metric H_triangle (mlg_r st) (mlg_s st')
                             (mlg_out st) j)) [0; 1; 2]%nat
       = [0 # 1; -6 # 1; 0 # 1]
    /\ AdaptiveSoftMLG_decode H_triangle 5 (sample 1 2) inp [0; 0; 0]
       = Ok (false, [0; 1; 0]).
Proof.
  intros inp. eexists _, _, _.
  split; [by vm_compute|]. split; [by vm_compute|]. split; [by vm_compute|].
  split; [by vm_compute|]. split; [by vm_compute|]. split; by vm_compute.
Qed.

(** ** The rows the syndrome loops visit *)

(** C4 fails on the code: the syndrome loops of [OneStepMLG] and of the
    iterative MLG decoders run over [n] rows.  With two rows and three columns
    they read [K[2]]; with four rows and two columns they test rows 0 and 1
    only and report a codeword although row 2 is violated.  The bit-flipping
    and min-sum decoders run over the [k] rows: on the same inputs BF and
    MinSum return without reading past [K], and BF sees rows 2 and 3 fail and
    corrects bit 1. *)
Theorem mlg_syndrome_runs_over_n_rows :
  let ones := [sample 1 1; sample 1 1; sample 1 1] in
  let inp := [sample 1 1; sample (-1) 1] in
  OneStepMLG_decode H_2x3 ones [0; 0; 0] = Err OutOfRange
  /\ HardMLG_decode H_2x3 5 ones [0; 0; 0] = Err OutOfRange
  /\ SoftMLG_decode H_2x3 5 ones [0; 0; 0] = Err OutOfRange
  /\ BF_decode H_2x3 5 ones [0; 0; 0] = Ok (true, [0; 0; 0])
  /\ MinSum_decode H_2x3 5 ones [0; 0; 0] = Ok (true, [0; 0; 0])
  /\ HardMLG_decode H_4x2 5 inp [0; 0] = Ok (true, [0; 1])
  /\ CtrlMat.K H_4x2 !! 2%nat = Some [1%nat]
  /\ parity [0; 1] [1%nat] = 1
  /\ BF_decode H_4x2 5 inp [0; 0] = Ok (true, [0; 0]).
Proof. by vm_compute. Qed.

(** ** Rejection of the normalized offset combination *)

Lemma range_Ok {A : Type} (a : A) : only_range_errors (Ok a).
Proof. intros e [=]. Qed.

Lemma range_vget {A : Type} (v : list A) (i : nat) : only_range_errors (vget v i).
Proof. unfold vget. intros e. destruct (v !! i); intros [=]. done. Qed.

Lemma range_vset {A : Type} (v : list A) (i : nat) (a : A) :
  only_range_errors (vset v i a).
Proof. unfold vset. intros e. case_decide; intros [=]. done. Qed.

Lemma range_bind {A B : Type} (m : result A) (f : A -> result B) :
  only_range_errors m -> (forall a, only_range_errors (f a)) ->
  only_range_errors (bind m f).
Proof.
  intros Hm Hf e. destruct m as [a|e']; cbn [bind].
  - apply Hf.
  - intros [= <-]. by apply Hm.
Qed.

Lemma range_foldM {S A : Type} (body : S -> A -> result S) (l : list A) (s : S) :
  (forall t x, only_range_errors (body t x)) ->
  only_range_errors (foldM body l s).
Proof.
  intros Hbody. revert s. induction l as [|x l IH]; intros s; cbn [foldM].
  - apply range_Ok.
  - intros e. pose proof (Hbody s x) as Hx.
    destruct (body s x) as [t|e']; [apply IH|].
    intros [= <-]. by apply Hx.
Qed.

(** Discharges [only_range_errors] for code built from the loops and vector
    accesses. *)
Ltac range_errors :=
  repeat first
    [ apply range_Ok | apply range_vget | apply range_vset
    | apply range_bind; [|intros]
    | apply range_foldM; intros
    | match goal with
      | |- only_range_errors (match ?x with _ => _ end) => destruct x
      | |- only_range_errors (for_range _ _ _) => unfold for_range
      end ].

Lemma range_hard_decide (out : list Z) (H : CtrlMat) :
  only_range_errors (hard_decide out H).
Proof.
  unfold hard_decide. generalize (seq 0 (CtrlMat.k H)) as rows.
  induction rows as [|i rows IH]; cbn [hard_decide_rows]; [apply range_Ok|].
  unfold hard_decide_step. range_errors. apply IH.
Qed.

Lemma range_ms_iteration (H : CtrlMat) (alpha : double) (inp : list double)
    (normalized offset : bool) (iter : nat) (st : ms_state) :
  only_range_errors (ms_iteration H alpha inp normalized offset iter st).
Proof.
  unfold ms_iteration, ms_summary_row, ms_summary_step, ms_update_row,
    ms_update_step, ms_variable, ms_extrinsic_step, ms_posterior_step.
  range_errors. apply range_hard_decide.
Qed.

Lemma range_ms_loop (H : CtrlMat) (alpha : double) (inp : list double)
    (normalized offset : bool) (rem iter : nat) (st : ms_state) :
  only_range_errors (ms_loop H alpha inp normalized offset rem iter st).
Proof.
  revert iter st. induction rem as [|rem IH]; intros iter st; cbn [ms_loop].
  - apply range_Ok.
  - apply range_bind; [apply range_ms_iteration|].
    intros [[] st']; [apply range_Ok|apply IH].
Qed.

Lemma range_min_sum_decode (H : CtrlMat) (max_iter : Z) (alpha : double)
    (inp : list double) (out : list Z) (normalized offset : bool) :
  normalized && offset = false ->
  only_range_errors (min_sum_decode H max_iter alpha inp out normalized offset).
Proof.
  intros Hflags. unfold min_sum_decode. rewrite Hflags.
  apply range_bind; [unfold hard_bit; range_errors|]. intros o.
  apply range_bind; [apply range_hard_decide|].
  intros []; [apply range_Ok|apply range_ms_loop].
Qed.

(** The guard of the code: the combination of [normalized] and [offset] is
    refused by [min_sum_decode] as its first statement, whatever its other
    arguments are; the three min-sum decoders never pass the combination, so
    none of them raises [InvalidArgument]. *)
Lemma min_sum_decode_guard (H : CtrlMat) (max_iter : Z)
    (alpha : double) (inp : list double) (out : list Z) :
  min_sum_decode H max_iter alpha inp out true true = Err InvalidArgument
  /\ MinSum_decode H max_iter inp out <> Err InvalidArgument
  /\ NormalizedMinSum_decode H max_iter alpha inp out <> Err InvalidArgument
  /\ OffsetMinSum_decode H max_iter alpha inp out <> Err InvalidArgument.
Proof.
  split; [done|].
  repeat split; intros Herr; by apply range_min_sum_decode in Herr.
Qed.

(** ** Configuration of a min-sum decoder *)



(** ** The threshold of the one-step decoder *)

(** C5 fails on the code as the specification defines [gamma]: the code
    compares with half the weight of column 0, not with half the row weight.
    On [H_star] (row weight 2, weight of column 0 equal to 4) and the received
    word (1, -1, 1, 1) the syndrome is (1, 1, 0, 0) and [e] is (2, 2, 0, 0):
    the code flips nothing, since 2 does not exceed 4 / 2, and returns
    (0, 1, 0, 0); the rule with the row weight flips bits 0 and 1.  On a
    matrix with fewer rows than columns, such as [H_2x3], no call returns
    [true]: the syndrome loop runs over [n] rows and leaves [K]. *)
Lemma one_step_threshold_is_column_weight :
  let inp := [sample 1 1; sample (-1) 1; sample 1 1; sample 1 1] in
  well_formed H_star
  /\ row_gamma_half H_star = 1 /\ gamma_half H_star = 2
  /\ OneStepMLG_decode H_star inp [0; 0; 0; 0] = Ok (true, [0; 1; 0; 0])
  /\ one_step_claimed H_star inp = [1; 0; 0; 0]
  /\ OneStepMLG_decode H_star inp [0; 0; 0; 0]
     <> Ok (true, one_step_claimed H_star inp)
  /\ OneStepMLG_decode H_2x3 [sample 1 1; sample 1 1; sample 1 1] [0; 0; 0]
     = Err OutOfRange.
Proof.
  intros inp. split.
  { split; [done|done|repeat constructor|repeat constructor]. }
  split; [done|]. split; [done|].
  split; [by vm_compute|]. split; [by vm_compute|].
  split; by vm_compute.
Qed.

(** ** The penalty of MWBF with [alpha = 0] *)

Lemma zero_penalty (x : double) : (- of_Z 0 * dabs x)%Qc = of_Z 0.
Proof. change (of_Z 0) with 0%Qc. ring. Qed.

(** ** Order on the model of [double] *)

Lemma dlt_spec (x y : double) : dlt x y = true <-> (x < y)%Qc.
Proof.
  unfold dlt. rewrite Qclt_alt. destruct (x ?= y)%Qc; split; congruence.
Qed.

Lemma dlt_false (x y : double) : dlt x y = false <-> (y <= x)%Qc.
Proof.
  rewrite <- not_true_iff_false, dlt_spec. split.
  - apply Qcnot_lt_le.
  - apply Qcle_not_lt.
Qed.

(** ** The largest element *)

Section max_element.
Context {T : Type} {arith_T : Arith T}.
Variable le : T -> T -> Prop.
Hypothesis le_refl : forall x, le x x.
Hypothesis le_trans : forall x y z, le x y -> le y z -> le x z.
Hypothesis ltb_false_le : forall x y, ltb x y = false -> le y x.
Hypothesis ltb_true_le : forall x y, ltb x y = true -> le x y.

Lemma fold_max_spec (l : list T) (a : T) :
  let m := fold_left (fun m y => if ltb m y then y else m) l a in
  m ∈ a :: l /\ Forall (fun x => le x m) (a :: l).
Proof.
  revert a. induction l as [|y l IH]; intros a; cbn [fold_left].
  - split; [by left|]. by repeat constructor.
  - cbn zeta in IH. destruct (ltb a y) eqn:Hay.
    + destruct (IH y) as [Hin Hall]. split; [by right|].
      pose proof (Forall_inv Hall) as Hy.
      constructor; [|done]. eapply le_trans; [|exact Hy]. auto.
    + destruct (IH a) as [Hin Hall]. split.
      * apply elem_of_cons in Hin as [-> | Hin]; [by left|by do 2 right].
      * pose proof (Forall_inv Hall) as Ha. apply Forall_inv_tail in Hall.
        constructor; [done|]. constructor; [|done].
        eapply le_trans; [|exact Ha]. auto.
Qed.

(** [max_element] returns an element of the vector that no element
    exceeds. *)
Lemma max_element_spec (e : list T) (m : T) :
  max_element e = Ok m -> m ∈ e /\ Forall (fun x => le x m) e.
Proof.
  destruct e as [|a l]; [done|]. intros [= <-]. apply fold_max_spec.
Qed.
End max_element.

Lemma max_element_int (e : list Z) (m : Z) :
  max_element e = Ok m -> m ∈ e /\ Forall (fun x => x <= m) e.
Proof.
  apply (max_element_spec Z.le); cbn [ltb int_arith]; intros; lia.
Qed.

(** ** The flip set *)

Section flip_set.
Context {E : Type} {arith_E : Arith E}.
Variables (H : CtrlMat) (alpha : double) (inp : list double).
Variables (weighted modified improved : bool).

Lemma bf_select_loop (e : list E) (T_max : E) (m : nat) (fl : list nat) :
  for_range m (bf_select weighted e T_max) [] = Ok fl ->
  selected weighted e T_max m fl.
Proof.
  apply (for_range_invariant (selected weighted e T_max)).
  - intros j t t' Hj (Hnd & Hlen & Hin) Hstep. unfold bf_select in Hstep.
    apply bind_Ok in Hstep as (ej & Hej%vget_Ok & Hstep).
    apply lookup_lt_Some in Hej as Hlt.
    assert (Hfresh : j ∉ t) by (intros [Hc _]%Hin; lia).
    destruct (bf_flips weighted ej T_max) eqn:Hfl; injection Hstep as <-.
    + split; [|split; [lia|]].
      * apply list.NoDup_app. split; [done|]. split; [|apply NoDup_singleton].
        intros x Hx ->%list_elem_of_singleton. done.
      * intros x. rewrite elem_of_app, list_elem_of_singleton, Hin. split.
        -- intros [[Hx Hex] | ->]; [split; [lia|done]|]. split; [lia|eauto].
        -- intros [Hx Hex]. destruct (decide (x = j)); [by right|].
           left. split; [lia|done].
    + split; [done|]. split; [lia|].
      intros x. rewrite Hin. split.
      * intros [Hx Hex]. split; [lia|done].
      * intros [Hx (ex & Hex & Hfx)]. split; [|eauto].
        destruct (decide (x = j)) as [->|]; [|lia]. congruence.
  - split; [constructor|]. split; [lia|].
    intros j. split; [by intros ?%elem_of_nil|]. intros [? _]. lia.
Qed.

(** Flipping the positions of a duplicate-free list flips each of them
    once. *)
Lemma flips_lookup (fl : list nat) (out out' : list Z) :
  NoDup fl -> foldM flip fl out = Ok out' ->
  Forall (fun j => (j < length out)%nat) fl
  /\ forall j, out' !! j
       = if decide (j ∈ fl) then (fun o => Z.lxor o 1) <$> out !! j
         else out !! j.
Proof.
  intros Hnd. revert out. induction Hnd as [|i fl Hi Hnd IH]; intros out Hrun.
  - injection Hrun as <-. split; [done|]. intros j.
    rewrite decide_False; [done|]. apply not_elem_of_nil.
  - cbn [foldM] in Hrun.
    destruct (flip out i) as [out1|] eqn:Hflip; [|done].
    unfold flip in Hflip.
    apply bind_Ok in Hflip as (o & Ho%vget_Ok & (Hlt & ->)%vset_Ok).
    destruct (IH _ Hrun) as [Hall Hpt]. rewrite length_insert in Hall.
    split; [by constructor|]. intros j. rewrite Hpt.
    destruct (decide (j = i)) as [->|Hne].
    + rewrite decide_False by done. rewrite decide_True by (by left).
      rewrite list_lookup_insert_eq by done. by rewrite Ho.
    + rewrite list_lookup_insert_ne by done.
      destruct (decide (j ∈ fl)).
      * by rewrite decide_True by (by right).
      * rewrite decide_False; [done|].
        intros [?|?]%elem_of_cons; done.
Qed.

(** An iteration that does not return flips exactly the positions that
    pass the test against the largest metric. *)
Lemma bf_iteration_flips (iter : nat) (st st' : bf_state E) :
  bf_iteration H alpha inp weighted modified improved iter st = Ok (false, st') ->
  exists T_max,
    max_element (bf_e st') = Ok T_max
    /\ length (bf_e st') = length (bf_e st)
    /\ (forall j, (j < CtrlMat.n H)%nat -> exists ej,
          bf_e st' !! j = Some ej
          /\ bf_out st' !! j
             = (fun o => if bf_flips weighted ej T_max then Z.lxor o 1 else o)
               <$> bf_out st !! j)
    /\ (forall j, (CtrlMat.n H <= j)%nat -> bf_out st' !! j = bf_out st !! j).
Proof.
  unfold bf_iteration. intros Hrun.
  apply bind_Ok in Hrun as ([[s w] cw] & _ & Hrun).
  destruct cw; [done|].
  apply bind_Ok in Hrun as ([w1 e1] & Hmetric & Hrun).
  apply bind_Ok in Hrun as (T_max & HT & Hrun).
  apply bind_Ok in Hrun as (fl & Hsel & Hrun).
  apply bind_Ok in Hrun as (o & Hfl & Hrun).
  injection Hrun as <-. cbn [bf_e bf_out].
  apply bf_select_loop in Hsel as (Hnd & Hlen & Hin).
  apply flips_lookup in Hfl as [Hrange Hpt]; [|done].
  exists T_max. split; [done|]. split.
  - revert Hmetric.
    apply (for_range_invariant (fun _ (we : list double * list E) =>
      length we.2 = length (bf_e st))); [|done].
    intros j [u t] [u' t'] _ IH Hstep. cbn [snd] in *.
    unfold bf_metric in Hstep.
    apply bind_Ok in Hstep as (t0 & Ht0 & Hstep).
    apply bind_Ok in Hstep as (Nj & _ & Hstep).
    assert (Hl0 : length t0 = length (bf_e st)).
    { destruct modified.
      - apply bind_Ok in Ht0 as (x & _ & (_ & ->)%vset_Ok).
        by rewrite length_insert.
      - apply vset_Ok in Ht0 as (_ & ->). by rewrite length_insert. }
    revert Hstep.
    apply (foldM_invariant (fun (we : list double * list E) =>
      length we.2 = length (bf_e st))); [|done].
    intros i [u1 t1] [u2 t2] _ IH1 Hstep. cbn [snd] in *.
    unfold bf_metric_step in Hstep.
    apply bind_Ok in Hstep as (u3 & _ & Hstep).
    apply bind_Ok in Hstep as (ej & _ & Hstep).
    apply bind_Ok in Hstep as (si & _ & Hstep).
    destruct improved; [|destruct modified; [|destruct weighted]].
    1-3: apply bind_Ok in Hstep as (x & _ & Hstep).
    all: apply bind_Ok in Hstep as (t3 & (_ & ->)%vset_Ok & Hstep);
      injection Hstep as <- <-; by rewrite length_insert.
  - split.
    + intros j Hj.
      destruct (lookup_lt_is_Some_2 e1 j ltac:(lia)) as [ej Hej].
      exists ej. split; [done|]. rewrite Hpt.
      destruct (bf_flips weighted ej T_max) eqn:Hflag.
      * rewrite decide_True by (apply Hin; eauto). done.
      * rewrite decide_False.
        2: { intros (_ & ej' & Hej' & Hc)%Hin. congruence. }
        by destruct (bf_out st !! j).
    + intros j Hj. rewrite Hpt. rewrite decide_False; [done|].
      intros [Hc _]%Hin. lia.
Qed.
End flip_set.

(** ** Saturation of the reliability register *)

Lemma clamp_int (x lo hi : Z) :
  lo <= hi -> lo <= std_min (std_max x lo) hi <= hi.
Proof.
  intros Hle. unfold std_min, std_max. cbn [ltb int_arith].
  destruct (Z.ltb_spec x lo); destruct (Z.ltb_spec hi lo);
    destruct (Z.ltb_spec hi x); lia.
Qed.

Lemma clamp_double (x lo hi : double) :
  (lo <= hi)%Qc -> (lo <= std_min (std_max x lo) hi <= hi)%Qc.
Proof.
  intros Hle. unfold std_min, std_max. cbn [ltb double_arith].
  destruct (dlt x lo) eqn:Hx.
  - destruct (dlt hi lo) eqn:Hhi.
    + apply dlt_spec in Hhi. by apply Qcle_not_lt in Hle.
    + split; [apply Qcle_refl|done].
  - apply dlt_false in Hx. destruct (dlt hi x) eqn:Hhi.
    + split; [done|apply Qcle_refl].
    + apply dlt_false in Hhi. done.
Qed.

Lemma mlg_max_int (soft : bool) (gamma : Z) :
  mlg_max (R := Z) soft gamma = if soft then 3 else gamma.
Proof. by destruct soft. Qed.

Lemma mlg_min_int (soft : bool) (gamma : Z) :
  mlg_min (R := Z) soft gamma = - (if soft then 3 else gamma).
Proof. by destruct soft. Qed.

Lemma mlg_max_double (gamma : Z) : mlg_max (R := double) true gamma = of_Z 3.
Proof. reflexivity. Qed.

Lemma mlg_min_double (gamma : Z) :
  mlg_min (R := double) true gamma = (- of_Z 3)%Qc.
Proof. reflexivity. Qed.

Section reachable_saturated.
Context {R : Type} {arith_R : Arith R}.
Variables (H : CtrlMat) (alpha : double) (inp : list double).
Variables (soft adaptive : bool) (out : list Z).
Variable in_bounds : Z -> R -> Prop.
Hypothesis clamp_in_bounds : forall gamma (x : R), 0 <= gamma ->
  in_bounds gamma
    (std_min (std_max x (mlg_min soft gamma)) (mlg_max soft gamma)).
Hypothesis clamp_double_in_bounds : forall gamma, 0 <= gamma ->
  adaptive = true -> forall x : double,
  in_bounds gamma (of_double
    (std_min (std_max x (to_double (mlg_min soft gamma)))
             (to_double (mlg_max soft gamma)))).
Hypothesis max_in_bounds : forall gamma, 0 <= gamma ->
  in_bounds gamma (mlg_max soft gamma).
Hypothesis min_in_bounds : forall gamma, 0 <= gamma ->
  in_bounds gamma (mlg_min soft gamma).

Lemma mlg_reachable_saturated (gamma : Z) (st : mlg_state R) :
  mlg_reachable H alpha inp soft adaptive out gamma st ->
  0 <= gamma
  /\ length (mlg_r st) = CtrlMat.n H
  /\ Forall (in_bounds gamma) (mlg_r st).
Proof.
  induction 1 as [st Hinit | st st' _ (Hg & Hlen & Hall) Hstep].
  - apply mlg_init_Ok in Hinit
      as ((col0 & _ & ->) & _ & Hlen & r0 & out0 & Hloop).
    split; [lia|]. split; [done|].
    apply (saturated_Forall (in_bounds (Z.of_nat (length col0)))).
    rewrite Hlen.
    assert (Hg : 0 <= Z.of_nat (length col0)) by lia.
    by apply (mlg_init_loop_saturated inp soft adaptive _ (in_bounds _)
                (fun x => clamp_in_bounds _ x Hg)
                (clamp_double_in_bounds _ Hg)
                (max_in_bounds _ Hg) (min_in_bounds _ Hg)) in Hloop.
  - split; [done|]. unfold mlg_iteration in Hstep.
    apply bind_Ok in Hstep as ([s cw] & _ & Hstep).
    destruct cw; [done|].
    apply bind_Ok in Hstep as (e & _ & Hstep).
    apply bind_Ok in Hstep as ([r o] & Hupd & Hstep).
    injection Hstep as <-. cbn [mlg_r].
    apply (mlg_update_loop alpha soft adaptive gamma (in_bounds gamma)
             (fun x => clamp_in_bounds _ x Hg) (clamp_double_in_bounds _ Hg)
             0%nat) in Hupd as (Hlen' & Hsat & _); [|intros j Hj; lia].
    cbn [fst] in *. split; [lia|].
    apply (saturated_Forall (in_bounds gamma)). by rewrite Hlen', Hlen.
Qed.
End reachable_saturated.

(** The states the decoder goes through are reachable: when it gives up, the
    vector it returns is the [out] of a reachable state. *)
Lemma mlg_loop_reachable {R : Type} {arith_R : Arith R} (H : CtrlMat)
    (alpha : double) (inp : list double) (soft adaptive : bool)
    (out out' : list Z) (gamma : Z) (rem : nat) (st : mlg_state R) :
  mlg_reachable H alpha inp soft adaptive out gamma st ->
  mlg_loop H alpha soft adaptive gamma rem st = Ok (false, out') ->
  exists st', mlg_reachable H alpha inp soft adaptive out gamma st'
              /\ mlg_out st' = out'.
Proof.
  revert st. induction rem as [|rem IH]; intros st Hreach Hrun.
  - injection Hrun as <-. eauto.
  - cbn [mlg_loop] in Hrun.
    apply bind_Ok in Hrun as ([[] st1] & Hit & Hrun); [done|].
    apply (IH st1); [|done]. by apply (reach_update _ _ _ _ _ _ _ st).
Qed.

Lemma iterative_mlg_decode_reachable (R : Type) {arith_R : Arith R}
    (H : CtrlMat) (max_iter : Z) (alpha : double) (inp : list double)
    (out out' : list Z) (soft adaptive : bool) :
  iterative_mlg_decode R H max_iter alpha inp out soft adaptive = Ok (false, out') ->
  exists gamma st, mlg_reachable H alpha inp soft adaptive out gamma st
                   /\ mlg_out st = out'.
Proof.
  unfold iterative_mlg_decode. intros Hrun.
  apply bind_Ok in Hrun as ([gamma st] & Hinit & Hrun).
  exists gamma. eapply mlg_loop_reachable; [|done]. by apply reach_init.
Qed.

(** ** The two smallest magnitudes of a row *)






(** ** Writing the cells of a sparse matrix *)






(** ** Min-sum: the summary pass and the update of R *)

Section ms_passes.
Variables (H : CtrlMat) (alpha : double) (inp : list double).
Variables (normalized offset : bool).








End ms_passes.



(** ** Loops that cannot fail *)

(** A loop whose body succeeds on every state that satisfies the invariant
    succeeds, and ends in such a state. *)
Lemma foldM_total {S A : Type} (P : S -> Prop) (body : S -> A -> result S)
    (l : list A) (s : S) :
  (forall x t, x ∈ l -> P t -> exists t', body t x = Ok t' /\ P t') ->
  P s -> exists s', foldM body l s = Ok s' /\ P s'.
Proof.
  revert s. induction l as [|x l IH]; intros s Hbody Hs; cbn [foldM].
  - eauto.
  - destruct (Hbody x s) as (t & -> & Ht); [by left|done|].
    apply IH; [|done]. intros y u Hy. apply Hbody. by right.
Qed.

Lemma for_range_total {S : Type} (P : nat -> S -> Prop)
    (body : S -> nat -> result S) (n : nat) (s : S) :
  (forall i t, (i < n)%nat -> P i t ->
     exists t', body t i = Ok t' /\ P (Datatypes.S i) t') ->
  P 0%nat s -> exists s', for_range n body s = Ok s' /\ P n s'.
Proof.
  intros Hbody Hs. induction n as [|n IH]; [eauto|].
  destruct IH as (t & Hrun & Ht); [intros i u Hi; apply Hbody; lia|].
  rewrite for_range_S, Hrun. cbn [bind]. apply Hbody; [lia|done].
Qed.

(** ** The shape of the output vector *)

Lemma shaped_hard_loop (inp : list double) (out out' : list Z) (n : nat) :
  for_range n (hard_bit inp) out = Ok out' -> shaped n out out'.
Proof.
  intros Hrun. split; [|split; [by eapply bits_hard_loop|]].
  - rewrite hard_loop_eq in Hrun. case_decide as Hn; [|done].
    injection Hrun as <-.
    rewrite length_app, length_map, length_take, length_drop. lia.
  - rewrite hard_loop_eq in Hrun. case_decide as Hn; [|done].
    injection Hrun as <-. intros j Hj.
    assert (Hlen : length (map hard (take n inp)) = n)
      by (rewrite length_map, length_take; lia).
    rewrite lookup_app_r by lia. rewrite Hlen, lookup_drop. f_equal. lia.
Qed.

Lemma shaped_insert (n : nat) (out t : list Z) (j : nat) (b : Z) :
  shaped n out t -> (j < n)%nat -> b = 0 \/ b = 1 -> shaped n out (<[j := b]> t).
Proof.
  intros (Hlen & Hb & Hfr) Hj Hbit. split; [by rewrite length_insert|].
  split; [by apply bits_insert|].
  intros i Hi. rewrite list_lookup_insert_ne by lia. by apply Hfr.
Qed.

Lemma shaped_flip (n : nat) (out t t' : list Z) (j : nat) :
  shaped n out t -> (j < n)%nat -> flip t j = Ok t' -> shaped n out t'.
Proof.
  intros Hs Hj Hflip. pose proof Hs as (_ & Hb & _).
  unfold flip in Hflip.
  apply bind_Ok in Hflip as (o & Ho%vget_Ok & (_ & ->)%vset_Ok).
  apply shaped_insert; [done|done|]. apply lxor_bit; [|auto].
  destruct (Hb j Hj); simplify_eq; auto.
Qed.

Lemma shaped_flips (n : nat) (out t t' : list Z) (fl : list nat) :
  shaped n out t -> Forall (fun j => (j < n)%nat) fl ->
  foldM flip fl t = Ok t' -> shaped n out t'.
Proof.
  intros Hs Hfl. rewrite list.Forall_forall in Hfl.
  apply (foldM_invariant (shaped n out)); [|done].
  intros j u u' Hj Hu. by apply shaped_flip; [|apply Hfl].
Qed.

Section bf_shape.
Context {E : Type} {arith_E : Arith E}.
Variables (H : CtrlMat) (alpha : double) (inp : list double).
Variables (weighted modified improved : bool).

Lemma bf_iteration_shaped (out : list Z) (iter : nat) (st st' : bf_state E)
    (b : bool) :
  bf_iteration H alpha inp weighted modified improved iter st = Ok (b, st') ->
  shaped (CtrlMat.n H) out (bf_out st) ->
  shaped (CtrlMat.n H) out (bf_out st').
Proof.
  unfold bf_iteration. intros Hrun Hs.
  apply bind_Ok in Hrun as ([[s w] cw] & _ & Hrun).
  destruct cw; [by injection Hrun as <- <-|].
  apply bind_Ok in Hrun as ([w1 e1] & _ & Hrun).
  apply bind_Ok in Hrun as (T & _ & Hrun).
  apply bind_Ok in Hrun as (fl & Hsel & Hrun).
  apply bind_Ok in Hrun as (o & Hfl & Hrun).
  injection Hrun as <- <-. cbn [bf_out].
  apply bf_select_loop in Hsel as (_ & _ & Hin).
  eapply shaped_flips; [exact Hs| |exact Hfl].
  apply list.Forall_forall. intros j Hj. by apply Hin in Hj as [? _].
Qed.

Lemma bf_loop_shaped (out : list Z) (rem iter : nat) (st : bf_state E)
    (b : bool) (out' : list Z) :
  bf_loop H alpha inp weighted modified improved rem iter st = Ok (b, out') ->
  shaped (CtrlMat.n H) out (bf_out st) ->
  shaped (CtrlMat.n H) out out'.
Proof.
  revert iter st. induction rem as [|rem IH]; intros iter st Hrun Hs.
  - by injection Hrun as <- <-.
  - cbn [bf_loop] in Hrun.
    apply bind_Ok in Hrun as ([r st1] & Hit & Hrun).
    pose proof (bf_iteration_shaped out _ _ _ _ Hit Hs) as Hs1.
    destruct r; [by injection Hrun as <- <-|]. by eapply IH.
Qed.
End bf_shape.

Lemma bf_decode_shaped (E : Type) {arith_E : Arith E} (H : CtrlMat)
    (max_iter : Z) (alpha : double) (inp : list double) (out out' : list Z)
    (weighted modified improved b : bool) :
  bf_decode E H max_iter alpha inp out weighted modified improved = Ok (b, out') ->
  shaped (CtrlMat.n H) out out'.
Proof.
  unfold bf_decode. intros Hrun.
  apply bind_Ok in Hrun as (st & Hinit & Hrun).
  apply bf_init_Ok in Hinit as (Hhard%shaped_hard_loop & _).
  by eapply bf_loop_shaped.
Qed.

Lemma one_step_decode_shaped (H : CtrlMat) (inp : list double)
    (out out' : list Z) (b : bool) :
  OneStepMLG_decode H inp out = Ok (b, out') -> shaped (CtrlMat.n H) out out'.
Proof.
  unfold OneStepMLG_decode. intros Hrun.
  apply bind_Ok in Hrun as (col0 & _ & Hrun).
  apply bind_Ok in Hrun as (o & Hhard%shaped_hard_loop & Hrun).
  apply bind_Ok in Hrun as ([s cw] & _ & Hrun).
  destruct cw; [by injection Hrun as <- <-|].
  apply bind_Ok in Hrun as ([e o'] & Hcorr & Hrun).
  injection Hrun as <- <-.
  revert Hcorr.
  apply (for_range_invariant (fun _ (eo : list Z * list Z) =>
    shaped (CtrlMat.n H) out eo.2)); [|done].
  intros j [e1 o1] [e2 o2] Hj Hs Hstep. cbn [snd] in *.
  unfold one_step_correct in Hstep.
  apply bind_Ok in Hstep as (e3 & _ & Hstep).
  apply bind_Ok in Hstep as (Nj & _ & Hstep).
  apply bind_Ok in Hstep as (e4 & _ & Hstep).
  apply bind_Ok in Hstep as (ej & _ & Hstep).
  destruct (_ <? ej).
  - apply bind_Ok in Hstep as (o3 & Hflip & Hstep).
    injection Hstep as <- <-. by eapply shaped_flip.
  - by injection Hstep as <- <-.
Qed.

Section mlg_shape.
Context {R : Type} {arith_R : Arith R}.
Variables (H : CtrlMat) (alpha : double) (inp : list double).
Variables (soft adaptive : bool).

Lemma mlg_update_shaped (out : list Z) (gamma : Z) (e : list Z) (m : nat)
    (r : list R) (o : list Z) (st : list R * list Z) :
  (m <= CtrlMat.n H)%nat ->
  for_range m (mlg_update alpha soft adaptive gamma e) (r, o) = Ok st ->
  shaped (CtrlMat.n H) out o -> shaped (CtrlMat.n H) out st.2.
Proof.
  intros Hm Hrun Hs. revert Hrun.
  apply (for_range_invariant (fun _ (st : list R * list Z) =>
    shaped (CtrlMat.n H) out st.2)); [|done].
  intros j [r1 o1] [r2 o2] Hj Hs1 Hstep. cbn [snd] in *.
  unfold mlg_update in Hstep.
  apply bind_Ok in Hstep as (rj & _ & Hstep).
  apply bind_Ok in Hstep as (ej & _ & Hstep).
  apply bind_Ok in Hstep as (r3 & _ & Hstep).
  apply bind_Ok in Hstep as (rj' & _ & Hstep).
  apply bind_Ok in Hstep as (o3 & (_ & ->)%vset_Ok & Hstep).
  injection Hstep as <- <-. apply shaped_insert; [done|lia|].
  destruct (ltb rj' (of_int 0)); auto.
Qed.

Lemma mlg_iteration_shaped (out : list Z) (gamma : Z) (st st' : mlg_state R)
    (b : bool) :
  mlg_iteration H alpha soft adaptive gamma st = Ok (b, st') ->
  shaped (CtrlMat.n H) out (mlg_out st) ->
  shaped (CtrlMat.n H) out (mlg_out st').
Proof.
  unfold mlg_iteration. intros Hrun Hs.
  apply bind_Ok in Hrun as ([s cw] & _ & Hrun).
  destruct cw; [by injection Hrun as <- <-|].
  apply bind_Ok in Hrun as (e & _ & Hrun).
  apply bind_Ok in Hrun as ([r o] & Hupd & Hrun).
  injection Hrun as <- <-. cbn [mlg_out].
  by apply (mlg_update_shaped out _ _ _ _ _ _ (le_n _) Hupd).
Qed.

Lemma mlg_loop_shaped (out : list Z) (gamma : Z) (rem : nat)
    (st : mlg_state R) (b : bool) (out' : list Z) :
  mlg_loop H alpha soft adaptive gamma rem st = Ok (b, out') ->
  shaped (CtrlMat.n H) out (mlg_out st) ->
  shaped (CtrlMat.n H) out out'.
Proof.
  revert st. induction rem as [|rem IH]; intros st Hrun Hs.
  - by injection Hrun as <- <-.
  - cbn [mlg_loop] in Hrun.
    apply bind_Ok in Hrun as ([r st1] & Hit & Hrun).
    pose proof (mlg_iteration_shaped out _ _ _ _ Hit Hs) as Hs1.
    destruct r; [by injection Hrun as <- <-|]. by eapply IH.
Qed.
End mlg_shape.

Lemma iterative_mlg_decode_shaped (R : Type) {arith_R : Arith R} (H : CtrlMat)
    (max_iter : Z) (alpha : double) (inp : list double) (out out' : list Z)
    (soft adaptive b : bool) :
  iterative_mlg_decode R H max_iter alpha inp out soft adaptive = Ok (b, out') ->
  shaped (CtrlMat.n H) out out'.
Proof.
  unfold iterative_mlg_decode. intros Hrun.
  apply bind_Ok in Hrun as ([gamma st] & Hinit & Hrun).
  apply mlg_init_Ok in Hinit as (_ & Hhard%shaped_hard_loop & _).
  by eapply mlg_loop_shaped.
Qed.

Section ms_shape.
Variables (H : CtrlMat) (alpha : double) (inp : list double).
Variables (normalized offset : bool).

Lemma ms_iteration_shaped (out : list Z) (iter : nat) (st st' : ms_state)
    (b : bool) :
  ms_iteration H alpha inp normalized offset iter st = Ok (b, st') ->
  shaped (CtrlMat.n H) out (ms_out st) ->
  shaped (CtrlMat.n H) out (ms_out st').
Proof.
  unfold ms_iteration. intros Hrun Hs.
  apply bind_Ok in Hrun as ([[[Q m1] m2] sg] & _ & Hrun).
  apply bind_Ok in Hrun as (R & _ & Hrun).
  apply bind_Ok in Hrun as ([Q' o] & Hvar & Hrun).
  apply bind_Ok in Hrun as (cw & _ & Hrun).
  injection Hrun as <- <-. cbn [ms_out]. revert Hvar.
  apply (for_range_invariant (fun _ (st : list double * list Z) =>
    shaped (CtrlMat.n H) out st.2)); [|done].
  intros j [t o1] [t' o2] Hj Hs1 Hstep. cbn [snd] in *.
  apply ms_variable_Ok in Hstep as (_ & c & -> & Hbit).
  by apply shaped_insert.
Qed.

Lemma ms_loop_shaped (out : list Z) (rem iter : nat) (st : ms_state)
    (b : bool) (out' : list Z) :
  ms_loop H alpha inp normalized offset rem iter st = Ok (b, out') ->
  shaped (CtrlMat.n H) out (ms_out st) ->
  shaped (CtrlMat.n H) out out'.
Proof.
  revert iter st. induction rem as [|rem IH]; intros iter st Hrun Hs.
  - by injection Hrun as <- <-.
  - cbn [ms_loop] in Hrun.
    apply bind_Ok in Hrun as ([r st1] & Hit & Hrun).
    pose proof (ms_iteration_shaped out _ _ _ _ Hit Hs) as Hs1.
    destruct r; [by injection Hrun as <- <-|]. by eapply IH.
Qed.
End ms_shape.

Lemma min_sum_decode_shaped (H : CtrlMat) (max_iter : Z) (alpha : double)
    (inp : list double) (out out' : list Z) (normalized offset b : bool) :
  min_sum_decode H max_iter alpha inp out normalized offset = Ok (b, out') ->
  shaped (CtrlMat.n H) out out'.
Proof.
  unfold min_sum_decode. intros Hrun.
  destruct (normalized && offset); [done|].
  apply bind_Ok in Hrun as (o & Hhard%shaped_hard_loop & Hrun).
  apply bind_Ok in Hrun as (cw & _ & Hrun).
  destruct cw; [by injection Hrun as <- <-|].
  by eapply ms_loop_shaped.
Qed.

(** X1: whatever a decoder returns, the vector has the length of the [out]
    it was given, its first [n] entries are 0 or 1, and the entries from [n]
    on are those of the given [out]. *)
Theorem decode_output_shape (d : decoder) (H : CtrlMat) (max_iter : Z)
    (alpha : double) (inp : list double) (out out' : list Z) (b : bool) :
  decode d H max_iter alpha inp out = Ok (b, out') ->
  length out' = length out
  /\ (forall j, (j < CtrlMat.n H)%nat -> out' !! j = Some 0 \/ out' !! j = Some 1)
  /\ (forall j, (CtrlMat.n H <= j)%nat -> out' !! j = out !! j).
Proof.
  intros Hrun. change (shaped (CtrlMat.n H) out out').
  destruct d; cbn [decode] in Hrun;
    unfold BF_decode, WBF_decode, MWBF_decode, IMWBF_decode, HardMLG_decode,
      SoftMLG_decode, AdaptiveSoftMLG_decode, MinSum_decode,
      NormalizedMinSum_decode, OffsetMinSum_decode in Hrun.
  1-4: by apply bf_decode_shaped in Hrun.
  1: by apply one_step_decode_shaped in Hrun.
  1-3: by apply iterative_mlg_decode_shaped in Hrun.
  all: by apply min_sum_decode_shaped in Hrun.
Qed.

Lemma decode_output_shape_witness :
  length [0; 0; 0; 7] = length [5; 5; 5; 7]
  /\ (forall j, (j < CtrlMat.n H_triangle)%nat ->
        [0; 0; 0; 7] !! j = Some 0 \/ [0; 0; 0; 7] !! j = Some 1)
  /\ (forall j, (CtrlMat.n H_triangle <= j)%nat ->
        [0; 0; 0; 7] !! j = [5; 5; 5; 7] !! j).
Proof.
  apply (decode_output_shape WBF H_triangle 5 (of_Z 0)
           [sample 1 1; sample (-9) 10; sample 1 1] [5; 5; 5; 7] [0; 0; 0; 7]
           true).
  by vm_compute.
Defined.

(** ** Bit flipping: what the syndrome pass computes and when it succeeds *)

Lemma flips_total (fl : list nat) (out : list Z) :
  Forall (fun j => (j < length out)%nat) fl ->
  exists out', foldM flip fl out = Ok out' /\ length out' = length out.
Proof.
  intros Hfl. rewrite list.Forall_forall in Hfl.
  apply (foldM_total (fun t => length t = length out)); [|done].
  intros j t Hj Ht. unfold flip.
  destruct (vget_lt t j) as (o & -> & _); [rewrite Ht; auto|]. cbn [bind].
  rewrite vset_lt by (rewrite Ht; auto).
  eexists. split; [done|]. by rewrite length_insert.
Qed.

Section bf_passes.
Context {E : Type} {arith_E : Arith E}.
Variables (H : CtrlMat) (alpha : double) (inp : list double).
Variables (weighted modified improved : bool).

Lemma bf_row_full (iter i : nat) (out : list Z) (row : list nat)
    (s s' : list Z) (w w' : list double) (si : Z) :
  foldM (bf_row_step inp weighted improved iter i out) row (s, w) = Ok (s', w') ->
  s !! i = Some si ->
  s' = <[i := parity_from out row si]> s
  /\ Forall (fun j => (j < length out)%nat) row
  /\ length w' = length w
  /\ ((iter =? 0)%nat && weighted && negb improved = false -> w' = w).
Proof.
  revert s w si. induction row as [|j row IH]; intros s w si Hrun Hsi.
  - injection Hrun as <- <-. by rewrite list_insert_id.
  - cbn [foldM] in Hrun.
    destruct (bf_row_step inp weighted improved iter i out (s, w) j)
      as [[s1 w1]|] eqn:Hstep; [|done].
    unfold bf_row_step in Hstep.
    apply bind_Ok in Hstep as (si' & Hsi'%vget_Ok & Hstep).
    apply bind_Ok in Hstep as (oj & Hoj%vget_Ok & Hstep).
    apply bind_Ok in Hstep as (s2 & (Hlt & ->)%vset_Ok & Hstep).
    assert (si' = si) as -> by congruence.
    assert (Hw : s1 = <[i := Z.lxor si oj]> s /\ length w1 = length w
                 /\ ((iter =? 0)%nat && weighted && negb improved = false
                     -> w1 = w)).
    { destruct ((iter =? 0)%nat && weighted && negb improved).
      - apply bind_Ok in Hstep as (wi & _ & Hstep).
        apply bind_Ok in Hstep as (x & _ & Hstep).
        apply bind_Ok in Hstep as (w2 & (_ & ->)%vset_Ok & Hstep).
        injection Hstep as <- <-. by rewrite length_insert.
      - by injection Hstep as <- <-. }
    destruct Hw as (-> & Hlw & Hkeep).
    apply (IH _ _ (Z.lxor si oj)) in Hrun as (-> & Hrow & Hlw' & Hkeep');
      [|by apply list_lookup_insert_eq].
    rewrite list_insert_insert_eq. apply lookup_lt_Some in Hoj as Hj.
    split; [|split; [by constructor|split; [congruence|]]].
    + unfold parity_from, bit_at. cbn [fold_left]. by rewrite Hoj.
    + intros Hz. rewrite Hkeep' by done. auto.
Qed.

Lemma bf_syndrome_full (iter i : nat) (out s s' : list Z) (w w' : list double)
    (cw cw' : bool) :
  bf_syndrome H inp weighted improved iter out (s, w, cw) i = Ok (s', w', cw') ->
  mlg_syndrome H out (s, cw) i = Ok (s', cw')
  /\ length w' = length w
  /\ ((iter =? 0)%nat && weighted && negb improved = false -> w' = w).
Proof.
  unfold bf_syndrome. intros Hrun.
  apply bind_Ok in Hrun as (s0 & (Hi & ->)%vset_Ok & Hrun).
  apply bind_Ok in Hrun as (Ki & HKi%vget_Ok & Hrun).
  apply bind_Ok in Hrun as ([s1 w1] & Hrow & Hrun).
  apply bind_Ok in Hrun as (si & Hsi%vget_Ok & Hrun).
  apply (bf_row_full _ _ _ _ _ _ _ _ 0) in Hrow as (-> & Hr & Hlw & Hkeep);
    [|by apply list_lookup_insert_eq].
  rewrite list_insert_insert_eq in *.
  rewrite list_lookup_insert_eq in Hsi by done.
  injection Hsi as <-. injection Hrun as <- <- <-.
  split; [|done]. apply mlg_syndrome_Ok. exists Ki.
  rewrite parity_eq. auto.
Qed.

(** The syndrome pass of [bf_decode] leaves in [s] and in the flag what
    the syndrome loop of the MLG decoders leaves there. *)
Lemma bf_syndrome_loop_full (iter m : nat) (out s : list Z) (w : list double)
    (cw : bool) (st : list Z * list double * bool) :
  for_range m (bf_syndrome H inp weighted improved iter out) (s, w, cw) = Ok st ->
  syndrome_done H out s cw m (st.1.1, st.2)
  /\ length st.1.2 = length w
  /\ ((iter =? 0)%nat && weighted && negb improved = false -> st.1.2 = w).
Proof.
  intros Hrun.
  assert (Hsim : for_range m (mlg_syndrome H out) (s, cw) = Ok (st.1.1, st.2)
                 /\ length st.1.2 = length w
                 /\ ((iter =? 0)%nat && weighted && negb improved = false
                     -> st.1.2 = w)).
  { revert Hrun.
    apply (for_range_invariant (fun m (st : list Z * list double * bool) =>
      for_range m (mlg_syndrome H out) (s, cw) = Ok (st.1.1, st.2)
      /\ length st.1.2 = length w
      /\ ((iter =? 0)%nat && weighted && negb improved = false
          -> st.1.2 = w))); [|done].
    intros i [[t u] c] [[t' u'] c'] Hi (IH & Hlw & Hkeep) Hstep.
    cbn [fst snd] in *.
    apply bf_syndrome_full in Hstep as (Hstep & Hlw' & Hkeep').
    rewrite for_range_S, IH. cbn [bind].
    split; [done|]. split; [congruence|].
    intros Hz. rewrite Hkeep' by done. auto. }
  destruct Hsim as (Hsim & Hlw & Hkeep).
  split; [by apply mlg_syndrome_loop|done].
Qed.

Hypothesis wf : well_formed H.
Hypothesis inp_long : (CtrlMat.n H <= length inp)%nat.

Lemma bf_row_total (iter i : nat) (out : list Z) (row : list nat)
    (s : list Z) (w : list double) :
  (CtrlMat.n H <= length out)%nat ->
  Forall (fun j => (j < CtrlMat.n H)%nat) row ->
  (i < length s)%nat ->
  ((iter =? 0)%nat && weighted && negb improved = true -> (i < length w)%nat) ->
  exists st, foldM (bf_row_step inp weighted improved iter i out) row (s, w)
             = Ok st.
Proof.
  intros Hout Hrow Hi Hw. rewrite list.Forall_forall in Hrow.
  destruct (foldM_total
    (fun st : list Z * list double =>
       length st.1 = length s /\ length st.2 = length w)
    (bf_row_step inp weighted improved iter i out) row (s, w))
    as (st & Hrun & _); [|done|by exists st].
  intros j [t u] Hj [Ht Hu]. cbn [fst snd] in *.
  specialize (Hrow j Hj). unfold bf_row_step.
  destruct (vget_lt t i) as (si & -> & _); [lia|]. cbn [bind].
  destruct (vget_lt out j) as (oj & -> & _); [lia|]. cbn [bind].
  rewrite vset_lt by lia. cbn [bind].
  destruct ((iter =? 0)%nat && weighted && negb improved) eqn:Hz.
  - destruct (vget_lt u i) as (wi & -> & _); [rewrite Hu; auto|]. cbn [bind].
    destruct (vget_lt inp j) as (x & -> & _); [lia|]. cbn [bind].
    rewrite vset_lt by (rewrite Hu; auto). cbn [bind].
    eexists. split; [done|]. cbn [fst snd]. by rewrite !length_insert.
  - eexists. split; [done|]. cbn [fst snd]. by rewrite length_insert.
Qed.

Lemma bf_syndrome_total (iter m : nat) (out s : list Z) (w : list double)
    (cw : bool) :
  (CtrlMat.n H <= length out)%nat ->
  (m <= CtrlMat.k H)%nat -> length s = CtrlMat.k H ->
  length w = bf_w_size H weighted improved ->
  exists st,
    for_range m (bf_syndrome H inp weighted improved iter out) (s, w, cw) = Ok st.
Proof.
  intros Hout Hm Hs Hw. destruct wf as [Hk Hn HK HN].
  destruct (for_range_total
    (fun _ (st : list Z * list double * bool) =>
       length st.1.1 = length s /\ length st.1.2 = length w)
    (bf_syndrome H inp weighted improved iter out) m (s, w, cw))
    as (st & Hrun & _); [|done|by exists st].
  intros i [[t u] c] Hi [Ht Hu]. cbn [fst snd] in *. unfold bf_syndrome.
  rewrite vset_lt by lia. cbn [bind].
  destruct (vget_lt (CtrlMat.K H) i) as (Ki & -> & HKi); [lia|]. cbn [bind].
  destruct (bf_row_total iter i out Ki (<[i := 0]> t) u) as ([t1 u1] & Hrow);
    [done| |rewrite length_insert; lia| |].
  { by eapply Forall_lookup_1 in HK. }
  { intros Hz. rewrite Hu, Hw. unfold bf_w_size.
    destruct improved; [by rewrite andb_false_r in Hz|].
    destruct weighted; [lia|by rewrite andb_false_r in Hz]. }
  rewrite Hrow. cbn [bind].
  apply (bf_row_full _ _ _ _ _ _ _ _ 0) in Hrow as (-> & _ & Hlw & _);
    [|apply list_lookup_insert_eq; lia].
  unfold vget. rewrite list_lookup_insert_eq by (rewrite length_insert; lia).
  cbn [bind]. eexists. split; [done|]. cbn [fst snd].
  rewrite !length_insert. split; [done|congruence].
Qed.
End bf_passes.

(** ** Bit flipping: no access outside the vectors *)

Section bf_safe.
Context {E : Type} {arith_E : Arith E}.
Variables (H : CtrlMat) (alpha : double) (inp : list double).
Variables (weighted modified improved : bool).

Lemma bf_weight_total (i j : nat) (w : list double) (row : list nat) :
  Forall (fun jp => (jp < length inp)%nat) row ->
  (i * CtrlMat.n H + j < length w)%nat ->
  exists w', foldM (bf_weight_step H inp i j) row w = Ok w'
             /\ length w' = length w.
Proof.
  intros Hrow Hcell. rewrite list.Forall_forall in Hrow.
  apply (foldM_total (fun t => length t = length w)); [|done].
  intros jp t Hjp Ht. unfold bf_weight_step.
  destruct (jp =? j)%nat; [eauto|].
  destruct (vget_lt t (i * CtrlMat.n H + j)%nat) as (x & -> & _); [lia|].
  cbn [bind].
  destruct (vget_lt inp jp) as (y & -> & _); [auto|]. cbn [bind].
  rewrite vset_lt by lia. eexists. split; [done|]. by rewrite length_insert.
Qed.

Lemma bf_metric_step_total (iter j i : nat) (s : list Z) (w : list double)
    (e : list E) :
  well_formed H -> bf_flags_ok weighted modified improved ->
  (CtrlMat.n H <= length inp)%nat ->
  (j < CtrlMat.n H)%nat -> (i < CtrlMat.k H)%nat ->
  length s = CtrlMat.k H -> length e = CtrlMat.n H ->
  length w = bf_w_size H weighted improved ->
  exists w' e', bf_metric_step H inp weighted modified improved iter j s (w, e) i
                = Ok (w', e')
                /\ length w' = length w /\ length e' = length e.
Proof.
  intros [Hk Hn HK HN] [Hf1 Hf2] Hinp Hj Hi Hs He Hw. unfold bf_metric_step.
  assert (Hcell : improved = true -> (i * CtrlMat.n H + j < length w)%nat).
  { intros ->. rewrite Hw. unfold bf_w_size. nia. }
  assert (Hrow : improved = false -> weighted = true -> (i < length w)%nat).
  { intros -> ->. rewrite Hw. unfold bf_w_size. lia. }
  assert (Hw1 : exists w1,
    (if improved && (iter =? 0)%nat
     then bind (vget (CtrlMat.K H) i) (fun Ki => foldM (bf_weight_step H inp i j) Ki w)
     else Ok w) = Ok w1 /\ length w1 = length w).
  { destruct (improved && (iter =? 0)%nat) eqn:Hz; [|eauto].
    apply andb_true_iff in Hz as [Himp _].
    destruct (vget_lt (CtrlMat.K H) i) as (Ki & -> & HKi); [lia|]. cbn [bind].
    apply bf_weight_total; [|auto].
    eapply Forall_lookup_1 in HK; [|done].
    eapply list.Forall_impl; [exact HK|]. intros jp Hjp. cbn in Hjp. lia. }
  destruct Hw1 as (w1 & -> & Hw1). cbn [bind].
  destruct (vget_lt e j) as (ej & -> & _); [lia|]. cbn [bind].
  destruct (vget_lt s i) as (si & -> & _); [lia|]. cbn [bind].
  destruct improved eqn:Himp.
  - destruct (vget_lt w1 (i * CtrlMat.n H + j)%nat) as (x & -> & _);
      [rewrite Hw1; auto|]. cbn [bind].
    rewrite vset_lt by lia. cbn [bind].
    eexists _, _. split; [done|]. by rewrite length_insert.
  - destruct modified eqn:Hmod.
    + cbn in Hf1. destruct (vget_lt w1 i) as (x & -> & _);
        [rewrite Hw1; auto|]. cbn [bind].
      rewrite vset_lt by lia. cbn [bind].
      eexists _, _. split; [done|]. by rewrite length_insert.
    + destruct weighted eqn:Hwt.
      * destruct (vget_lt w1 i) as (x & -> & _); [rewrite Hw1; auto|].
        cbn [bind]. rewrite vset_lt by lia. cbn [bind].
        eexists _, _. split; [done|]. by rewrite length_insert.
      * rewrite vset_lt by lia. cbn [bind].
        eexists _, _. split; [done|]. by rewrite length_insert.
Qed.

Lemma bf_metric_total (iter m : nat) (s : list Z) (w : list double)
    (e : list E) :
  well_formed H -> bf_flags_ok weighted modified improved ->
  (CtrlMat.n H <= length inp)%nat -> (m <= CtrlMat.n H)%nat ->
  length s = CtrlMat.k H -> length e = CtrlMat.n H ->
  length w = bf_w_size H weighted improved ->
  exists w' e',
    for_range m (bf_metric H alpha inp weighted modified improved iter s) (w, e)
    = Ok (w', e')
    /\ length w' = length w /\ length e' = length e.
Proof.
  intros Hwf Hfl Hinp Hm Hs He Hw. pose proof Hwf as [Hk Hn HK HN].
  destruct (for_range_total
    (fun _ (we : list double * list E) =>
       length we.1 = length w /\ length we.2 = length e)
    (bf_metric H alpha inp weighted modified improved iter s) m (w, e))
    as ([w' e'] & Hrun & Hlen); [|done|by exists w', e'].
  intros j [u t] Hj [Hu Ht]. cbn [fst snd] in *. unfold bf_metric.
  assert (He0 : exists t0,
    (if modified
     then bind (vget inp j) (fun x => vset t j (of_double (- alpha * dabs x)%Qc))
     else vset t j (of_int 0)) = Ok t0 /\ length t0 = length t).
  { destruct modified.
    - destruct (vget_lt inp j) as (x & -> & _); [lia|]. cbn [bind].
      rewrite vset_lt by lia. eexists. split; [done|]. by rewrite length_insert.
    - rewrite vset_lt by lia. eexists. split; [done|]. by rewrite length_insert. }
  destruct He0 as (t0 & -> & Ht0). cbn [bind].
  destruct (vget_lt (CtrlMat.N H) j) as (Nj & -> & HNj); [lia|]. cbn [bind].
  eapply Forall_lookup_1 in HN; [|done]. rewrite list.Forall_forall in HN.
  destruct (foldM_total
    (fun we : list double * list E =>
       length we.1 = length w /\ length we.2 = length e)
    (bf_metric_step H inp weighted modified improved iter j s) Nj (u, t0))
    as (we & Hrun & Hlen); [|cbn [fst snd]; split; congruence|by exists we].
  intros i [u1 t1] Hi [Hu1 Ht1]. cbn [fst snd] in *.
  destruct (bf_metric_step_total iter j i s u1 t1) as (w2 & e2 & -> & Hw2 & He2);
    auto; try congruence; try lia.
  eexists. split; [done|]. cbn [fst snd]. split; congruence.
Qed.

Lemma bf_select_total (e : list E) (T_max : E) (m : nat) :
  (m <= length e)%nat ->
  exists fl, for_range m (bf_select weighted e T_max) [] = Ok fl.
Proof.
  intros Hm.
  destruct (for_range_total (fun _ (_ : list nat) => True)
              (bf_select weighted e T_max) m [])
    as (fl & Hrun & _); [|done|by exists fl].
  intros j t Hj _. unfold bf_select.
  destruct (vget_lt e j) as (ej & -> & _); [lia|]. cbn [bind].
  destruct (bf_flips weighted ej T_max); eauto.
Qed.

(** On a well-formed matrix an iteration neither reads nor writes outside
    a vector, and it keeps the sizes. *)
Lemma bf_iteration_total (iter : nat) (st : bf_state E) :
  well_formed H -> bf_flags_ok weighted modified improved ->
  (CtrlMat.n H <= length inp)%nat ->
  bf_sized H weighted improved st ->
  exists b st',
    bf_iteration H alpha inp weighted modified improved iter st = Ok (b, st')
    /\ bf_sized H weighted improved st'.
Proof.
  intros Hwf Hfl Hinp (Hs & He & Hw & Hout). pose proof Hwf as [Hk Hn HK HN].
  unfold bf_iteration.
  destruct (bf_syndrome_total H inp weighted improved Hwf Hinp iter
              (CtrlMat.k H) (bf_out st) (bf_s st) (bf_w st) true)
    as ([[s w] cw] & Hsyn); [done|lia|done|done|].
  rewrite Hsyn. cbn [bind].
  apply bf_syndrome_loop_full in Hsyn as ((Hls & Hrows & _ & Hcw) & Hlw & _).
  cbn [fst snd] in *.
  destruct cw.
  { eexists _, _. split; [done|]. repeat split; cbn; congruence. }
  destruct (bf_metric_total iter (CtrlMat.n H) s w (bf_e st))
    as (w1 & e1 & -> & Hw1 & He1); auto; try congruence.
  cbn [bind].
  assert (Hpos : (0 < CtrlMat.n H)%nat).
  { destruct (decide (0 < CtrlMat.n H)%nat) as [|Hz]; [done|]. exfalso.
    assert (Htrue : false = true); [|done].
    apply Hcw. split; [done|]. intros i Ki Hi HKi.
    eapply Forall_lookup_1 in HK; [|done].
    destruct Ki as [|j Ki]; [done|]. apply Forall_cons_1 in HK as [Hj _]. lia. }
  destruct e1 as [|x e1]; [cbn in He1; lia|].
  cbn [max_element bind].
  set (T := fold_left _ e1 x).
  destruct (bf_select_total (x :: e1) T (CtrlMat.n H)) as (fl & Hsel);
    [lia|].
  rewrite Hsel. cbn [bind].
  apply bf_select_loop in Hsel as (_ & _ & Hin).
  destruct (flips_total fl (bf_out st)) as (o & -> & Ho).
  { apply list.Forall_forall. intros j Hj. apply Hin in Hj as [Hj _]. lia. }
  cbn [bind]. eexists _, _. split; [done|].
  repeat split; cbn [bf_s bf_e bf_w bf_out]; congruence.
Qed.

Lemma bf_loop_total (rem iter : nat) (st : bf_state E) :
  well_formed H -> bf_flags_ok weighted modified improved ->
  (CtrlMat.n H <= length inp)%nat ->
  bf_sized H weighted improved st ->
  exists r, bf_loop H alpha inp weighted modified improved rem iter st = Ok r.
Proof.
  intros Hwf Hfl Hinp. revert iter st.
  induction rem as [|rem IH]; intros iter st Hst; cbn [bf_loop]; [eauto|].
  destruct (bf_iteration_total iter st) as (b & st' & -> & Hst'); auto.
  cbn [bind]. destruct b; eauto.
Qed.
End bf_safe.

Lemma bf_decode_total (E : Type) {arith_E : Arith E} (H : CtrlMat)
    (max_iter : Z) (alpha : double) (inp : list double) (out : list Z)
    (weighted modified improved : bool) :
  well_formed H -> bf_flags_ok weighted modified improved ->
  (exists r, bf_decode E H max_iter alpha inp out weighted modified improved = Ok r)
  <-> (CtrlMat.n H <= length inp)%nat /\ (CtrlMat.n H <= length out)%nat.
Proof.
  intros Hwf Hfl. pose proof Hfl as [Hf1 Hf2].
  unfold bf_decode, bf_init. rewrite Hf1, Hf2. cbn [negb].
  rewrite hard_loop_eq. case_decide as Hlen; cbn [bind].
  - split; [done|]. intros _. destruct Hlen as [Hi Ho].
    apply bf_loop_total; auto.
    repeat split; cbn [bf_s bf_e bf_w bf_out]; rewrite ?length_replicate; try done.
    rewrite length_app, length_map, length_take, length_drop. lia.
  - split; [by intros [r [=]]|]. intros [? ?]. lia.
Qed.

(** X2: on a well-formed matrix the bit-flipping decoders never index
    outside a vector: BF, WBF, MWBF and IMWBF return a result exactly when
    [in] and [out] have at least [n] entries, for every iteration budget and
    every [alpha]. *)
Theorem bit_flipping_in_bounds (d : decoder) (H : CtrlMat) (max_iter : Z)
    (alpha : double) (inp : list double) (out : list Z) :
  is_bit_flipping d = true -> well_formed H ->
  (exists r, decode d H max_iter alpha inp out = Ok r)
  <-> (CtrlMat.n H <= length inp)%nat /\ (CtrlMat.n H <= length out)%nat.
Proof.
  intros Hd Hwf. destruct d; try discriminate Hd; cbn [decode];
    unfold BF_decode, WBF_decode, MWBF_decode, IMWBF_decode;
    by apply bf_decode_total.
Qed.

Lemma bit_flipping_in_bounds_witness :
  (exists r, decode IMWBF H_triangle 5 (sample 1 2)
               [sample 1 1; sample (-9) 10; sample 1 1] [0; 0; 0] = Ok r)
  <-> (CtrlMat.n H_triangle <= 3)%nat /\ (CtrlMat.n H_triangle <= 3)%nat.
Proof.
  exact (bit_flipping_in_bounds IMWBF H_triangle 5 (sample 1 2)
           [sample 1 1; sample (-9) 10; sample 1 1] [0; 0; 0]
           eq_refl H_triangle_well_formed).
Defined.

(** ** A received word whose hard decision is a codeword *)

Lemma is_codeword_lookup (H : CtrlMat) (out : list Z) (i : nat) (Ki : list nat) :
  is_codeword H out = true -> CtrlMat.K H !! i = Some Ki -> parity out Ki = 0.
Proof.
  unfold is_codeword. rewrite forallb_forall. intros Hall HKi.
  apply Z.eqb_eq, Hall, list_elem_of_In. by eapply list_elem_of_lookup_2.
Qed.

Lemma bf_decode_codeword (E : Type) {arith_E : Arith E} (H : CtrlMat)
    (max_iter : Z) (alpha : double) (inp : list double) (out : list Z)
    (weighted modified improved : bool) :
  well_formed H -> bf_flags_ok weighted modified improved ->
  1 <= max_iter ->
  length inp = CtrlMat.n H -> length out = CtrlMat.n H ->
  is_codeword H (map hard inp) = true ->
  bf_decode E H max_iter alpha inp out weighted modified improved
  = Ok (true, map hard inp).
Proof.
  intros Hwf [Hf1 Hf2] Hmax Hi Ho Hcw.
  unfold bf_decode, bf_init. rewrite Hf1, Hf2. cbn [negb].
  rewrite hard_loop_full by done. cbn [bind].
  destruct (Z.to_nat max_iter) as [|rem] eqn:Hrem; [lia|].
  cbn [bf_loop]. unfold bf_iteration. cbn [bf_s bf_w bf_out bf_e].
  destruct (bf_syndrome_total H inp weighted improved Hwf ltac:(lia) 0%nat
              (CtrlMat.k H) (map hard inp) (replicate (CtrlMat.k H) 0)
              (replicate (bf_w_size H weighted improved) DBL_MAX) true)
    as ([[s w] cw] & Hsyn);
    [by rewrite length_map; lia|lia|by rewrite length_replicate
    |by rewrite length_replicate|].
  unfold bf_w_size in Hsyn. rewrite Hsyn. cbn [bind].
  apply bf_syndrome_loop_full in Hsyn as ((_ & _ & _ & Hflag) & _).
  cbn [fst snd] in Hflag.
  assert (cw = true) as ->; [|done].
  apply Hflag. split; [done|]. intros i Ki _ HKi.
  by rewrite (is_codeword_lookup _ _ _ _ Hcw HKi).
Qed.

Lemma mlg_init_total (R : Type) {arith_R : Arith R} (H : CtrlMat)
    (inp : list double) (out : list Z) (soft adaptive : bool) :
  well_formed H -> (0 < CtrlMat.n H)%nat ->
  length inp = CtrlMat.n H -> length out = CtrlMat.n H ->
  exists gamma (st : mlg_state R),
    mlg_init H inp soft adaptive out = Ok (gamma, st)
    /\ mlg_out st = map hard inp
    /\ length (mlg_r st) = CtrlMat.n H
    /\ length (mlg_s st) = CtrlMat.n H
    /\ length (mlg_e st) = CtrlMat.n H
    /\ length (mlg_w st) = (CtrlMat.k H * CtrlMat.n H)%nat.
Proof.
  intros [Hk Hn HK _] Hpos Hi Ho. unfold mlg_init.
  destruct (vget_lt (CtrlMat.N H) 0%nat ltac:(lia)) as (col0 & -> & _).
  cbn [bind].
  pose proof (hard_loop_full inp out _ Hi Ho) as Hhard.
  eapply (mlg_init_loop_total inp soft (Z.of_nat (length col0)) _
            (replicate (CtrlMat.n H) (of_int 0))) in Hhard as [r Hloop];
    [|by rewrite length_replicate].
  rewrite Hloop. cbn [bind].
  apply mlg_init_loop_out in Hloop as [_ Hlen]. cbn [fst] in Hlen.
  rewrite length_replicate in Hlen.
  destruct adaptive.
  - edestruct (mlg_weight_table_total H soft (Z.of_nat (length col0)) r
                 (CtrlMat.k H)) as [w Hw]; [lia|by rewrite Hlen| |].
    { by rewrite length_replicate. }
    rewrite Hw. cbn [bind]. eexists _, _. split; [done|].
    apply mlg_weight_table_Ok in Hw as [Hlw _].
    cbn [mlg_out mlg_r mlg_s mlg_e mlg_w].
    rewrite Hlw, !length_replicate. done.
  - cbn [bind]. eexists _, _. split; [done|].
    cbn [mlg_out mlg_r mlg_s mlg_e mlg_w]. by rewrite !length_replicate.
Qed.

Lemma iterative_mlg_decode_codeword (R : Type) {arith_R : Arith R}
    (H : CtrlMat) (max_iter : Z) (alpha : double) (inp : list double)
    (out : list Z) (soft adaptive : bool) :
  well_formed H -> CtrlMat.k H = CtrlMat.n H -> (0 < CtrlMat.n H)%nat ->
  1 <= max_iter ->
  length inp = CtrlMat.n H -> length out = CtrlMat.n H ->
  is_codeword H (map hard inp) = true ->
  iterative_mlg_decode R H max_iter alpha inp out soft adaptive
  = Ok (true, map hard inp).
Proof.
  intros Hwf Hsq Hpos Hmax Hi Ho Hcw. unfold iterative_mlg_decode.
  destruct (mlg_init_total R H inp out soft adaptive Hwf Hpos Hi Ho)
    as (gamma & st & -> & Hout & Hr & Hs & He & Hw).
  cbn [bind]. pose proof Hwf as [Hk Hn HK _].
  destruct (Z.to_nat max_iter) as [|rem] eqn:Hrem; [lia|].
  cbn [mlg_loop]. unfold mlg_iteration. rewrite Hout.
  destruct (mlg_syndrome_total H (map hard inp) (mlg_s st) true (CtrlMat.n H))
    as ([s cw] & Hsyn); [lia|lia| |].
  { by rewrite length_map, Hi. }
  rewrite Hsyn. cbn [bind].
  apply mlg_syndrome_loop in Hsyn as (_ & _ & _ & Hflag). cbn [snd] in Hflag.
  assert (cw = true) as ->; [|done].
  apply Hflag. split; [done|]. intros i Ki _ HKi.
  by rewrite (is_codeword_lookup _ _ _ _ Hcw HKi).
Qed.

Lemma one_step_decode_codeword (H : CtrlMat) (inp : list double) (out : list Z) :
  well_formed H -> CtrlMat.k H = CtrlMat.n H -> (0 < CtrlMat.n H)%nat ->
  length inp = CtrlMat.n H -> length out = CtrlMat.n H ->
  is_codeword H (map hard inp) = true ->
  OneStepMLG_decode H inp out = Ok (true, map hard inp).
Proof.
  intros [Hk Hn HK HN] Hsq Hpos Hi Ho Hcw. unfold OneStepMLG_decode.
  destruct (vget_lt (CtrlMat.N H) 0%nat ltac:(lia)) as (col0 & -> & _).
  cbn [bind]. rewrite hard_loop_full by done. cbn [bind].
  destruct (mlg_syndrome_total H (map hard inp) (replicate (CtrlMat.n H) 0)
              true (CtrlMat.n H))
    as ([s cw] & Hsyn); [by rewrite length_replicate|lia| |].
  { by rewrite length_map, Hi. }
  rewrite Hsyn. cbn [bind].
  apply mlg_syndrome_loop in Hsyn as (_ & _ & _ & Hflag). cbn [snd] in Hflag.
  assert (cw = true) as ->; [|done].
  apply Hflag. split; [done|]. intros i Ki _ HKi.
  by rewrite (is_codeword_lookup _ _ _ _ Hcw HKi).
Qed.

Lemma min_sum_decode_codeword (H : CtrlMat) (max_iter : Z) (alpha : double)
    (inp : list double) (out : list Z) (normalized offset : bool) :
  normalized && offset = false -> well_formed H ->
  length inp = CtrlMat.n H -> length out = CtrlMat.n H ->
  is_codeword H (map hard inp) = true ->
  min_sum_decode H max_iter alpha inp out normalized offset
  = Ok (true, map hard inp).
Proof.
  intros Hflags Hwf Hi Ho Hcw. unfold min_sum_decode.
  rewrite Hflags, hard_loop_full by done. cbn [bind].
  rewrite hard_decide_eq by (rewrite <- ?Hi; auto using bits_map_hard).
  cbn [bind]. by rewrite Hcw.
Qed.

Lemma decode_codeword (d : decoder) (H : CtrlMat) (max_iter : Z)
    (alpha : double) (inp : list double) (out : list Z) :
  well_formed H -> reaches_first_test d H max_iter ->
  length inp = CtrlMat.n H -> length out = CtrlMat.n H ->
  is_codeword H (map hard inp) = true ->
  decode d H max_iter alpha inp out = Ok (true, map hard inp).
Proof.
  intros Hwf (Hmax & Hsq & Hpos) Hi Ho Hcw.
  destruct d; cbn [decode is_min_sum is_iterative_mlg] in *.
  1-4: apply bf_decode_codeword; auto; split; done.
  1: apply one_step_decode_codeword; auto.
  1-3: apply iterative_mlg_decode_codeword; auto.
  all: by apply min_sum_decode_codeword.
Qed.

(** X3: when the hard decision of the received word already satisfies every
    parity check, a decoder returns [true] and that hard decision, untouched
    (given one iteration for BF, WBF, MWBF, IMWBF and the iterative MLG
    decoders, and a square matrix for the MLG decoders). *)
Theorem codeword_is_returned_unchanged (d : decoder) (H : CtrlMat)
    (max_iter : Z) (alpha : double) (inp : list double) (out : list Z) :
  well_formed H -> reaches_first_test d H max_iter ->
  length inp = CtrlMat.n H -> length out = CtrlMat.n H ->
  is_codeword H (map hard inp) = true ->
  decode d H max_iter alpha inp out = Ok (true, map hard inp).
Proof. apply decode_codeword. Qed.

Lemma H_triangle_reaches (d : decoder) : reaches_first_test d H_triangle 1.
Proof. split; [intros; lia|]. split; [done|cbn; lia]. Qed.

Lemma codeword_is_returned_unchanged_witness :
  decode SoftMLG H_triangle 1 (of_Z 0)
    [sample (-1) 1; sample (-1) 2; sample (-3) 1] [0; 0; 0]
  = Ok (true, [1; 1; 1]).
Proof.
  exact (codeword_is_returned_unchanged SoftMLG H_triangle 1 (of_Z 0)
           [sample (-1) 1; sample (-1) 2; sample (-3) 1] [0; 0; 0]
           H_triangle_well_formed (H_triangle_reaches SoftMLG)
           eq_refl eq_refl ltac:(by vm_compute)).
Defined.

(** *** The all-zero codeword *)

Lemma parity_from_zeros (n : nat) (row : list nat) (a : Z) :
  parity_from (replicate n 0) row a = a.
Proof.
  revert a. induction row as [|j row IH]; intros a; [done|].
  unfold parity_from in *. cbn [fold_left]. rewrite IH.
  unfold bit_at. destruct (replicate n 0 !! j) as [x|] eqn:Hx; simpl.
  - apply lookup_replicate in Hx as [-> _]. apply Z.lxor_0_r.
  - apply Z.lxor_0_r.
Qed.

Lemma zeros_codeword (H : CtrlMat) (n : nat) :
  is_codeword H (replicate n 0) = true.
Proof.
  unfold is_codeword. apply forallb_forall. intros row _.
  by rewrite parity_eq, parity_from_zeros.
Qed.

Lemma hard_nonnegative (inp : list double) :
  Forall (fun x => (of_Z 0 <= x)%Qc) inp ->
  map hard inp = replicate (length inp) 0.
Proof.
  induction 1 as [|x inp Hx _ IH]; [done|]. cbn [map length replicate].
  rewrite IH. f_equal. unfold hard. by rewrite (proj2 (dlt_false _ _) Hx).
Qed.

(** X4: a received word without a negative sample is decoded to the all-zero
    word with success, by every decoder (under the conditions of the first
    syndrome test). *)
Theorem nonnegative_word_decodes_to_zero (d : decoder) (H : CtrlMat)
    (max_iter : Z) (alpha : double) (inp : list double) (out : list Z) :
  well_formed H -> reaches_first_test d H max_iter ->
  length inp = CtrlMat.n H -> length out = CtrlMat.n H ->
  Forall (fun x => (of_Z 0 <= x)%Qc) inp ->
  decode d H max_iter alpha inp out = Ok (true, replicate (CtrlMat.n H) 0).
Proof.
  intros Hwf Hreach Hi Ho Hpos.
  rewrite <- Hi, <- (hard_nonnegative inp Hpos).
  apply decode_codeword; auto.
  rewrite hard_nonnegative by done. apply zeros_codeword.
Qed.

Lemma nonnegative_word_decodes_to_zero_witness :
  decode OffsetMinSum H_triangle 1 (sample 3 20)
    [sample 1 5; sample 0 1; sample 7 2] [1; 1; 1]
  = Ok (true, [0; 0; 0]).
Proof.
  apply (nonnegative_word_decodes_to_zero OffsetMinSum H_triangle 1 (sample 3 20)
           [sample 1 5; sample 0 1; sample 7 2] [1; 1; 1]
           H_triangle_well_formed (H_triangle_reaches OffsetMinSum)
           eq_refl eq_refl).
  repeat constructor; by vm_compute.
Defined.

(** ** A success is kept when the iteration budget grows *)

Lemma bf_loop_mono (E : Type) {arith_E : Arith E} (H : CtrlMat) (alpha : double)
    (inp : list double) (weighted modified improved : bool)
    (rem rem' iter : nat) (st : bf_state E) (out' : list Z) :
  (rem <= rem')%nat ->
  bf_loop H alpha inp weighted modified improved rem iter st = Ok (true, out') ->
  bf_loop H alpha inp weighted modified improved rem' iter st = Ok (true, out').
Proof.
  revert rem' iter st. induction rem as [|rem IH]; intros rem' iter st Hle;
    [done|].
  destruct rem' as [|rem']; [lia|]. cbn [bf_loop].
  destruct (bf_iteration _ _ _ _ _ _ iter st) as [[[] st']|]; cbn [bind];
    [done| |done].
  apply IH. lia.
Qed.

Lemma mlg_loop_mono (R : Type) {arith_R : Arith R} (H : CtrlMat) (alpha : double)
    (soft adaptive : bool) (gamma : Z) (rem rem' : nat) (st : mlg_state R)
    (out' : list Z) :
  (rem <= rem')%nat ->
  mlg_loop H alpha soft adaptive gamma rem st = Ok (true, out') ->
  mlg_loop H alpha soft adaptive gamma rem' st = Ok (true, out').
Proof.
  revert rem' st. induction rem as [|rem IH]; intros rem' st Hle; [done|].
  destruct rem' as [|rem']; [lia|]. cbn [mlg_loop].
  destruct (mlg_iteration _ _ _ _ gamma st) as [[[] st']|]; cbn [bind];
    [done| |done].
  apply IH. lia.
Qed.

Lemma ms_loop_mono (H : CtrlMat) (alpha : double) (inp : list double)
    (normalized offset : bool) (rem rem' iter : nat) (st : ms_state)
    (out' : list Z) :
  (rem <= rem')%nat ->
  ms_loop H alpha inp normalized offset rem iter st = Ok (true, out') ->
  ms_loop H alpha inp normalized offset rem' iter st = Ok (true, out').
Proof.
  revert rem' iter st. induction rem as [|rem IH]; intros rem' iter st Hle;
    [done|].
  destruct rem' as [|rem']; [lia|]. cbn [ms_loop].
  destruct (ms_iteration _ _ _ _ _ iter st) as [[[] st']|]; cbn [bind];
    [done| |done].
  apply IH. lia.
Qed.

Lemma bf_decode_mono (E : Type) {arith_E : Arith E} (H : CtrlMat)
    (m m' : Z) (alpha : double) (inp : list double) (out out' : list Z)
    (weighted modified improved : bool) :
  m <= m' ->
  bf_decode E H m alpha inp out weighted modified improved = Ok (true, out') ->
  bf_decode E H m' alpha inp out weighted modified improved = Ok (true, out').
Proof.
  intros Hle. unfold bf_decode.
  destruct (bf_init _ _ _ _ _ _) as [st|]; cbn [bind]; [|done].
  apply bf_loop_mono. lia.
Qed.

Lemma iterative_mlg_decode_mono (R : Type) {arith_R : Arith R} (H : CtrlMat)
    (m m' : Z) (alpha : double) (inp : list double) (out out' : list Z)
    (soft adaptive : bool) :
  m <= m' ->
  iterative_mlg_decode R H m alpha inp out soft adaptive = Ok (true, out') ->
  iterative_mlg_decode R H m' alpha inp out soft adaptive = Ok (true, out').
Proof.
  intros Hle. unfold iterative_mlg_decode.
  destruct (mlg_init _ _ _ _ _) as [[gamma st]|]; cbn [bind]; [|done].
  apply mlg_loop_mono. lia.
Qed.

Lemma min_sum_decode_mono (H : CtrlMat) (m m' : Z) (alpha : double)
    (inp : list double) (out out' : list Z) (normalized offset : bool) :
  m <= m' ->
  min_sum_decode H m alpha inp out normalized offset = Ok (true, out') ->
  min_sum_decode H m' alpha inp out normalized offset = Ok (true, out').
Proof.
  intros Hle. unfold min_sum_decode.
  destruct (normalized && offset); [done|].
  destruct (for_range _ _ _) as [o|]; cbn [bind]; [|done].
  destruct (hard_decide o H) as [[]|]; cbn [bind]; [done| |done].
  apply ms_loop_mono. lia.
Qed.

(** X5: a larger iteration budget never loses a success: when a decoder
    returns [true] with budget [m], it returns [true] and the same word with
    every budget [m' >= m]. *)
Theorem success_survives_larger_budget (d : decoder) (H : CtrlMat) (m m' : Z)
    (alpha : double) (inp : list double) (out out' : list Z) :
  m <= m' ->
  decode d H m alpha inp out = Ok (true, out') ->
  decode d H m' alpha inp out = Ok (true, out').
Proof.
  intros Hle. destruct d; cbn [decode];
    unfold BF_decode, WBF_decode, MWBF_decode, IMWBF_decode, HardMLG_decode,
      SoftMLG_decode, AdaptiveSoftMLG_decode, MinSum_decode,
      NormalizedMinSum_decode, OffsetMinSum_decode;
    eauto using bf_decode_mono, iterative_mlg_decode_mono, min_sum_decode_mono.
Qed.

Lemma success_survives_larger_budget_witness :
  decode BF H_triangle 9 (of_Z 0) [sample 1 1; sample (-9) 10; sample 1 1] [0; 0; 0]
  = Ok (true, [0; 0; 0]).
Proof.
  apply (success_survives_larger_budget BF H_triangle 2 9); [lia|by vm_compute].
Defined.

(** ** The flag of the min-sum decoders is exact *)

Lemma ms_loop_flag (H : CtrlMat) (alpha : double) (inp : list double)
    (normalized offset : bool) (rem iter : nat) (st : ms_state) (b : bool)
    (out' : list Z) :
  well_formed H -> bits (CtrlMat.n H) (ms_out st) ->
  is_codeword H (ms_out st) = false ->
  ms_loop H alpha inp normalized offset rem iter st = Ok (b, out') ->
  b = is_codeword H out'.
Proof.
  intros Hwf. revert iter st.
  induction rem as [|rem IH]; intros iter st Hb Hno Hrun.
  - by injection Hrun as <- <-.
  - cbn [ms_loop] in Hrun.
    apply bind_Ok in Hrun as ([r st'] & Hit & Hrun).
    apply (ms_iteration_Ok _ _ _ _ _ (CtrlMat.n H)) in Hit as [Hb' Hcw]; [|done].
    rewrite hard_decide_eq in Hcw by done. injection Hcw as Hcw.
    destruct r.
    + injection Hrun as <- <-. done.
    + by eapply IH.
Qed.

(** X6: the flag returned by MinSum, NormalizedMinSum and OffsetMinSum is
    exact on a well-formed matrix: it is [true] exactly when the returned word
    satisfies every parity check, whatever the budget. *)
Theorem min_sum_flag_is_exact (d : decoder) (H : CtrlMat) (max_iter : Z)
    (alpha : double) (inp : list double) (out out' : list Z) (b : bool) :
  is_min_sum d = true -> well_formed H ->
  decode d H max_iter alpha inp out = Ok (b, out') ->
  b = is_codeword H out'.
Proof.
  intros Hd Hwf Hrun.
  assert (exists normalized offset a,
    min_sum_decode H max_iter a inp out normalized offset = Ok (b, out'))
    as (normalized & offset & a & Hms).
  { destruct d; try discriminate Hd; cbn [decode] in Hrun; eauto. }
  clear Hrun. unfold min_sum_decode in Hms.
  destruct (normalized && offset); [done|].
  apply bind_Ok in Hms as (o & Hhard & Hms).
  apply bits_hard_loop in Hhard.
  rewrite hard_decide_eq in Hms by done. cbn [bind] in Hms.
  destruct (is_codeword H o) eqn:Hcw.
  - by injection Hms as <- <-.
  - by eapply ms_loop_flag in Hms.
Qed.

Lemma min_sum_flag_is_exact_witness :
  true = is_codeword H_triangle [0; 0; 0].
Proof.
  apply (min_sum_flag_is_exact MinSum H_triangle 2 (of_Z 0)
           [sample 1 1; sample (-9) 10; sample 1 1] [0; 0; 0]);
    [done|exact H_triangle_well_formed|by vm_compute].
Defined.

(** ** The min-sum decoders stay inside their vectors *)

(** Runs the vector accesses at the head of the goal that are in range. *)
Ltac in_range := rewrite ?length_insert; first [lia | nia].

Ltac run_access :=
  cbn [bind]; repeat match goal with
  | |- context [vget ?v ?i] =>
      let Hx := fresh "Hx" in
      destruct (vget_lt v i) as (? & Hx & _);
        [in_range | rewrite Hx; clear Hx; cbn [bind]]
  | |- context [vset ?v ?i ?a] =>
      rewrite (vset_lt v i a) by in_range; cbn [bind]
  end.

(** Cell [(i, j)] of a table of [k] rows and [n] columns stored row by row. *)
Lemma cell_in_table (k n i j : nat) :
  (i < k)%nat -> (j < n)%nat -> (i * n + j < k * n)%nat.
Proof. nia. Qed.

Section ms_safe.
Variables (H : CtrlMat) (alpha : double) (inp : list double).
Variables (normalized offset : bool).
Hypothesis wf : well_formed H.
Hypothesis inp_long : (CtrlMat.n H <= length inp)%nat.







End ms_safe.




(** ** The majority-logic decoders and the shape of the matrix *)

(** A loop fails as soon as its body fails. *)
Lemma for_range_fail {S : Type} (body : S -> nat -> result S) (m n : nat)
    (s t : S) (e : error) :
  (m < n)%nat -> for_range m body s = Ok t -> body t m = Err e ->
  for_range n body s = Err e.
Proof.
  intros Hlt Hrun Hfail.
  replace n with (Datatypes.S m + (n - Datatypes.S m))%nat by lia.
  induction (n - Datatypes.S m)%nat as [|d IH].
  - rewrite Nat.add_0_r, for_range_S, Hrun. done.
  - rewrite Nat.add_succ_r, for_range_S, IH. done.
Qed.

Lemma square_fits (H : CtrlMat) :
  well_formed H -> CtrlMat.k H = CtrlMat.n H -> (0 < CtrlMat.n H)%nat ->
  mlg_fits H.
Proof.
  intros [_ _ _ HN] Hsq Hpos. split; [done|]. split; [lia|]. by rewrite <- Hsq.
Qed.

Section mlg_safe.
Context {R : Type} {arith_R : Arith R}.
Variables (H : CtrlMat) (alpha : double) (inp : list double).
Variables (soft adaptive : bool).
Hypothesis wf : well_formed H.

Lemma mlg_init_sized (out : list Z) :
  (0 < CtrlMat.n H)%nat ->
  (exists gamma (st : mlg_state R),
     mlg_init H inp soft adaptive out = Ok (gamma, st) /\ mlg_sized H st)
  <-> (CtrlMat.n H <= length inp)%nat /\ (CtrlMat.n H <= length out)%nat.
Proof.
  intros Hpos. destruct wf as [Hk Hn HK HN]. split.
  - intros (gamma & st & Hinit & _).
    apply mlg_init_Ok in Hinit as (_ & Hhard & _).
    rewrite hard_loop_eq in Hhard. by case_decide.
  - intros Hlen. unfold mlg_init.
    destruct (vget_lt (CtrlMat.N H) 0%nat ltac:(lia)) as (col0 & -> & _).
    cbn [bind].
    destruct (for_range (CtrlMat.n H) (hard_bit inp) out) as [o|] eqn:Hhard;
      [|by rewrite hard_loop_eq, decide_True in Hhard].
    pose proof (shaped_hard_loop _ _ _ _ Hhard) as (Hlo & _).
    eapply (mlg_init_loop_total inp soft (Z.of_nat (length col0)) _
              (replicate (CtrlMat.n H) (of_int 0))) in Hhard as [r Hloop];
      [|by rewrite length_replicate].
    rewrite Hloop. cbn [bind].
    apply mlg_init_loop_out in Hloop as [_ Hlr]. cbn [fst] in Hlr.
    rewrite length_replicate in Hlr.
    destruct adaptive.
    + edestruct (mlg_weight_table_total H soft (Z.of_nat (length col0)) r
                   (CtrlMat.k H)) as [w Hw]; [lia|by rewrite Hlr| |].
      { by rewrite length_replicate. }
      rewrite Hw. cbn [bind]. eexists _, _. split; [done|].
      apply mlg_weight_table_Ok in Hw as [Hlw _].
      unfold mlg_sized. cbn [mlg_out mlg_r mlg_s mlg_e mlg_w].
      rewrite Hlw, !length_replicate. repeat split; try done. lia.
    + cbn [bind]. eexists _, _. split; [done|].
      unfold mlg_sized. cbn [mlg_out mlg_r mlg_s mlg_e mlg_w].
      rewrite !length_replicate. repeat split; try done. lia.
Qed.

Lemma mlg_metric_total (s w out e : list Z) (j : nat) :
  mlg_fits H -> (j < CtrlMat.n H)%nat ->
  length s = CtrlMat.n H -> length e = CtrlMat.n H ->
  length w = (CtrlMat.k H * CtrlMat.n H)%nat ->
  (CtrlMat.n H <= length out)%nat ->
  exists e', mlg_metric H adaptive s w out e j = Ok e'
             /\ length e' = CtrlMat.n H.
Proof.
  intros (_ & _ & Hfit) Hj Hs He Hw Ho. destruct wf as [Hk Hn HK HN].
  unfold mlg_metric. rewrite vset_lt by lia. cbn [bind].
  destruct (vget_lt (CtrlMat.N H) j ltac:(lia)) as (Nj & -> & HNj).
  cbn [bind].
  apply (foldM_total (fun e => length e = CtrlMat.n H));
    [|by rewrite length_insert].
  intros i t Hi Ht. unfold mlg_metric_step.
  assert (i < CtrlMat.n H)%nat as Hin.
  { eapply Forall_lookup_1 in Hfit; [|done].
    by apply (proj1 (list.Forall_forall _ _) Hfit). }
  assert (i < CtrlMat.k H)%nat as Hik.
  { eapply Forall_lookup_1 in HN; [|done].
    by apply (proj1 (list.Forall_forall _ _) HN). }
  pose proof (cell_in_table _ _ i j Hik Hj) as Hcell.
  run_access. destruct adaptive; run_access;
    (eexists; split; [reflexivity|]; by rewrite length_insert).
Qed.

Lemma mlg_update_total (gamma : Z) (e : list Z) (r : list R) (out : list Z)
    (j : nat) :
  (j < CtrlMat.n H)%nat ->
  length r = CtrlMat.n H -> length e = CtrlMat.n H ->
  (CtrlMat.n H <= length out)%nat ->
  exists r' out', mlg_update alpha soft adaptive gamma e (r, out) j
                  = Ok (r', out')
    /\ length r' = CtrlMat.n H /\ length out' = length out.
Proof.
  intros Hj Hr He Ho. unfold mlg_update. run_access.
  destruct adaptive; run_access;
    (eexists _, _; split; [reflexivity|]; by rewrite !length_insert).
Qed.

Lemma mlg_syndrome_sized (out s : list Z) :
  (CtrlMat.n H <= CtrlMat.k H)%nat ->
  length s = CtrlMat.n H -> (CtrlMat.n H <= length out)%nat ->
  exists s' cw, for_range (CtrlMat.n H) (mlg_syndrome H out) (s, true)
                = Ok (s', cw)
                /\ length s' = CtrlMat.n H.
Proof.
  intros Hnk Hs Ho. destruct wf as [Hk Hn HK HN].
  destruct (mlg_syndrome_total H out s true (CtrlMat.n H))
    as ([s' cw] & Hsyn); [lia|lia| |].
  { eapply list.Forall_impl; [exact HK|]. intros row Hrow.
    eapply list.Forall_impl; [exact Hrow|]. intros j Hj. simpl in *. lia. }
  exists s', cw. split; [done|].
  apply mlg_syndrome_loop in Hsyn as (Hl & _). cbn [fst] in Hl. lia.
Qed.

Lemma mlg_iteration_total (gamma : Z) (st : mlg_state R) :
  mlg_fits H -> mlg_sized H st ->
  exists b st', mlg_iteration H alpha soft adaptive gamma st = Ok (b, st')
                /\ mlg_sized H st'.
Proof.
  intros Hfit (Hr & Hs & He & Hw & Ho). pose proof Hfit as (_ & Hnk & _).
  unfold mlg_iteration.
  destruct (mlg_syndrome_sized (mlg_out st) (mlg_s st) Hnk Hs Ho)
    as (s & cw & -> & Hs').
  cbn [bind]. destruct cw.
  { eexists _, _. split; [reflexivity|]. by repeat split. }
  destruct (for_range_total (fun _ e => length e = CtrlMat.n H)
              (mlg_metric H adaptive s (mlg_w st) (mlg_out st))
              (CtrlMat.n H) (mlg_e st)) as (e & -> & He');
    [by intros j t Hj Ht; apply mlg_metric_total|done|].
  cbn [bind].
  destruct (for_range_total
              (fun _ (ro : list R * list Z) =>
                 length ro.1 = CtrlMat.n H
                 /\ length ro.2 = length (mlg_out st))
              (mlg_update alpha soft adaptive gamma e) (CtrlMat.n H)
              (mlg_r st, mlg_out st)) as ([r o] & -> & Hr' & Ho').
  { intros j [t u] Hj [Ht Hu]. cbn [fst snd] in *.
    destruct (mlg_update_total gamma e t u j) as (t' & u' & -> & ? & ?);
      [done|done|done|lia|].
    eexists. split; [reflexivity|]. cbn [fst snd]. split; [done|congruence]. }
  { done. }
  cbn [bind fst snd] in *. eexists _, _. split; [reflexivity|].
  repeat split; cbn [mlg_r mlg_s mlg_e mlg_w mlg_out]; try done. lia.
Qed.

Lemma mlg_loop_total (gamma : Z) (rem : nat) (st : mlg_state R) :
  mlg_fits H -> mlg_sized H st ->
  exists r, mlg_loop H alpha soft adaptive gamma rem st = Ok r.
Proof.
  intros Hfit. revert st. induction rem as [|rem IH]; intros st Hsz;
    cbn [mlg_loop]; [eauto|].
  destruct (mlg_iteration_total gamma st Hfit Hsz) as ([] & st' & -> & Hsz');
    cbn [bind]; eauto.
Qed.

(** With fewer rows than columns the syndrome loop reads [K[k]]. *)
Lemma mlg_syndrome_short (out s : list Z) (cw : bool) :
  (CtrlMat.k H < CtrlMat.n H)%nat ->
  length s = CtrlMat.n H -> (CtrlMat.n H <= length out)%nat ->
  for_range (CtrlMat.n H) (mlg_syndrome H out) (s, cw) = Err OutOfRange.
Proof.
  intros Hkn Hs Ho. destruct wf as [Hk Hn HK HN].
  destruct (mlg_syndrome_total H out s cw (CtrlMat.k H))
    as ([s' cw'] & Hsyn); [lia|lia| |].
  { eapply list.Forall_impl; [exact HK|]. intros row Hrow.
    eapply list.Forall_impl; [exact Hrow|]. intros j Hj. simpl in *. lia. }
  apply (for_range_fail _ (CtrlMat.k H) _ _ (s', cw')); [done|done|].
  apply mlg_syndrome_loop in Hsyn as (Hl & _). cbn [fst] in Hl.
  unfold mlg_syndrome. rewrite vset_lt by lia. cbn [bind].
  unfold vget. rewrite lookup_ge_None_2 by lia. done.
Qed.
End mlg_safe.

Lemma iterative_mlg_decode_total (R : Type) {arith_R : Arith R} (H : CtrlMat)
    (max_iter : Z) (alpha : double) (inp : list double) (out : list Z)
    (soft adaptive : bool) :
  well_formed H -> mlg_fits H ->
  (exists r, iterative_mlg_decode R H max_iter alpha inp out soft adaptive = Ok r)
  <-> (CtrlMat.n H <= length inp)%nat /\ (CtrlMat.n H <= length out)%nat.
Proof.
  intros Hwf Hfit. pose proof Hfit as (Hpos & _).
  unfold iterative_mlg_decode. split.
  - intros [r Hrun]. apply bind_Ok in Hrun as ([gamma st] & Hinit & _).
    apply mlg_init_Ok in Hinit as (_ & Hhard & _).
    rewrite hard_loop_eq in Hhard. by case_decide.
  - intros Hlen.
    apply (mlg_init_sized (R := R) H inp soft adaptive Hwf out Hpos) in Hlen
      as (gamma & st & -> & Hsz).
    cbn [bind]. by apply mlg_loop_total.
Qed.

Lemma one_step_decode_total (H : CtrlMat) (inp : list double) (out : list Z) :
  well_formed H -> mlg_fits H ->
  (exists r, OneStepMLG_decode H inp out = Ok r)
  <-> (CtrlMat.n H <= length inp)%nat /\ (CtrlMat.n H <= length out)%nat.
Proof.
  intros Hwf (Hpos & Hnk & Hfit). pose proof Hwf as [Hk Hn HK HN].
  unfold OneStepMLG_decode.
  destruct (vget_lt (CtrlMat.N H) 0%nat ltac:(lia)) as (col0 & -> & _).
  cbn [bind].
  destruct (for_range (CtrlMat.n H) (hard_bit inp) out) as [o|] eqn:Hhard;
    cbn [bind].
  - pose proof (shaped_hard_loop _ _ _ _ Hhard) as (Hlo & _).
    rewrite hard_loop_eq in Hhard. case_decide as Hlen; [|done].
    split; [done|]. intros _.
    destruct (mlg_syndrome_sized H Hwf o (replicate (CtrlMat.n H) 0) Hnk)
      as (s & cw & -> & Hs); [by rewrite length_replicate|lia|].
    cbn [bind]. destruct cw; [eauto|].
    destruct (one_step_correct_loop H (Z.of_nat (length col0) / 2) s
                (replicate (CtrlMat.n H) 0) o (CtrlMat.n H))
      as (e' & o' & -> & _); [by rewrite length_replicate|lia|lia| |].
    { by rewrite Hs. }
    cbn [bind]. eauto.
  - rewrite hard_loop_eq in Hhard. case_decide as Hlen; [done|].
    split; [by intros [r [=]]|]. intros [? ?]. lia.
Qed.

(** X8: on a well-formed matrix with at least as many rows as columns, no
    column of which names a row beyond [n], the majority-logic decoders never
    index outside a vector: OneStepMLG, HardMLG, SoftMLG and AdaptiveSoftMLG
    return a result exactly when [in] and [out] have at least [n] entries. *)
Theorem majority_logic_in_bounds (d : decoder) (H : CtrlMat) (max_iter : Z)
    (alpha : double) (inp : list double) (out : list Z) :
  is_majority_logic d = true -> well_formed H -> mlg_fits H ->
  (exists r, decode d H max_iter alpha inp out = Ok r)
  <-> (CtrlMat.n H <= length inp)%nat /\ (CtrlMat.n H <= length out)%nat.
Proof.
  intros Hd Hwf Hfit. destruct d; try discriminate Hd; cbn [decode];
    unfold HardMLG_decode, SoftMLG_decode, AdaptiveSoftMLG_decode;
    first [by apply one_step_decode_total
          | by apply iterative_mlg_decode_total].
Qed.

Lemma majority_logic_in_bounds_witness :
  (exists r, decode AdaptiveSoftMLG H_triangle 5 (sample 1 2)
               [sample 1 1; sample (-9) 10; sample 1 1] [0; 0; 0] = Ok r)
  <-> (CtrlMat.n H_triangle <= 3)%nat /\ (CtrlMat.n H_triangle <= 3)%nat.
Proof.
  apply (majority_logic_in_bounds AdaptiveSoftMLG H_triangle 5 (sample 1 2)
           [sample 1 1; sample (-9) 10; sample 1 1] [0; 0; 0]
           eq_refl H_triangle_well_formed).
  apply square_fits; [exact H_triangle_well_formed|done|cbn; lia].
Defined.

Lemma iterative_mlg_decode_short (R : Type) {arith_R : Arith R} (H : CtrlMat)
    (max_iter : Z) (alpha : double) (inp : list double) (out : list Z)
    (soft adaptive : bool) :
  well_formed H -> (CtrlMat.k H < CtrlMat.n H)%nat -> 1 <= max_iter ->
  (CtrlMat.n H <= length inp)%nat -> (CtrlMat.n H <= length out)%nat ->
  iterative_mlg_decode R H max_iter alpha inp out soft adaptive
  = Err OutOfRange.
Proof.
  intros Hwf Hkn Hmax Hi Ho. unfold iterative_mlg_decode.
  destruct (proj2 (mlg_init_sized (R := R) H inp soft adaptive Hwf out
                     ltac:(lia)) (conj Hi Ho))
    as (gamma & st & -> & Hr & Hs & He & Hw & Hout).
  cbn [bind]. destruct (Z.to_nat max_iter) as [|rem] eqn:Hrem; [lia|].
  cbn [mlg_loop]. unfold mlg_iteration.
  by rewrite mlg_syndrome_short.
Qed.

Lemma one_step_decode_short (H : CtrlMat) (inp : list double) (out : list Z) :
  well_formed H -> (CtrlMat.k H < CtrlMat.n H)%nat ->
  (CtrlMat.n H <= length inp)%nat -> (CtrlMat.n H <= length out)%nat ->
  OneStepMLG_decode H inp out = Err OutOfRange.
Proof.
  intros Hwf Hkn Hi Ho. pose proof Hwf as [Hk Hn HK HN].
  unfold OneStepMLG_decode.
  destruct (vget_lt (CtrlMat.N H) 0%nat ltac:(lia)) as (col0 & -> & _).
  cbn [bind].
  destruct (for_range (CtrlMat.n H) (hard_bit inp) out) as [o|] eqn:Hhard;
    [|by rewrite hard_loop_eq, decide_True in Hhard].
  pose proof (shaped_hard_loop _ _ _ _ Hhard) as (Hlo & _).
  cbn [bind]. rewrite mlg_syndrome_short; [done|done|done| |lia].
  by rewrite length_replicate.
Qed.

(** X9: with fewer rows than columns the majority-logic decoders always
    leave the matrix: on a well-formed [H] with [k < n] and vectors of at
    least [n] entries, OneStepMLG and (given one iteration) HardMLG, SoftMLG
    and AdaptiveSoftMLG read [K[k]], for every received word. *)
Theorem majority_logic_needs_n_rows (d : decoder) (H : CtrlMat) (max_iter : Z)
    (alpha : double) (inp : list double) (out : list Z) :
  is_majority_logic d = true -> well_formed H ->
  (CtrlMat.k H < CtrlMat.n H)%nat ->
  (d <> OneStepMLG -> 1 <= max_iter) ->
  (CtrlMat.n H <= length inp)%nat -> (CtrlMat.n H <= length out)%nat ->
  decode d H max_iter alpha inp out = Err OutOfRange.
Proof.
  intros Hd Hwf Hkn Hmax Hi Ho. destruct d; try discriminate Hd; cbn [decode];
    unfold HardMLG_decode, SoftMLG_decode, AdaptiveSoftMLG_decode;
    first [by apply one_step_decode_short
          | apply iterative_mlg_decode_short; auto].
Qed.

Lemma H_2x3_well_formed : well_formed H_2x3.
Proof. split; [done|done|repeat constructor|repeat constructor]. Qed.

Lemma majority_logic_needs_n_rows_witness :
  decode SoftMLG H_2x3 1 (of_Z 0) [sample 1 1; sample (-1) 1; sample 1 1]
    [0; 0; 0; 0]
  = Err OutOfRange.
Proof.
  apply (majority_logic_needs_n_rows SoftMLG H_2x3 1 (of_Z 0)
           [sample 1 1; sample (-1) 1; sample 1 1] [0; 0; 0; 0] eq_refl
           H_2x3_well_formed); cbn; lia.
Defined.

(** ** The neutral parameters of the min-sum variants *)

Lemma ms_message_normal_one (a : double) (sg : Z) (q r : double) :
  ms_message (of_Z 1) true false sg q r = ms_message a false false sg q r.
Proof.
  unfold ms_message. cbn [negb].
  change (Q2Qc 1 / of_Z 1)%Qc with 1%Qc. by rewrite Qcmult_1_l.
Qed.

Lemma ms_message_offset_zero (a : double) (sg : Z) (q r : double) :
  (of_Z 0 <= r)%Qc ->
  ms_message (of_Z 0) false true sg q r = ms_message a false false sg q r.
Proof.
  intros Hr. unfold ms_message.
  assert (std_max (r - of_Z 0)%Qc (of_Z 0) = r) as ->; [|done].
  assert ((r - of_Z 0)%Qc = r) as -> by (change (of_Z 0) with 0%Qc; ring).
  unfold std_max. cbn [ltb double_arith].
  by rewrite (proj2 (dlt_false _ _) Hr).
Qed.

Lemma dabs_nonneg (x : double) : (of_Z 0 <= dabs x)%Qc.
Proof. apply Qcabs_nonneg. Qed.

Lemma DBL_MAX_nonneg : (of_Z 0 <= DBL_MAX)%Qc.
Proof. by vm_compute. Qed.

Lemma nonneg_lookup (v : list double) (i : nat) (x : double) :
  nonneg v -> v !! i = Some x -> (of_Z 0 <= x)%Qc.
Proof. intros Hv Hx. by apply (Forall_lookup_1 _ _ _ _ Hv Hx). Qed.

Lemma nonneg_insert (v : list double) (i : nat) (x : double) :
  nonneg v -> (of_Z 0 <= x)%Qc -> nonneg (<[i := x]> v).
Proof. intros Hv Hx. by apply Forall_insert. Qed.

Section ms_neutral.
Variables (H : CtrlMat) (inp : list double).

Lemma ms_summary_step_nonneg (iter i j : nat) (st st' : ms_summary) :
  ms_summary_step H inp iter i st j = Ok st' ->
  nonneg st.1.1.2 /\ nonneg st.1.2 -> nonneg st'.1.1.2 /\ nonneg st'.1.2.
Proof.
  destruct st as [[[Q min1] min2] sgn]. unfold ms_summary_step.
  intros Hrun [H1 H2]. cbn [fst snd] in *.
  apply bind_Ok in Hrun as (Q' & _ & Hrun).
  apply bind_Ok in Hrun as (q & _ & Hrun).
  apply bind_Ok in Hrun as (m1 & Hm1%vget_Ok & Hrun).
  apply bind_Ok in Hrun as (m2 & Hm2%vget_Ok & Hrun).
  apply bind_Ok in Hrun as ([min1' min2'] & Hmin & Hrun).
  apply bind_Ok in Hrun as (sgn' & _ & Hrun).
  injection Hrun as <-. cbn [fst snd].
  pose proof (dabs_nonneg q) as Hq.
  pose proof (nonneg_lookup _ _ _ H1 Hm1) as Hm1'.
  destruct (dlt (dabs q) m1).
  - apply bind_Ok in Hmin as (v2 & (_ & ->)%vset_Ok & Hmin).
    apply bind_Ok in Hmin as (v1 & (_ & ->)%vset_Ok & Hmin).
    injection Hmin as <- <-. split; by apply nonneg_insert.
  - destruct (dlt (dabs q) m2).
    + apply bind_Ok in Hmin as (v2 & (_ & ->)%vset_Ok & Hmin).
      injection Hmin as <- <-. split; [done|by apply nonneg_insert].
    + by injection Hmin as <- <-.
Qed.

Lemma ms_summary_row_nonneg (iter i : nat) (st st' : ms_summary) :
  ms_summary_row H inp iter st i = Ok st' ->
  nonneg st.1.1.2 /\ nonneg st.1.2 -> nonneg st'.1.1.2 /\ nonneg st'.1.2.
Proof.
  destruct st as [[[Q min1] min2] sgn]. unfold ms_summary_row.
  intros Hrun [H1 H2]. cbn [fst snd] in *.
  apply bind_Ok in Hrun as (v1 & (_ & ->)%vset_Ok & Hrun).
  apply bind_Ok in Hrun as (v2 & (_ & ->)%vset_Ok & Hrun).
  apply bind_Ok in Hrun as (sg & _ & Hrun).
  apply bind_Ok in Hrun as (Ki & _ & Hrun).
  revert Hrun.
  apply (foldM_invariant
           (fun t : ms_summary => nonneg t.1.1.2 /\ nonneg t.1.2)).
  - intros j t t' _ Ht Hstep. by eapply ms_summary_step_nonneg.
  - cbn [fst snd]. split; apply nonneg_insert; auto using DBL_MAX_nonneg.
Qed.

Lemma ms_summary_loop_nonneg (iter m : nat) (st st' : ms_summary) :
  for_range m (ms_summary_row H inp iter) st = Ok st' ->
  nonneg st.1.1.2 /\ nonneg st.1.2 -> nonneg st'.1.1.2 /\ nonneg st'.1.2.
Proof.
  intros Hrun Hst. revert Hrun.
  apply (for_range_invariant
           (fun _ (t : ms_summary) => nonneg t.1.1.2 /\ nonneg t.1.2));
    [|done].
  intros i t t' _ Ht Hstep. by eapply ms_summary_row_nonneg.
Qed.

Lemma ms_update_step_offset_zero (a : double) (Q min1 min2 : list double)
    (sgn : list Z) (i : nat) (R : list double) (j : nat) :
  nonneg min1 -> nonneg min2 ->
  ms_update_step H (of_Z 0) false true Q min1 min2 sgn i R j
  = ms_update_step H a false false Q min1 min2 sgn i R j.
Proof.
  intros H1 H2. unfold ms_update_step.
  destruct (vget Q _) as [q|]; cbn [bind]; [|done].
  destruct (vget min1 i) as [m1|] eqn:Hm1; cbn [bind]; [|done].
  destruct (vget min2 i) as [m2|] eqn:Hm2; cbn [bind]; [|done].
  destruct (vget sgn i) as [sg|]; cbn [bind]; [|done].
  apply vget_Ok in Hm1, Hm2.
  rewrite (ms_message_offset_zero a); [done|].
  destruct (deqb _ _); eauto using nonneg_lookup.
Qed.

Lemma ms_iteration_offset_zero (a : double) (iter : nat) (st : ms_state) :
  nonneg (ms_min1 st) -> nonneg (ms_min2 st) ->
  ms_iteration H (of_Z 0) inp false true iter st
  = ms_iteration H a inp false false iter st.
Proof.
  intros H1 H2. unfold ms_iteration.
  destruct (for_range (CtrlMat.k H) (ms_summary_row H inp iter) _)
    as [[[[Q min1] min2] sgn]|] eqn:Hsum; cbn [bind]; [|done].
  apply ms_summary_loop_nonneg in Hsum as [H1' H2']; [|done].
  cbn [fst snd] in *.
  rewrite (for_range_ext _ (ms_update_row H a false false Q min1 min2 sgn));
    [done|].
  intros i t _. unfold ms_update_row.
  destruct (vget (CtrlMat.K H) i) as [Ki|]; cbn [bind]; [|done].
  apply foldM_ext. intros j u _. by apply ms_update_step_offset_zero.
Qed.

Lemma ms_iteration_nonneg (a : double) (normalized offset : bool)
    (iter : nat) (st st' : ms_state) (b : bool) :
  ms_iteration H a inp normalized offset iter st = Ok (b, st') ->
  nonneg (ms_min1 st) /\ nonneg (ms_min2 st) ->
  nonneg (ms_min1 st') /\ nonneg (ms_min2 st').
Proof.
  unfold ms_iteration. intros Hrun Hst.
  apply bind_Ok in Hrun as ([[[Q m1] m2] sg] & Hsum & Hrun).
  apply bind_Ok in Hrun as (R & _ & Hrun).
  apply bind_Ok in Hrun as ([Q' o] & _ & Hrun).
  apply bind_Ok in Hrun as (cw & _ & Hrun).
  injection Hrun as <- <-. cbn [ms_min1 ms_min2].
  by apply ms_summary_loop_nonneg in Hsum.
Qed.

Lemma ms_loop_offset_zero (a : double) (rem iter : nat) (st : ms_state) :
  nonneg (ms_min1 st) -> nonneg (ms_min2 st) ->
  ms_loop H (of_Z 0) inp false true rem iter st
  = ms_loop H a inp false false rem iter st.
Proof.
  revert iter st. induction rem as [|rem IH]; intros iter st H1 H2; [done|].
  cbn [ms_loop]. rewrite (ms_iteration_offset_zero a) by done.
  destruct (ms_iteration _ _ _ _ _ _ _) as [[[] st']|] eqn:Hit; cbn [bind];
    [done| |done].
  apply ms_iteration_nonneg in Hit as [? ?]; auto.
Qed.

Lemma ms_iteration_normal_one (a : double) (iter : nat) (st : ms_state) :
  ms_iteration H (of_Z 1) inp true false iter st
  = ms_iteration H a inp false false iter st.
Proof.
  unfold ms_iteration.
  destruct (for_range (CtrlMat.k H) (ms_summary_row H inp iter) _)
    as [[[[Q min1] min2] sgn]|]; cbn [bind]; [|done].
  rewrite (for_range_ext _ (ms_update_row H a false false Q min1 min2 sgn));
    [done|].
  intros i t _. unfold ms_update_row.
  destruct (vget (CtrlMat.K H) i) as [Ki|]; cbn [bind]; [|done].
  apply foldM_ext. intros j u _. unfold ms_update_step.
  destruct (vget Q _) as [q|]; cbn [bind]; [|done].
  destruct (vget min1 i) as [m1|]; cbn [bind]; [|done].
  destruct (vget min2 i) as [m2|]; cbn [bind]; [|done].
  destruct (vget sgn i) as [sg|]; cbn [bind]; [|done].
  by rewrite (ms_message_normal_one a).
Qed.

Lemma ms_loop_normal_one (a : double) (rem iter : nat) (st : ms_state) :
  ms_loop H (of_Z 1) inp true false rem iter st
  = ms_loop H a inp false false rem iter st.
Proof.
  revert iter st. induction rem as [|rem IH]; intros iter st; [done|].
  cbn [ms_loop]. rewrite (ms_iteration_normal_one a).
  destruct (ms_iteration _ _ _ _ _ _ _) as [[[] st']|]; cbn [bind]; auto.
Qed.
End ms_neutral.

(** X10: [NormalizedMinSum] with [alpha = 1] returns what [MinSum] returns,
    for every matrix, iteration budget and input. *)
Theorem normalized_one_is_min_sum (H : CtrlMat) (max_iter : Z)
    (inp : list double) (out : list Z) :
  NormalizedMinSum_decode H max_iter (of_Z 1) inp out
  = MinSum_decode H max_iter inp out.
Proof.
  unfold NormalizedMinSum_decode, MinSum_decode, min_sum_decode. cbn [andb].
  destruct (for_range _ _ _) as [o|]; cbn [bind]; [|done].
  destruct (hard_decide o H) as [[]|]; cbn [bind]; [done| |done].
  apply ms_loop_normal_one.
Qed.

(** X11: [OffsetMinSum] with [alpha = 0] returns what [MinSum] returns, for
    every matrix, iteration budget and input: the two minima of a row are
    magnitudes, which the offset [max(r - 0, 0)] leaves as they are. *)
Theorem offset_zero_is_min_sum (H : CtrlMat) (max_iter : Z)
    (inp : list double) (out : list Z) :
  OffsetMinSum_decode H max_iter (of_Z 0) inp out
  = MinSum_decode H max_iter inp out.
Proof.
  unfold OffsetMinSum_decode, MinSum_decode, min_sum_decode. cbn [andb].
  destruct (for_range _ _ _) as [o|]; cbn [bind]; [|done].
  destruct (hard_decide o H) as [[]|]; cbn [bind]; [done| |done].
  apply ms_loop_offset_zero; cbn [ms_min1 ms_min2];
    apply Forall_replicate, DBL_MAX_nonneg.
Qed.

(** ** What an iteration of [bf_decode] does to its vectors *)

Lemma lxor_one_changes (o : Z) : Z.lxor o 1 <> o.
Proof.
  intros Heq. assert (Z.lxor o (Z.lxor o 1) = 0) as Hz.
  { rewrite Heq. apply Z.lxor_nilpotent. }
  rewrite <- Z.lxor_assoc, Z.lxor_nilpotent, Z.lxor_0_l in Hz. done.
Qed.

Section bf_vectors.
Context {E : Type} {arith_E : Arith E}.
Variables (H : CtrlMat) (alpha : double) (inp : list double).
Variables (weighted modified improved : bool).

(** *** The weights are computed in the first iteration only *)

Lemma bf_metric_step_keep (iter j i : nat) (s : list Z) (w w' : list double)
    (e e' : list E) :
  improved && (iter =? 0)%nat = false ->
  bf_metric_step H inp weighted modified improved iter j s (w, e) i
  = Ok (w', e') ->
  w' = w.
Proof.
  intros Hflag. unfold bf_metric_step. rewrite Hflag.
  cbn [bind]. intros Hrun.
  apply bind_Ok in Hrun as (ej & _ & Hrun).
  apply bind_Ok in Hrun as (si & _ & Hrun).
  destruct improved; [|destruct modified; [|destruct weighted]];
    repeat (apply bind_Ok in Hrun as (? & _ & Hrun)); congruence.
Qed.

Lemma bf_metric_keep (iter j : nat) (s : list Z) (w w' : list double)
    (e e' : list E) :
  improved && (iter =? 0)%nat = false ->
  bf_metric H alpha inp weighted modified improved iter s (w, e) j
  = Ok (w', e') ->
  w' = w.
Proof.
  intros Hflag. unfold bf_metric. intros Hrun.
  apply bind_Ok in Hrun as (e0 & _ & Hrun).
  apply bind_Ok in Hrun as (Nj & _ & Hrun).
  revert Hrun.
  apply (foldM_invariant (fun (t : list double * list E) => t.1 = w)
           _ Nj (w, e0) (w', e')); [|done].
  intros i [t u] [t' u'] _ Ht Hstep. cbn [fst] in *. subst t.
  by eapply bf_metric_step_keep.
Qed.

Lemma bf_metric_loop_keep (iter m : nat) (s : list Z) (w : list double)
    (e : list E) (st : list double * list E) :
  improved && (iter =? 0)%nat = false ->
  for_range m (bf_metric H alpha inp weighted modified improved iter s) (w, e)
  = Ok st ->
  st.1 = w.
Proof.
  intros Hflag.
  apply (for_range_invariant (fun _ (t : list double * list E) => t.1 = w));
    [|done].
  intros j [t u] [t' u'] _ Ht Hstep. cbn [fst] in *. subst t.
  by eapply bf_metric_keep.
Qed.

Lemma bf_iteration_keeps_weights (iter : nat) (st st' : bf_state E) (b : bool) :
  iter <> 0%nat ->
  bf_iteration H alpha inp weighted modified improved iter st = Ok (b, st') ->
  bf_w st' = bf_w st.
Proof.
  intros Hiter%Nat.eqb_neq. unfold bf_iteration. intros Hrun.
  apply bind_Ok in Hrun as ([[s w] cw] & Hsyn & Hrun).
  apply bf_syndrome_loop_full in Hsyn as (_ & _ & Hkeep).
  cbn [fst snd] in Hkeep. rewrite Hiter in Hkeep.
  specialize (Hkeep eq_refl). subst w.
  destruct cw; [by injection Hrun as <- <-|].
  apply bind_Ok in Hrun as ([w e] & Hmet & Hrun).
  apply bind_Ok in Hrun as (T_max & _ & Hrun).
  apply bind_Ok in Hrun as (fl & _ & Hrun).
  apply bind_Ok in Hrun as (o & _ & Hrun).
  injection Hrun as <- <-. cbn [bf_w].
  apply bf_metric_loop_keep in Hmet; [done|].
  by rewrite Hiter, andb_false_r.
Qed.

(** *** An iteration that does not return changes the word *)

Hypothesis max_is_member : forall (e : list E) (m : E),
  max_element e = Ok m -> m ∈ e.
Hypothesis flips_refl : forall x : E, bf_flips weighted x x = true.

Lemma bf_iteration_progress (iter : nat) (st st' : bf_state E) :
  length (bf_e st) = CtrlMat.n H ->
  (CtrlMat.n H <= length (bf_out st))%nat ->
  bf_iteration H alpha inp weighted modified improved iter st = Ok (false, st') ->
  exists j, (j < CtrlMat.n H)%nat /\ bf_out st' !! j <> bf_out st !! j.
Proof.
  intros He Ho Hrun.
  apply bf_iteration_flips in Hrun as (T & HT & Hle & Hflip & _).
  apply max_is_member, list_elem_of_lookup in HT as [j Hj].
  assert (j < CtrlMat.n H)%nat as Hlt.
  { apply lookup_lt_Some in Hj. lia. }
  exists j. split; [done|].
  destruct (Hflip j Hlt) as (ej & Hej & ->).
  assert (ej = T) as -> by congruence. rewrite flips_refl.
  destruct (lookup_lt_is_Some_2 (bf_out st) j ltac:(lia)) as [o ->].
  cbn. intros [= Heq]. by apply lxor_one_changes in Heq.
Qed.
End bf_vectors.

Lemma flips_refl_int (x : Z) : bf_flips false x x = true.
Proof. unfold bf_flips. cbn [eqb int_arith]. apply Z.eqb_refl. Qed.

(** *** The metric of BF *)

Section bf_metric_closed.
Variables (H : CtrlMat) (alpha : double) (inp : list double).

Lemma bf_metric_fold_plain (iter j : nat) (s : list Z) (w : list double)
    (col : list nat) (e : list Z) :
  foldM (bf_metric_step (E := Z) H inp false false false iter j s) col (w, e)
  = let* e' := foldM (one_step_sum j s) col e in Ok (w, e').
Proof.
  revert e. induction col as [|i col IH]; intros e; [done|].
  cbn [foldM]. unfold bf_metric_step at 1, one_step_sum at 1.
  cbn [andb bind add of_int int_arith].
  destruct (vget e j) as [ej|]; cbn [bind]; [|done].
  destruct (vget s i) as [si|]; cbn [bind]; [|done].
  destruct (vset e j (ej + si)) as [e1|]; cbn [bind]; [|done].
  apply IH.
Qed.

Lemma bf_metric_plain (iter j : nat) (s : list Z) (w w' : list double)
    (e e' : list Z) :
  bf_metric (E := Z) H alpha inp false false false iter s (w, e) j
  = Ok (w', e') ->
  exists Nj, CtrlMat.N H !! j = Some Nj
             /\ e' = <[j := column_sum s Nj]> e /\ (j < length e)%nat.
Proof.
  unfold bf_metric. cbn [of_int int_arith]. intros Hrun.
  apply bind_Ok in Hrun as (e0 & (Hj & ->)%vset_Ok & Hrun).
  apply bind_Ok in Hrun as (Nj & HNj%vget_Ok & Hrun).
  rewrite bf_metric_fold_plain in Hrun.
  apply bind_Ok in Hrun as (e1 & Hsum & Hrun). injection Hrun as <- <-.
  rewrite (one_step_sum_eq j s _ Nj 0) in Hsum
    by (by apply list_lookup_insert_eq).
  case_decide; [|done]. injection Hsum as <-.
  exists Nj. by rewrite list_insert_insert_eq.
Qed.

Lemma bf_metric_loop_plain (iter m : nat) (s : list Z) (w : list double)
    (e : list Z) (st : list double * list Z) :
  for_range m (bf_metric (E := Z) H alpha inp false false false iter s) (w, e)
  = Ok st ->
  length st.2 = length e
  /\ forall j Nj, (j < m)%nat -> CtrlMat.N H !! j = Some Nj ->
       st.2 !! j = Some (column_sum s Nj).
Proof.
  apply (for_range_invariant (fun m (st : list double * list Z) =>
    length st.2 = length e
    /\ forall j Nj, (j < m)%nat -> CtrlMat.N H !! j = Some Nj ->
         st.2 !! j = Some (column_sum s Nj))).
  - intros j [t u] [t' u'] Hj (Hlen & IH) Hstep. cbn [snd] in *.
    apply bf_metric_plain in Hstep as (Nj & HNj & -> & Hlt).
    split; [by rewrite length_insert|].
    intros j' Nj' Hj' HNj'.
    destruct (decide (j' = j)) as [->|Hne].
    + rewrite list_lookup_insert_eq by done. congruence.
    + rewrite list_lookup_insert_ne by done. apply IH; [lia|done].
  - split; [done|]. intros j Nj Hj. lia.
Qed.
End bf_metric_closed.

(** X13: the weights of the weighted bit-flipping decoders are computed in
    the first iteration only: every later iteration leaves [w] as it found
    it. *)
Theorem weights_are_computed_once (E : Type) {arith_E : Arith E} (H : CtrlMat)
    (alpha : double) (inp : list double) (weighted modified improved : bool)
    (iter : nat) (st st' : bf_state E) (b : bool) :
  iter <> 0%nat ->
  bf_iteration H alpha inp weighted modified improved iter st = Ok (b, st') ->
  bf_w st' = bf_w st.
Proof. apply bf_iteration_keeps_weights. Qed.

Lemma weights_are_computed_once_witness :
  bf_w wbf_example_last = bf_w wbf_example_next.
Proof.
  apply (weights_are_computed_once double H_triangle (of_Z 0)
           [sample 1 1; sample (-9) 10; sample 1 1] true false false 1
           wbf_example_next wbf_example_last true); [done|by vm_compute].
Defined.

(** X14: in an iteration of BF that does not return, [s[i]] is the parity of
    row [i] of the word the iteration started with, and [e[j]] is the sum of
    [s[i]] over [N[j]], the number of failed checks of column [j]. *)
Theorem bf_metric_counts_failed_checks (H : CtrlMat) (alpha : double)
    (inp : list double) (iter : nat) (st st' : bf_state Z) :
  bf_iteration H alpha inp false false false iter st = Ok (false, st') ->
  (forall i Ki, (i < CtrlMat.k H)%nat -> CtrlMat.K H !! i = Some Ki ->
     bf_s st' !! i = Some (parity (bf_out st) Ki))
  /\ (forall j Nj, (j < CtrlMat.n H)%nat -> CtrlMat.N H !! j = Some Nj ->
        bf_e st' !! j = Some (column_sum (bf_s st') Nj)).
Proof.
  unfold bf_iteration. intros Hrun.
  apply bind_Ok in Hrun as ([[s w] cw] & Hsyn & Hrun).
  apply bf_syndrome_loop_full in Hsyn as ((_ & Hrows & _) & _).
  cbn [fst snd] in Hrows.
  destruct cw; [done|].
  apply bind_Ok in Hrun as ([w' e] & Hmet & Hrun).
  apply bind_Ok in Hrun as (T_max & _ & Hrun).
  apply bind_Ok in Hrun as (fl & _ & Hrun).
  apply bind_Ok in Hrun as (o & _ & Hrun).
  injection Hrun as <-. cbn [bf_s bf_e]. split.
  - intros i Ki Hi HKi. destruct (Hrows i Hi) as (Ki' & HKi' & _ & Hs).
    congruence.
  - apply bf_metric_loop_plain in Hmet as [_ Hmet]. exact Hmet.
Qed.

Lemma bf_metric_counts_failed_checks_witness :
  let st := BfState [] [0; 0; 0] [0; 0; 0] [0; 1; 0] in
  let st' := BfState [] [1; 1; 0] [1; 2; 1] [0; 0; 0] in
  (forall i Ki, (i < CtrlMat.k H_triangle)%nat ->
     CtrlMat.K H_triangle !! i = Some Ki ->
     bf_s st' !! i = Some (parity (bf_out st) Ki))
  /\ (forall j Nj, (j < CtrlMat.n H_triangle)%nat ->
        CtrlMat.N H_triangle !! j = Some Nj ->
        bf_e st' !! j = Some (column_sum (bf_s st') Nj)).
Proof.
  intros st st'.
  apply (bf_metric_counts_failed_checks H_triangle (of_Z 0)
           [sample 1 1; sample (-9) 10; sample 1 1] 0 st st').
  by vm_compute.
Defined.

(** ** [hard_decide] *)

(** X15: on a well-formed matrix and a vector whose first [n] entries are
    bits, [hard_decide] returns without leaving a vector, and its answer is
    [true] exactly when every one of the [k] rows has even parity; the early
    [return false] changes nothing. *)
Theorem hard_decide_is_parity_test (out : list Z) (H : CtrlMat) :
  well_formed H -> bits (CtrlMat.n H) out ->
  hard_decide out H = Ok (is_codeword H out)
  /\ (is_codeword H out = true <->
      forall i Ki, CtrlMat.K H !! i = Some Ki -> parity out Ki = 0).
Proof.
  intros Hwf Hb. split; [by apply hard_decide_eq|]. split.
  - intros Hcw i Ki. by apply is_codeword_lookup.
  - intros Hall. unfold is_codeword. apply forallb_forall.
    intros Ki [i Hi]%list_elem_of_In%list_elem_of_lookup.
    apply Z.eqb_eq. by apply (Hall i).
Qed.

Lemma hard_decide_is_parity_test_witness :
  hard_decide [1; 1; 1] H_triangle = Ok (is_codeword H_triangle [1; 1; 1])
  /\ (is_codeword H_triangle [1; 1; 1] = true <->
      forall i Ki, CtrlMat.K H_triangle !! i = Some Ki -> parity [1; 1; 1] Ki = 0).
Proof.
  apply (hard_decide_is_parity_test [1; 1; 1] H_triangle H_triangle_well_formed).
  intros j Hj. cbn in Hj.
  destruct j as [|[|[|j]]]; [by right|by right|by right|lia].
Defined.

(** ** The word of the iterative MLG decoders follows the registers *)

Section mlg_sign.
Context {R : Type} {arith_R : Arith R}.
Variables (H : CtrlMat) (alpha : double).
Variables (soft adaptive : bool) (gamma : Z).

Lemma mlg_update_sign (e : list Z) (r r' : list R) (out out' : list Z)
    (j : nat) :
  mlg_update alpha soft adaptive gamma e (r, out) j = Ok (r', out') ->
  (j < length r)%nat /\ (j < length out)%nat
  /\ exists x, r' = <[j := x]> r
       /\ out' = <[j := if ltb x (of_int 0) then 1 else 0]> out.
Proof.
  unfold mlg_update. intros Hrun.
  apply bind_Ok in Hrun as (rj & Hrj%vget_Ok & Hrun).
  apply bind_Ok in Hrun as (ej & _ & Hrun).
  apply bind_Ok in Hrun as (r1 & Hr1 & Hrun).
  apply bind_Ok in Hrun as (rj' & Hrj'%vget_Ok & Hrun).
  apply bind_Ok in Hrun as (o1 & (Hlt & ->)%vset_Ok & Hrun).
  injection Hrun as <- <-. apply lookup_lt_Some in Hrj.
  repeat (split; [done|]).
  destruct adaptive; apply vset_Ok in Hr1 as [_ ->];
    rewrite list_lookup_insert_eq in Hrj' by done;
    injection Hrj' as <-; by eexists.
Qed.

Lemma mlg_update_loop_sign (m : nat) (e : list Z) (r : list R) (out : list Z)
    (st : list R * list Z) :
  for_range m (mlg_update alpha soft adaptive gamma e) (r, out) = Ok st ->
  forall j, (j < m)%nat -> exists x,
    st.1 !! j = Some x
    /\ st.2 !! j = Some (if ltb x (of_int 0) then 1 else 0).
Proof.
  intros Hrun.
  enough (length st.1 = length r /\ length st.2 = length out
          /\ forall j, (j < m)%nat -> exists x,
               st.1 !! j = Some x
               /\ st.2 !! j = Some (if ltb x (of_int 0) then 1 else 0))
    as (_ & _ & Hall) by done.
  revert Hrun.
  apply (for_range_invariant (fun m (st : list R * list Z) =>
    length st.1 = length r /\ length st.2 = length out
    /\ forall j, (j < m)%nat -> exists x,
         st.1 !! j = Some x
         /\ st.2 !! j = Some (if ltb x (of_int 0) then 1 else 0))).
  - intros j [t u] [t' u'] Hj (Hlt & Hlu & IH) Hstep. cbn [fst snd] in *.
    apply mlg_update_sign in Hstep as (Hjt & Hju & x & -> & ->).
    rewrite !length_insert. split; [done|]. split; [done|].
    intros j' Hj'. destruct (decide (j' = j)) as [->|Hne].
    + exists x. by rewrite !list_lookup_insert_eq by done.
    + rewrite !list_lookup_insert_ne by done. apply IH. lia.
  - split; [done|]. split; [done|]. intros j Hj. lia.
Qed.
End mlg_sign.

(** X16: after an iteration of HardMLG, SoftMLG or AdaptiveSoftMLG that does
    not return, the word is the sign of the registers: [out[j]] is 1 exactly
    when [r[j] < 0], for every [j < n]. *)
Theorem mlg_word_is_sign_of_registers (R : Type) {arith_R : Arith R}
    (H : CtrlMat) (alpha : double) (soft adaptive : bool) (gamma : Z)
    (st st' : mlg_state R) :
  mlg_iteration H alpha soft adaptive gamma st = Ok (false, st') ->
  forall j, (j < CtrlMat.n H)%nat -> exists x,
    mlg_r st' !! j = Some x
    /\ mlg_out st' !! j = Some (if ltb x (of_int 0) then 1 else 0).
Proof.
  unfold mlg_iteration. intros Hrun.
  apply bind_Ok in Hrun as ([s cw] & _ & Hrun). destruct cw; [done|].
  apply bind_Ok in Hrun as (e & _ & Hrun).
  apply bind_Ok in Hrun as ([r o] & Hupd & Hrun).
  injection Hrun as <-. cbn [mlg_r mlg_out].
  intros j Hj. exact (mlg_update_loop_sign _ _ _ _ _ _ _ _ _ Hupd j Hj).
Qed.

Lemma mlg_word_is_sign_of_registers_witness :
  exists x,
    mlg_r adaptive_example_next !! 1%nat = Some x
    /\ mlg_out adaptive_example_next !! 1%nat
       = Some (if ltb x (of_int 0) then 1 else 0).
Proof.
  apply (mlg_word_is_sign_of_registers double H_triangle (sample 1 2) true true 2
           adaptive_example_start adaptive_example_next);
    [by vm_compute|cbn; lia].
Defined.

(** ** The row weights of WBF and MWBF *)

Lemma std_min_double (a b : double) :
  (std_min a b <= a)%Qc /\ (std_min a b <= b)%Qc
  /\ (std_min a b = a \/ std_min a b = b).
Proof.
  unfold std_min. cbn [ltb double_arith].
  destruct (dlt b a) eqn:Hlt.
  - apply dlt_spec in Hlt. split; [by apply Qclt_le_weak|].
    split; [apply Qcle_refl|by right].
  - apply dlt_false in Hlt. split; [apply Qcle_refl|]. split; [done|by left].
Qed.

Lemma row_min_spec (inp : list double) (row : list nat) (a : double) :
  (row_min inp row a <= a)%Qc
  /\ (forall j x, j ∈ row -> inp !! j = Some x ->
        (row_min inp row a <= dabs x)%Qc)
  /\ (row_min inp row a = a
      \/ exists j, j ∈ row
           /\ row_min inp row a = dabs (default (of_Z 0) (inp !! j))).
Proof.
  revert a. induction row as [|j row IH]; intros a.
  - split; [apply Qcle_refl|]. split; [|by left].
    intros j x Hj. by apply elem_of_nil in Hj.
  - unfold row_min in *. cbn [fold_left].
    set (b := dabs (default (of_Z 0) (inp !! j))).
    destruct (IH (std_min a b)) as (Hle & Hall & Hat).
    destruct (std_min_double a b) as (Ha & Hb & Hab).
    split; [by eapply Qcle_trans|]. split.
    + intros j' x [->|Hj']%elem_of_cons Hx.
      * subst b. rewrite Hx in Hle, Hb |- *.
        change (default (of_Z 0) (Some x)) with x in Hle, Hb |- *.
        by eapply Qcle_trans.
      * by apply (Hall j' x).
    + destruct Hat as [Heq|(j' & Hj' & Heq)].
      * rewrite Heq. destruct Hab as [->| ->]; [by left|].
        right. exists j. split; [by left|done].
      * right. exists j'. split; [by right|done].
Qed.

Section wbf_weights.
Context {E : Type} {arith_E : Arith E}.
Variables (H : CtrlMat) (alpha : double) (inp : list double).
Variable modified : bool.

Lemma bf_row_weights (i : nat) (out : list Z) (row : list nat)
    (s s' : list Z) (w w' : list double) (wi : double) :
  foldM (bf_row_step inp true false 0 i out) row (s, w) = Ok (s', w') ->
  w !! i = Some wi ->
  w' = <[i := row_min inp row wi]> w
  /\ Forall (fun j => (j < length inp)%nat) row.
Proof.
  revert s w wi. induction row as [|j row IH]; intros s w wi Hrun Hwi.
  - injection Hrun as <- <-. by rewrite list_insert_id.
  - cbn [foldM] in Hrun.
    destruct (bf_row_step inp true false 0 i out (s, w) j)
      as [[s1 w1]|] eqn:Hstep; [|done].
    unfold bf_row_step in Hstep. cbn [Nat.eqb andb negb] in Hstep.
    apply bind_Ok in Hstep as (si & _ & Hstep).
    apply bind_Ok in Hstep as (oj & _ & Hstep).
    apply bind_Ok in Hstep as (s2 & _ & Hstep).
    apply bind_Ok in Hstep as (wi' & Hwi'%vget_Ok & Hstep).
    apply bind_Ok in Hstep as (x & Hx%vget_Ok & Hstep).
    apply bind_Ok in Hstep as (w2 & (Hlt & ->)%vset_Ok & Hstep).
    injection Hstep as <- <-.
    assert (wi' = wi) as -> by congruence.
    apply (IH _ _ (std_min wi (dabs x))) in Hrun as (-> & Hrow);
      [|by apply list_lookup_insert_eq].
    rewrite list_insert_insert_eq. split.
    + unfold row_min. cbn [fold_left]. by rewrite Hx.
    + constructor; [|done]. by apply lookup_lt_Some in Hx.
Qed.

Lemma bf_syndrome_weights (i : nat) (out s s' : list Z) (w w' : list double)
    (cw cw' : bool) (Ki : list nat) (wi : double) :
  bf_syndrome H inp true false 0 out (s, w, cw) i = Ok (s', w', cw') ->
  CtrlMat.K H !! i = Some Ki -> w !! i = Some wi ->
  w' = <[i := row_min inp Ki wi]> w
  /\ Forall (fun j => (j < length inp)%nat) Ki.
Proof.
  unfold bf_syndrome. intros Hrun HKi Hwi.
  apply bind_Ok in Hrun as (s0 & _ & Hrun).
  apply bind_Ok in Hrun as (Ki' & HKi'%vget_Ok & Hrun).
  apply bind_Ok in Hrun as ([s1 w1] & Hrow & Hrun).
  apply bind_Ok in Hrun as (si & _ & Hrun).
  injection Hrun as <- <- <-.
  assert (Ki' = Ki) as -> by congruence.
  by eapply bf_row_weights.
Qed.

Lemma bf_syndrome_loop_weights (m : nat) (out s : list Z) (w : list double)
    (cw : bool) (st : list Z * list double * bool) :
  for_range m (bf_syndrome H inp true false 0 out) (s, w, cw) = Ok st ->
  (forall i, (m <= i)%nat -> st.1.2 !! i = w !! i)
  /\ forall i Ki wi, (i < m)%nat ->
       CtrlMat.K H !! i = Some Ki -> w !! i = Some wi ->
       st.1.2 !! i = Some (row_min inp Ki wi)
       /\ Forall (fun j => (j < length inp)%nat) Ki.
Proof.
  apply (for_range_invariant (fun m (st : list Z * list double * bool) =>
    (forall i, (m <= i)%nat -> st.1.2 !! i = w !! i)
    /\ forall i Ki wi, (i < m)%nat ->
         CtrlMat.K H !! i = Some Ki -> w !! i = Some wi ->
         st.1.2 !! i = Some (row_min inp Ki wi)
         /\ Forall (fun j => (j < length inp)%nat) Ki)).
  - intros i [[t u] c] [[t' u'] c'] Hi (Hrest & IH) Hstep.
    cbn [fst snd] in *.
    pose proof Hstep as Hlen.
    apply bf_syndrome_full in Hlen as (_ & Hlen & _).
    split.
    + intros i' Hi'.
      destruct (CtrlMat.K H !! i) as [Ki|] eqn:HKi;
        [|unfold bf_syndrome in Hstep;
          apply bind_Ok in Hstep as (? & _ & Hstep);
          apply bind_Ok in Hstep as (? & HK%vget_Ok & _); congruence].
      destruct (u !! i) as [ui|] eqn:Hui.
      * apply (bf_syndrome_weights _ _ _ _ _ _ _ _ Ki ui) in Hstep as [-> _];
          [|done|done].
        rewrite list_lookup_insert_ne by lia. apply Hrest. lia.
      * apply lookup_ge_None in Hui.
        rewrite (lookup_ge_None_2 u') by lia.
        rewrite <- Hrest by lia. symmetry. apply lookup_ge_None_2. lia.
    + intros i' Ki wi Hi' HKi Hwi.
      destruct (decide (i' = i)) as [->|Hne].
      * assert (u !! i = Some wi) as Hui by (rewrite Hrest by lia; done).
        apply (bf_syndrome_weights _ _ _ _ _ _ _ _ Ki wi) in Hstep
          as [-> Hrange]; [|done|done].
        split; [|done]. apply list_lookup_insert_eq.
        by apply lookup_lt_Some in Hui.
      * destruct (IH i' Ki wi) as [Hw Hrange]; [lia|done|done|].
        split; [|done].
        destruct (CtrlMat.K H !! i) as [Ki'|] eqn:HKi';
          [|unfold bf_syndrome in Hstep;
            apply bind_Ok in Hstep as (? & _ & Hstep);
            apply bind_Ok in Hstep as (? & HK%vget_Ok & _); congruence].
        destruct (u !! i) as [ui|] eqn:Hui.
        -- apply (bf_syndrome_weights _ _ _ _ _ _ _ _ Ki' ui) in Hstep
             as [-> _]; [|done|done].
           by rewrite list_lookup_insert_ne by done.
        -- apply lookup_ge_None in Hui. apply lookup_lt_Some in Hw as Hlt.
           assert (i' < i)%nat by lia.
           (* the row loop of row [i] reads [w[i]] only for a non-empty row *)
           revert Hstep. unfold bf_syndrome. intros Hstep.
           apply bind_Ok in Hstep as (s0 & _ & Hstep).
           apply bind_Ok in Hstep as (Kx & HKx%vget_Ok & Hstep).
           apply bind_Ok in Hstep as ([s1 w1] & Hrow & Hstep).
           apply bind_Ok in Hstep as (si & _ & Hstep).
           injection Hstep as <- <- <-.
           destruct Kx as [|j Kx]; [by injection Hrow as <- <-|].
           cbn [foldM] in Hrow. unfold bf_row_step at 2 in Hrow.
           cbn [Nat.eqb andb negb] in Hrow.
           apply bind_Ok in Hrow as ([s2 w2] & Hfirst & _).
           apply bind_Ok in Hfirst as (? & _ & Hfirst).
           apply bind_Ok in Hfirst as (? & _ & Hfirst).
           apply bind_Ok in Hfirst as (? & _ & Hfirst).
           apply bind_Ok in Hfirst as (? & Hbad%vget_Ok & _).
           apply lookup_lt_Some in Hbad. lia.
  - split; [done|]. intros i Ki wi Hi. lia.
Qed.
End wbf_weights.

(** X17: the first iteration of WBF and MWBF leaves in [w[i]] the smallest
    magnitude of row [i]: a value not above [|in[j]|] for any [j] of [K[i]],
    not above the initial [w[i]], and equal to one of them. *)
Theorem row_weight_is_smallest_magnitude (H : CtrlMat) (alpha : double)
    (inp : list double) (modified : bool) (st st' : bf_state double) (b : bool)
    (i : nat) (Ki : list nat) (wi : double) :
  bf_iteration H alpha inp true modified false 0 st = Ok (b, st') ->
  (i < CtrlMat.k H)%nat -> CtrlMat.K H !! i = Some Ki ->
  bf_w st !! i = Some wi ->
  exists m, bf_w st' !! i = Some m
    /\ (m <= wi)%Qc
    /\ (forall j, j ∈ Ki -> exists x, inp !! j = Some x /\ (m <= dabs x)%Qc)
    /\ (m = wi \/ exists j x, j ∈ Ki /\ inp !! j = Some x /\ m = dabs x).
Proof.
  unfold bf_iteration. intros Hrun Hi HKi Hwi.
  apply bind_Ok in Hrun as ([[s w] cw] & Hsyn & Hrun).
  apply bf_syndrome_loop_weights in Hsyn as [_ Hsyn].
  destruct (Hsyn i Ki wi Hi HKi Hwi) as [Hw Hrange]. cbn [fst snd] in Hw.
  assert (bf_w st' = w) as ->.
  { destruct cw; [by injection Hrun as <- <-|].
    apply bind_Ok in Hrun as ([w' e] & Hmet & Hrun).
    apply bind_Ok in Hrun as (T_max & _ & Hrun).
    apply bind_Ok in Hrun as (fl & _ & Hrun).
    apply bind_Ok in Hrun as (o & _ & Hrun).
    injection Hrun as <- <-. cbn [bf_w].
    by apply bf_metric_loop_keep in Hmet. }
  exists (row_min inp Ki wi). split; [done|].
  destruct (row_min_spec inp Ki wi) as (Hle & Hall & Hat).
  split; [done|]. rewrite list.Forall_forall in Hrange. split.
  - intros j Hj.
    destruct (lookup_lt_is_Some_2 inp j (Hrange j Hj)) as [x Hx].
    exists x. split; [done|]. by apply (Hall j x).
  - destruct Hat as [?|(j & Hj & Heq)]; [by left|]. right.
    destruct (lookup_lt_is_Some_2 inp j (Hrange j Hj)) as [x Hx].
    exists j, x. by rewrite Hx in Heq.
Qed.

Lemma row_weight_is_smallest_magnitude_witness :
  exists m, bf_w wbf_example_next !! 0%nat = Some m
    /\ (m <= DBL_MAX)%Qc
    /\ (forall j, j ∈ [0; 1]%nat -> exists x,
          [sample 1 1; sample (-9) 10; sample 1 1] !! j = Some x
          /\ (m <= dabs x)%Qc)
    /\ (m = DBL_MAX
        \/ exists j x, j ∈ [0; 1]%nat
             /\ [sample 1 1; sample (-9) 10; sample 1 1] !! j = Some x
             /\ m = dabs x).
Proof.
  apply (row_weight_is_smallest_magnitude H_triangle (of_Z 0)
           [sample 1 1; sample (-9) 10; sample 1 1] false
           wbf_example_start wbf_example_next false);
    [by vm_compute|cbn; lia|done|done].
Defined.

(** ** The bit string of [to_bin_str] *)

Lemma append_digit (s t : string) (b : bool) :
  (s +:+ (if b then "1" else "0")) +:+ t = s +:+ String (digit_char b) t.
Proof.
  induction s as [|c s IH].
  - by destruct b.
  - change (String c ((s +:+ (if b then "1" else "0")) +:+ t)
            = String c (s +:+ String (digit_char b) t)).
    by f_equal.
Qed.

Lemma append_empty (s : string) : s +:+ EmptyString = s.
Proof.
  induction s as [|c s IH]; [done|].
  change (String c (s +:+ EmptyString) = String c s). by f_equal.
Qed.

Lemma append_nil_l (s : string) : EmptyString +:+ s = s.
Proof. done. Qed.

Lemma digits_fold (f : Z -> bool) (es : list Z) (s : string) :
  fold_left (fun bin_str e => bin_str +:+ (if f e then "1" else "0")) es s
  = s +:+ digits_string (map f es).
Proof.
  revert s. induction es as [|e es IH]; intros s; cbn [fold_left map digits_string].
  - by rewrite append_empty.
  - by rewrite IH, append_digit.
Qed.

Lemma digits_string_length (ds : list bool) :
  String.length (digits_string ds) = length ds.
Proof. induction ds as [|b ds IH]; cbn; [done|by rewrite IH]. Qed.

Lemma digits_string_get (ds : list bool) (p : nat) :
  String.get p (digits_string ds) = digit_char <$> ds !! p.
Proof.
  revert p. induction ds as [|b ds IH]; intros p; [done|].
  destruct p as [|p]; cbn; [done|apply IH].
Qed.

Lemma py_max_spec (l : list Z) (m : Z) :
  py_max l = Return m -> m ∈ l /\ Forall (fun e => e <= m) l.
Proof.
  destruct l as [|x l]; [done|]. cbn [py_max]. intros [= <-].
  assert (Hgen : forall a, (fold_left Z.max l a = a \/ fold_left Z.max l a ∈ l)
                           /\ a <= fold_left Z.max l a
                           /\ Forall (fun e => e <= fold_left Z.max l a) l).
  { induction l as [|y l IH]; intros a; cbn [fold_left].
    - split; [by left|]. split; [lia|constructor].
    - destruct (IH (Z.max a y)) as (Hin & Hle & Hall).
      split; [|split; [lia|constructor; [lia|done]]].
      destruct Hin as [Heq|Hin]; [|right; by right].
      rewrite Heq. destruct (Z.max_spec a y) as [[_ ->]|[_ ->]];
        [right; by left|by left]. }
  destruct (Hgen x) as (Hin & Hle & Hall). split.
  - destruct Hin as [->|Hin]; [by left|by right].
  - by constructor.
Qed.

Lemma range_down_length (start : Z) :
  length (range_down start) = Z.to_nat (start + 1).
Proof. unfold range_down. by rewrite length_map, length_seq. Qed.

Lemma range_down_lookup (start : Z) (p : nat) :
  (p < Z.to_nat (start + 1))%nat ->
  range_down start !! p = Some (start - Z.of_nat p).
Proof.
  intros Hp. unfold range_down. rewrite list_lookup_fmap.
  by rewrite lookup_seq_lt by done.
Qed.

Lemma range_down_succ (n : nat) :
  range_down (Z.of_nat n) = Z.of_nat n :: range_down (Z.of_nat n - 1).
Proof.
  unfold range_down.
  replace (Z.to_nat (Z.of_nat n + 1)) with (S n) by lia.
  replace (Z.to_nat (Z.of_nat n - 1 + 1)) with n by lia.
  cbn [seq map]. f_equal; [lia|].
  rewrite <- seq_shift, map_map. apply map_ext. intros i. lia.
Qed.

(** The value of [n] digits, the digit of weight [2^e] being [f e]. *)
Lemma bin_value_digits (f : Z -> bool) (n : nat) (v : Z) (e : nat) :
  0 <= v ->
  Z.testbit
    (bin_value_from (digits_string (map f (range_down (Z.of_nat n - 1)))) v)
    (Z.of_nat e)
  = if decide (e < n)%nat then f (Z.of_nat e)
    else Z.testbit v (Z.of_nat (e - n)).
Proof.
  revert v. induction n as [|n IH]; intros v Hv.
  - cbn. by rewrite Nat.sub_0_r.
  - replace (Z.of_nat (S n) - 1) with (Z.of_nat n) by lia.
    rewrite range_down_succ. cbn [map digits_string bin_value_from].
    rewrite IH by (destruct (bool_decide _); lia).
    destruct (decide (e < n)%nat) as [Hlt|Hge].
    { by rewrite decide_True by lia. }
    assert (bool_decide (digit_char (f (Z.of_nat n)) = "1"%char) = f (Z.of_nat n))
      as -> by (by destruct (f (Z.of_nat n))).
    destruct (decide (e = n)) as [->|Hne].
    + rewrite decide_True by lia. rewrite Nat.sub_diag.
      destruct (f (Z.of_nat n)).
      * by rewrite Z.testbit_odd_0.
      * by rewrite Z.add_0_r, Z.testbit_even_0.
    + rewrite decide_False by lia.
      replace (Z.of_nat (e - n)) with (Z.succ (Z.of_nat (e - S n))) by lia.
      destruct (f (Z.of_nat n)).
      * by rewrite Z.testbit_odd_succ by lia.
      * by rewrite Z.add_0_r, Z.testbit_even_succ by lia.
Qed.

(** X18: [to_bin_str] raises [ValueError] exactly on the empty list;
    otherwise it returns a string of [degree + 1] characters, [degree] being
    the largest exponent, whose character at position [p] is '1' when
    [degree - p] is among the exponents and '0' when it is not. *)
Theorem to_bin_str_digits (exponents : list Z) :
  (to_bin_str exponents = Raise ValueError <-> exponents = [])
  /\ (exponents <> [] ->
      exists degree s,
        to_bin_str exponents = Return s
        /\ degree ∈ exponents /\ Forall (fun e => e <= degree) exponents
        /\ String.length s = Z.to_nat (degree + 1)
        /\ forall p, (p < Z.to_nat (degree + 1))%nat ->
             String.get p s
             = Some (digit_char (bool_decide (degree - Z.of_nat p ∈ exponents)))).
Proof.
  split.
  - destruct exponents; [done|]. split; [|done]. unfold to_bin_str. by cbn.
  - intros Hne. unfold to_bin_str.
    destruct (py_max exponents) as [degree|e] eqn:Hmax;
      [|by destruct exponents].
    apply py_max_spec in Hmax as [Hin Hall].
    eexists degree, _. split; [done|]. split; [done|]. split; [done|].
    rewrite (digits_fold (fun e => bool_decide (e ∈ exponents))).
    rewrite append_nil_l. split.
    + by rewrite digits_string_length, length_map, range_down_length.
    + intros p Hp. rewrite digits_string_get, list_lookup_fmap.
      by rewrite range_down_lookup by done.
Qed.

Lemma to_bin_str_digits_witness :
  exists degree s,
    to_bin_str [1; 4; 0] = Return s
    /\ degree ∈ [1; 4; 0] /\ Forall (fun e => e <= degree) [1; 4; 0]
    /\ String.length s = Z.to_nat (degree + 1)
    /\ forall p, (p < Z.to_nat (degree + 1))%nat ->
         String.get p s
         = Some (digit_char (bool_decide (degree - Z.of_nat p ∈ [1; 4; 0]))).
Proof. apply (proj2 (to_bin_str_digits [1; 4; 0])). done. Defined.

(** X19: for a non-empty list of non-negative exponents the string returned
    by [to_bin_str], read as a binary numeral, has bit [e] set exactly for the
    exponents [e] of the list: it is the polynomial, whatever the order and
    the repetitions of the exponents. *)
Theorem to_bin_str_value (exponents : list Z) :
  exponents <> [] -> Forall (fun e => 0 <= e) exponents ->
  exists s, to_bin_str exponents = Return s
    /\ forall e, 0 <= e ->
         Z.testbit (bin_value s) e = bool_decide (e ∈ exponents).
Proof.
  intros Hne Hpos. unfold to_bin_str.
  destruct (py_max exponents) as [degree|x] eqn:Hmax; [|by destruct exponents].
  apply py_max_spec in Hmax as [Hin Hall].
  eexists. split; [done|]. intros e He.
  rewrite (digits_fold (fun e => bool_decide (e ∈ exponents))).
  rewrite append_nil_l. unfold bin_value.
  assert (0 <= degree) as Hdeg.
  { rewrite list.Forall_forall in Hpos. by apply Hpos. }
  replace degree with (Z.of_nat (Z.to_nat (degree + 1)) - 1) at 1 by lia.
  replace e with (Z.of_nat (Z.to_nat e)) at 1 by lia.
  rewrite bin_value_digits by done.
  case_decide as Hlt.
  - by replace (Z.of_nat (Z.to_nat e)) with e by lia.
  - rewrite Z.testbit_0_l. symmetry. apply bool_decide_eq_false.
    intros Hmem. rewrite list.Forall_forall in Hall.
    specialize (Hall e Hmem). lia.
Qed.

Lemma to_bin_str_value_witness :
  exists s, to_bin_str [1; 4; 0; 4] = Return s
    /\ forall e, 0 <= e ->
         Z.testbit (bin_value s) e = bool_decide (e ∈ [1; 4; 0; 4]).
Proof.
  apply (to_bin_str_value [1; 4; 0; 4]); [done|].
  repeat constructor; lia.
Defined.

(** ** The failures of the decoders *)

Lemma range_max_element {T : Type} {arith_T : Arith T} (e : list T) :
  only_range_errors (max_element e).
Proof. unfold max_element. destruct e; [by intros ? [=]|apply range_Ok]. Qed.

Lemma range_bf_iteration (E : Type) {arith_E : Arith E} (H : CtrlMat)
    (alpha : double) (inp : list double) (weighted modified improved : bool)
    (iter : nat) (st : bf_state E) :
  only_range_errors
    (bf_iteration H alpha inp weighted modified improved iter st).
Proof.
  unfold bf_iteration, bf_syndrome, bf_row_step, bf_metric, bf_metric_step,
    bf_weight_step, bf_select, flip.
  range_errors; apply range_max_element.
Qed.

Lemma range_bf_loop (E : Type) {arith_E : Arith E} (H : CtrlMat)
    (alpha : double) (inp : list double) (weighted modified improved : bool)
    (rem iter : nat) (st : bf_state E) :
  only_range_errors (bf_loop H alpha inp weighted modified improved rem iter st).
Proof.
  revert iter st. induction rem as [|rem IH]; intros iter st; cbn [bf_loop].
  - apply range_Ok.
  - apply range_bind; [apply range_bf_iteration|].
    intros [[] st']; [apply range_Ok|apply IH].
Qed.

Lemma bf_decode_assertions (E : Type) {arith_E : Arith E} (H : CtrlMat)
    (max_iter : Z) (alpha : double) (inp : list double) (out : list Z)
    (weighted modified improved : bool) :
  (bf_flags_ok weighted modified improved ->
   only_range_errors
     (bf_decode E H max_iter alpha inp out weighted modified improved))
  /\ (~ bf_flags_ok weighted modified improved ->
      bf_decode E H max_iter alpha inp out weighted modified improved
      = Err AssertionFailed).
Proof.
  unfold bf_flags_ok, bf_decode, bf_init. split.
  - intros [-> ->]. cbn [negb]. apply range_bind.
    + apply range_bind; [unfold hard_bit; range_errors|intros; apply range_Ok].
    + intros st. apply range_bf_loop.
  - intros Hno.
    destruct (negb modified || weighted); cbn [negb]; [|done].
    destruct (negb improved || modified && weighted); cbn [negb]; [|done].
    by destruct Hno.
Qed.

Lemma range_mlg_iteration (R : Type) {arith_R : Arith R} (H : CtrlMat)
    (alpha : double) (soft adaptive : bool) (gamma : Z) (st : mlg_state R) :
  only_range_errors (mlg_iteration H alpha soft adaptive gamma st).
Proof.
  unfold mlg_iteration, mlg_syndrome, mlg_row_step, mlg_metric,
    mlg_metric_step, mlg_update.
  range_errors.
Qed.

Lemma range_iterative_mlg_decode (R : Type) {arith_R : Arith R} (H : CtrlMat)
    (max_iter : Z) (alpha : double) (inp : list double) (out : list Z)
    (soft adaptive : bool) :
  only_range_errors (iterative_mlg_decode R H max_iter alpha inp out soft adaptive).
Proof.
  unfold iterative_mlg_decode. apply range_bind.
  - unfold mlg_init, mlg_init_step, hard_bit, mlg_weight_row, mlg_weight_cell,
      mlg_wij_step.
    range_errors.
  - intros [gamma st]. generalize (Z.to_nat max_iter) as rem. intros rem.
    revert st. induction rem as [|rem IH]; intros st; cbn [mlg_loop].
    + apply range_Ok.
    + apply range_bind; [apply range_mlg_iteration|].
      intros [[] st']; [apply range_Ok|apply IH].
Qed.

Lemma range_one_step_decode (H : CtrlMat) (inp : list double) (out : list Z) :
  only_range_errors (OneStepMLG_decode H inp out).
Proof.
  unfold OneStepMLG_decode, hard_bit, mlg_syndrome, mlg_row_step,
    one_step_correct, one_step_sum, flip.
  range_errors.
Qed.

(** X20: the decoder classes fail in one way only, by leaving a vector: none
    of the eleven [_decode] functions trips an assertion of [bf_decode] or the
    [invalid_argument] of [min_sum_decode], for any matrix and input; and
    [bf_decode] itself fails its assertions exactly for the flag combinations
    with [modified] but not [weighted], or [improved] but not both. *)
Theorem decoders_only_leave_vectors (d : decoder) (H : CtrlMat) (max_iter : Z)
    (alpha : double) (inp : list double) (out : list Z) :
  (forall e, decode d H max_iter alpha inp out = Err e -> e = OutOfRange)
  /\ (forall weighted modified improved,
        bf_decode Z H max_iter alpha inp out weighted modified improved
        = Err AssertionFailed
        <-> ~ bf_flags_ok weighted modified improved).
Proof.
  split.
  - destruct d; cbn [decode];
      unfold BF_decode, WBF_decode, MWBF_decode, IMWBF_decode, HardMLG_decode,
        SoftMLG_decode, AdaptiveSoftMLG_decode, MinSum_decode,
        NormalizedMinSum_decode, OffsetMinSum_decode.
    1-4: apply bf_decode_assertions; by split.
    1: apply range_one_step_decode.
    1-3: apply range_iterative_mlg_decode.
    all: by apply range_min_sum_decode.
  - intros weighted modified improved. split.
    + intros Herr Hok.
      apply (bf_decode_assertions Z H max_iter alpha inp out) in Hok.
      by apply Hok in Herr.
    + apply bf_decode_assertions.
Qed.

Lemma decoders_only_leave_vectors_witness :
  bf_decode Z H_triangle 5 (of_Z 0) [sample 1 1; sample (-9) 10; sample 1 1]
    [0; 0; 0] false true false
  = Err AssertionFailed.
Proof.
  apply (proj2 (decoders_only_leave_vectors BF H_triangle 5 (of_Z 0)
                  [sample 1 1; sample (-9) 10; sample 1 1] [0; 0; 0])).
  by intros [Hf _].
Defined.

(** ** The variable-node pass of min-sum *)

Lemma cell_injective (n i j i' j' : nat) :
  (j < n)%nat -> (j' < n)%nat -> (i * n + j = i' * n + j')%nat ->
  i = i' /\ j = j'.
Proof.
  intros Hj Hj' Heq.
  assert (i = i') as ->; [|split; [done|lia]].
  destruct (Nat.lt_trichotomy i i') as [Hlt|[->|Hgt]]; [|done|]; nia.
Qed.

Section ms_variable_pass.
Variables (H : CtrlMat) (inp : list double) (R : list double).




End ms_variable_pass.



(** ** The metric of the iterative MLG decoders *)

Section mlg_metric_closed.
Variables (H : CtrlMat) (adaptive : bool) (s w out : list Z).

Lemma mlg_metric_fold (j : nat) (col : list nat) (e e' : list Z) (ej oj : Z) :
  e !! j = Some ej -> out !! j = Some oj ->
  foldM (mlg_metric_step H adaptive j s w out) col e = Ok e' ->
  e' = <[j := mlg_vote_from H adaptive s w oj j col ej]> e.
Proof.
  intros Hej Hoj. revert e ej Hej.
  induction col as [|i col IH]; intros e ej Hej Hrun.
  - injection Hrun as <-. by rewrite list_insert_id.
  - cbn [foldM] in Hrun. unfold mlg_metric_step at 1 in Hrun.
    apply bind_Ok in Hrun as (e1 & Hstep & Hrun).
    apply bind_Ok in Hstep as (ej' & Hej'%vget_Ok & Hstep).
    apply bind_Ok in Hstep as (si & Hsi%vget_Ok & Hstep).
    apply bind_Ok in Hstep as (oj' & Hoj'%vget_Ok & Hstep).
    assert (ej' = ej) as -> by congruence.
    assert (oj' = oj) as -> by congruence.
    assert (e1 = <[j := mlg_vote_from H adaptive s w oj j [i] ej]> e) as ->.
    { unfold mlg_vote_from. cbn [fold_left]. rewrite Hsi. cbn [default].
      destruct adaptive.
      - apply bind_Ok in Hstep as (wij & Hw%vget_Ok & Hstep).
        apply vset_Ok in Hstep as [_ ->]. by rewrite Hw.
      - apply vset_Ok in Hstep as [_ ->]. by rewrite Z.mul_1_r. }
    apply lookup_lt_Some in Hej as Hlt.
    apply (IH _ (mlg_vote_from H adaptive s w oj j [i] ej)) in Hrun as ->;
      [|by apply list_lookup_insert_eq].
    by rewrite list_insert_insert_eq.
Qed.

Lemma mlg_metric_closed (e e' : list Z) (j : nat) (Nj : list nat) (oj : Z) :
  CtrlMat.N H !! j = Some Nj -> out !! j = Some oj ->
  mlg_metric H adaptive s w out e j = Ok e' ->
  e' = <[j := mlg_vote H adaptive s w oj j Nj]> e /\ (j < length e)%nat.
Proof.
  intros HNj Hoj. unfold mlg_metric. intros Hrun.
  apply bind_Ok in Hrun as (e0 & (Hlt & ->)%vset_Ok & Hrun).
  apply bind_Ok in Hrun as (Nj' & HNj'%vget_Ok & Hrun).
  assert (Nj' = Nj) as -> by congruence.
  apply (mlg_metric_fold j Nj _ _ 0 oj) in Hrun as ->;
    [|by apply list_lookup_insert_eq|done].
  by rewrite list_insert_insert_eq.
Qed.

Lemma mlg_metric_loop_closed (m : nat) (e e' : list Z) :
  for_range m (mlg_metric H adaptive s w out) e = Ok e' ->
  forall j Nj oj, (j < m)%nat ->
    CtrlMat.N H !! j = Some Nj -> out !! j = Some oj ->
    e' !! j = Some (mlg_vote H adaptive s w oj j Nj).
Proof.
  apply (for_range_invariant (fun m (e' : list Z) =>
    forall j Nj oj, (j < m)%nat ->
      CtrlMat.N H !! j = Some Nj -> out !! j = Some oj ->
      e' !! j = Some (mlg_vote H adaptive s w oj j Nj))).
  - intros j t t' Hj IH Hstep j' Nj' oj' Hj' HNj' Hoj'.
    destruct (decide (j' = j)) as [->|Hne].
    + destruct (mlg_metric_closed _ _ _ Nj' oj' HNj' Hoj' Hstep) as [Heq Hlt].
      rewrite Heq. by apply list_lookup_insert_eq.
    + pose proof Hstep as Hstep'. unfold mlg_metric in Hstep'.
      apply bind_Ok in Hstep' as (e0 & _ & Hstep').
      apply bind_Ok in Hstep' as (Nj & HNj%vget_Ok & Hstep').
      destruct (out !! j) as [oj|] eqn:Hoj.
      * destruct (mlg_metric_closed _ _ _ Nj oj HNj Hoj Hstep) as [Heq _].
        rewrite Heq, list_lookup_insert_ne by done.
        apply IH; [lia|done|done].
      * (* the metric of a column outside [out] is computed for an empty
           column only *)
        destruct Nj as [|i Nj].
        -- injection Hstep' as <-.
           unfold mlg_metric in Hstep.
           apply bind_Ok in Hstep as (e1 & (_ & ->)%vset_Ok & Hstep).
           apply bind_Ok in Hstep as (Nx & HNx%vget_Ok & Hstep).
           assert (Nx = []) as -> by congruence.
           injection Hstep as <-.
           rewrite list_lookup_insert_ne by done. apply IH; [lia|done|done].
        -- cbn [foldM] in Hstep'. unfold mlg_metric_step at 1 in Hstep'.
           apply bind_Ok in Hstep' as (e1 & Hfirst & _).
           apply bind_Ok in Hfirst as (? & _ & Hfirst).
           apply bind_Ok in Hfirst as (? & _ & Hfirst).
           apply bind_Ok in Hfirst as (? & Hbad%vget_Ok & _).
           congruence.
  - intros j Nj oj Hj. lia.
Qed.
End mlg_metric_closed.

(** X22: the metric of an iteration of HardMLG, SoftMLG or AdaptiveSoftMLG
    that does not return: [e[j]] is the sum over the rows [i] of [N[j]] of
    [2 (s[i] xor out[j]) - 1], times [w[i, j]] in the adaptive decoder, with
    [s] the syndrome of the iteration and [out] the word it started with. *)
Theorem mlg_metric_is_vote (R : Type) {arith_R : Arith R} (H : CtrlMat)
    (alpha : double) (soft adaptive : bool) (gamma : Z) (st st' : mlg_state R)
    (j : nat) (Nj : list nat) (oj : Z) :
  mlg_iteration H alpha soft adaptive gamma st = Ok (false, st') ->
  (j < CtrlMat.n H)%nat -> CtrlMat.N H !! j = Some Nj ->
  mlg_out st !! j = Some oj ->
  mlg_e st' !! j
  = Some (mlg_vote H adaptive (mlg_s st') (mlg_w st) oj j Nj)
  /\ mlg_w st' = mlg_w st.
Proof.
  unfold mlg_iteration. intros Hrun Hj HNj Hoj.
  apply bind_Ok in Hrun as ([s cw] & _ & Hrun). destruct cw; [done|].
  apply bind_Ok in Hrun as (e & Hmet & Hrun).
  apply bind_Ok in Hrun as ([r o] & _ & Hrun).
  injection Hrun as <-. cbn [mlg_e mlg_s mlg_w]. split; [|done].
  by apply (mlg_metric_loop_closed _ _ _ _ _ _ _ _ Hmet).
Qed.

Lemma mlg_metric_is_vote_witness :
  mlg_e adaptive_example_next !! 1%nat
  = Some (mlg_vote H_triangle true (mlg_s adaptive_example_next)
            (mlg_w adaptive_example_start) 1 1 [0; 1]%nat)
  /\ mlg_w adaptive_example_next = mlg_w adaptive_example_start.
Proof.
  apply (mlg_metric_is_vote double H_triangle (sample 1 2) true true 2
           adaptive_example_start adaptive_example_next 1 [0; 1]%nat 1);
    [by vm_compute|cbn; lia|done|by vm_compute].
Defined.

(** ** The edge weights of IMWBF *)

Lemma seq_split (n j : nat) :
  (j < n)%nat -> seq 0 n = seq 0 j ++ j :: seq (S j) (n - S j).
Proof.
  intros Hj. replace n with (j + S (n - S j))%nat at 1 by lia.
  by rewrite seq_app.
Qed.

Lemma lookup_agree {A : Type} (l : list A) (i : nat) (x y : A) :
  l !! i = Some x -> l !! i = Some y -> x = y.
Proof. congruence. Qed.

Section imwbf_weights.
Context {E : Type} {arith_E : Arith E}.
Variables (H : CtrlMat) (alpha : double) (inp : list double).
Variables (weighted modified : bool).

Lemma bf_weight_fold (i j : nat) (row : list nat) (w w' : list double) :
  foldM (bf_weight_step H inp i j) row w = Ok w' ->
  (forall c, c <> (i * CtrlMat.n H + j)%nat -> w' !! c = w !! c)
  /\ forall a, w !! (i * CtrlMat.n H + j)%nat = Some a ->
       exists m, w' !! (i * CtrlMat.n H + j)%nat = Some m
         /\ (m <= a)%Qc
         /\ (m = a \/ exists jp x, jp ∈ row /\ jp <> j
               /\ inp !! jp = Some x /\ m = dabs x)
         /\ edge_low inp j row m.
Proof.
  revert w. induction row as [|jp row IH]; intros w Hrun.
  - injection Hrun as <-. split; [done|]. intros a Ha. exists a.
    split; [done|]. split; [apply Qcle_refl|]. split; [by left|].
    intros jp Hjp. by apply elem_of_nil in Hjp.
  - cbn [foldM] in Hrun. apply bind_Ok in Hrun as (w1 & Hstep & Hrun).
    apply IH in Hrun as [Hrest Hcell]. unfold bf_weight_step in Hstep.
    destruct (jp =? j)%nat eqn:Hjp.
    + apply Nat.eqb_eq in Hjp as ->. injection Hstep as <-.
      split; [done|]. intros a Ha.
      destruct (Hcell a Ha) as (m & Hm & Hle & Hat & Hlow).
      exists m. split; [done|]. split; [done|]. split.
      * destruct Hat as [?|(jp & x & ? & ? & ? & ?)]; [by left|].
        right. exists jp, x. split; [by right|done].
      * intros jp [->|Hin]%elem_of_cons Hne; [done|by apply Hlow].
    + apply Nat.eqb_neq in Hjp.
      apply bind_Ok in Hstep as (wij & Hwij%vget_Ok & Hstep).
      apply bind_Ok in Hstep as (x & Hx%vget_Ok & Hstep).
      apply vset_Ok in Hstep as (Hlt & ->).
      split.
      { intros c Hc. rewrite Hrest by done.
        by apply list_lookup_insert_ne. }
      intros a Ha. pose proof (lookup_agree _ _ _ _ Hwij Ha) as ->.
      destruct (Hcell (std_min a (dabs x))) as (m & Hm & Hle & Hat & Hlow).
      { by apply list_lookup_insert_eq. }
      destruct (std_min_double a (dabs x)) as (Hma & Hmx & Hmin).
      exists m. split; [done|]. split; [by eapply Qcle_trans|]. split.
      * destruct Hat as [Hat|(jp' & x' & ? & ? & ? & ?)].
        -- destruct Hmin as [Hmin|Hmin]; [left; by etrans|].
           right. exists jp, x. split; [by left|].
           split; [done|]. split; [done|by etrans].
        -- right. exists jp', x'. split; [by right|done].
      * intros jp' [->|Hin]%elem_of_cons Hne; [|by apply Hlow].
        exists x. split; [done|]. by eapply Qcle_trans.
Qed.

Lemma bf_metric_step_edge (j i : nat) (s : list Z) (w w' : list double)
    (e e' : list E) :
  bf_metric_step H inp weighted modified true 0 j s (w, e) i = Ok (w', e') ->
  exists Ki, CtrlMat.K H !! i = Some Ki
    /\ foldM (bf_weight_step H inp i j) Ki w = Ok w'.
Proof.
  unfold bf_metric_step. cbn [andb Nat.eqb]. intros Hrun.
  apply bind_Ok in Hrun as (w1 & Hw & Hrun).
  apply bind_Ok in Hw as (Ki & HKi%vget_Ok & Hw).
  apply bind_Ok in Hrun as (ej & _ & Hrun).
  apply bind_Ok in Hrun as (si & _ & Hrun).
  apply bind_Ok in Hrun as (wij & _ & Hrun).
  apply bind_Ok in Hrun as (e1 & _ & Hrun).
  injection Hrun as <- <-. by exists Ki.
Qed.

Variable w0 : list double.

Lemma step_edge_cells (j i : nat) (s : list Z) (w w' : list double)
    (e e' : list E) :
  (j < CtrlMat.n H)%nat -> edge_cells H inp w0 w ->
  bf_metric_step H inp weighted modified true 0 j s (w, e) i = Ok (w', e') ->
  edge_cells H inp w0 w'.
Proof.
  intros Hj Hinv (Ki & HKi & Hfold)%bf_metric_step_edge.
  apply bf_weight_fold in Hfold as [Hrest Hcell].
  intros c a Ha. destruct (Hinv c a Ha) as (m0 & Hm0 & Hle0 & Hat0).
  destruct (decide (c = (i * CtrlMat.n H + j)%nat)) as [->|Hne].
  - destruct (Hcell m0 Hm0) as (m & Hm & Hle & Hat & _).
    exists m. split; [done|]. split; [by eapply Qcle_trans|].
    destruct Hat as [->|(jp & x & ? & ? & ? & ?)]; [done|].
    right. by exists i, j, Ki, jp, x.
  - exists m0. by rewrite Hrest.
Qed.

Lemma step_edge_done_keep (i j i' j' : nat) (s : list Z) (w w' : list double)
    (e e' : list E) :
  (j < CtrlMat.n H)%nat -> (j' < CtrlMat.n H)%nat ->
  edge_done H inp w0 w i j ->
  bf_metric_step H inp weighted modified true 0 j' s (w, e) i' = Ok (w', e') ->
  edge_done H inp w0 w' i j.
Proof.
  intros Hj Hj' Hdone (Ki' & HKi' & Hfold)%bf_metric_step_edge.
  apply bf_weight_fold in Hfold as [Hrest Hcell].
  intros Ki a HKi Ha. destruct (Hdone Ki a HKi Ha) as (m0 & Hm0 & Hlow0).
  destruct (decide ((i * CtrlMat.n H + j)%nat = (i' * CtrlMat.n H + j')%nat))
    as [Heq|Hne].
  - rewrite Heq in Hm0 |- *.
    destruct (Hcell m0 Hm0) as (m & Hm & Hle & _ & _).
    exists m. split; [done|]. intros jp Hjp Hnj.
    destruct (Hlow0 jp Hjp Hnj) as (x & Hx & Hmx).
    exists x. split; [done|]. by eapply Qcle_trans.
  - exists m0. by rewrite Hrest.
Qed.

Lemma step_edge_done_new (i j : nat) (s : list Z) (w w' : list double)
    (e e' : list E) :
  edge_cells H inp w0 w ->
  bf_metric_step H inp weighted modified true 0 j s (w, e) i = Ok (w', e') ->
  edge_done H inp w0 w' i j.
Proof.
  intros Hinv (Ki & HKi & Hfold)%bf_metric_step_edge.
  apply bf_weight_fold in Hfold as [_ Hcell].
  intros Ki' a HKi' Ha. assert (Ki' = Ki) as -> by congruence.
  destruct (Hinv _ a Ha) as (m0 & Hm0 & _).
  destruct (Hcell m0 Hm0) as (m & Hm & _ & _ & Hlow). by exists m.
Qed.

(** *** One column *)

Lemma rows_edge_cells (j : nat) (s : list Z) (col : list nat)
    (we we' : list double * list E) :
  (j < CtrlMat.n H)%nat -> edge_cells H inp w0 we.1 ->
  foldM (bf_metric_step H inp weighted modified true 0 j s) col we = Ok we' ->
  edge_cells H inp w0 we'.1.
Proof.
  intros Hj Hinv.
  apply (foldM_invariant (fun t : list double * list E =>
           edge_cells H inp w0 t.1)); [|done].
  intros i [t u] [t' u'] _ Ht Hstep. by eapply step_edge_cells.
Qed.

Lemma rows_edge_done_keep (i j j' : nat) (s : list Z) (col : list nat)
    (we we' : list double * list E) :
  (j < CtrlMat.n H)%nat -> (j' < CtrlMat.n H)%nat ->
  edge_done H inp w0 we.1 i j ->
  foldM (bf_metric_step H inp weighted modified true 0 j' s) col we = Ok we' ->
  edge_done H inp w0 we'.1 i j.
Proof.
  intros Hj Hj' Hdone.
  apply (foldM_invariant (fun t : list double * list E =>
           edge_done H inp w0 t.1 i j)); [|done].
  intros i' [t u] [t' u'] _ Ht Hstep. by eapply step_edge_done_keep.
Qed.

Lemma rows_edge_done_new (i j : nat) (s : list Z) (col : list nat)
    (we we' : list double * list E) :
  (j < CtrlMat.n H)%nat -> i ∈ col -> edge_cells H inp w0 we.1 ->
  foldM (bf_metric_step H inp weighted modified true 0 j s) col we = Ok we' ->
  edge_done H inp w0 we'.1 i j.
Proof.
  intros Hj (pre & post & ->)%list_elem_of_split Hinv.
  rewrite foldM_app. intros Hrun.
  apply bind_Ok in Hrun as (we1 & Hpre & Hrun).
  apply rows_edge_cells in Hpre; [|done|done].
  cbn [foldM] in Hrun. apply bind_Ok in Hrun as (we2 & Hstep & Hrun).
  destruct we1 as [t u], we2 as [t' u'].
  apply step_edge_done_new in Hstep; [|done].
  by apply (rows_edge_done_keep i j j) in Hrun.
Qed.

Lemma column_split (j : nat) (s : list Z) (we we' : list double * list E) :
  bf_metric H alpha inp weighted modified true 0 s we j = Ok we' ->
  exists Nj e0,
    CtrlMat.N H !! j = Some Nj
    /\ foldM (bf_metric_step H inp weighted modified true 0 j s) Nj (we.1, e0)
       = Ok we'.
Proof.
  destruct we as [w e]. unfold bf_metric. intros Hrun.
  apply bind_Ok in Hrun as (e0 & _ & Hrun).
  apply bind_Ok in Hrun as (Nj & HNj%vget_Ok & Hrun).
  by exists Nj, e0.
Qed.

(** *** The pass over the columns *)

Lemma columns_edge_cells (s : list Z) (cols : list nat)
    (we we' : list double * list E) :
  Forall (fun j => (j < CtrlMat.n H)%nat) cols ->
  edge_cells H inp w0 we.1 ->
  foldM (bf_metric H alpha inp weighted modified true 0 s) cols we = Ok we' ->
  edge_cells H inp w0 we'.1.
Proof.
  intros Hcols Hinv. rewrite list.Forall_forall in Hcols.
  apply (foldM_invariant (fun t : list double * list E =>
           edge_cells H inp w0 t.1)); [|done].
  intros j t t' Hj Ht (Nj & e0 & _ & Hfold)%column_split.
  by apply (rows_edge_cells j) in Hfold; [|apply Hcols|].
Qed.

Lemma columns_edge_done_keep (i j : nat) (s : list Z) (cols : list nat)
    (we we' : list double * list E) :
  (j < CtrlMat.n H)%nat ->
  Forall (fun j => (j < CtrlMat.n H)%nat) cols ->
  edge_done H inp w0 we.1 i j ->
  foldM (bf_metric H alpha inp weighted modified true 0 s) cols we = Ok we' ->
  edge_done H inp w0 we'.1 i j.
Proof.
  intros Hj Hcols Hdone. rewrite list.Forall_forall in Hcols.
  apply (foldM_invariant (fun t : list double * list E =>
           edge_done H inp w0 t.1 i j)); [|done].
  intros j' t t' Hj' Ht (Nj & e0 & _ & Hfold)%column_split.
  by apply (rows_edge_done_keep i j j') in Hfold; [|done|apply Hcols|].
Qed.

Lemma pass_edge_done (i j : nat) (Nj : list nat) (s : list Z)
    (e : list E) (we' : list double * list E) :
  (j < CtrlMat.n H)%nat -> CtrlMat.N H !! j = Some Nj -> i ∈ Nj ->
  for_range (CtrlMat.n H) (bf_metric H alpha inp weighted modified true 0 s)
    (w0, e) = Ok we' ->
  edge_cells H inp w0 we'.1 /\ edge_done H inp w0 we'.1 i j.
Proof.
  intros Hj HNj Hi. unfold for_range.
  assert (Hall : forall a m, (a + m <= CtrlMat.n H)%nat ->
            Forall (fun j => (j < CtrlMat.n H)%nat) (seq a m)).
  { intros a m Ham. apply list.Forall_forall. intros x Hx%elem_of_seq. lia. }
  assert (Hstart : edge_cells H inp w0 w0).
  { intros c a Ha. exists a. split; [done|]. split; [apply Qcle_refl|by left]. }
  intros Hrun. split.
  { apply (columns_edge_cells s _ (w0, e)) in Hrun; [done| |done].
    apply Hall. lia. }
  rewrite (seq_split (CtrlMat.n H) j Hj), foldM_app in Hrun.
  apply bind_Ok in Hrun as (we1 & Hbefore & Hrun).
  apply columns_edge_cells in Hbefore; [|apply Hall; lia|done].
  cbn [foldM] in Hrun. apply bind_Ok in Hrun as (we2 & Hcol & Hrun).
  apply column_split in Hcol as (Nj' & e0 & HNj' & Hfold).
  assert (Nj' = Nj) as -> by congruence.
  apply (rows_edge_done_new i j) in Hfold; [|done|done|done].
  apply (columns_edge_done_keep i j) in Hrun; [done|done| |done].
  apply Hall. lia.
Qed.
End imwbf_weights.

(** X23: the first iteration of IMWBF, when it does not return, leaves in
    the weight [w[i, j]] of an edge (row [i] in [N[j]]) the smallest magnitude
    of the other columns of row [i]: a value not above [|in[j']|] for any
    [j'] of [K[i]] other than [j], not above the initial weight (DBL_MAX),
    and equal to one of them. *)
Theorem edge_weight_excludes_own_column (H : CtrlMat) (alpha : double)
    (inp : list double) (st st' : bf_state double)
    (i j : nat) (Nj Ki : list nat) (a : double) :
  bf_iteration H alpha inp true true true 0 st = Ok (false, st') ->
  (j < CtrlMat.n H)%nat -> CtrlMat.N H !! j = Some Nj -> i ∈ Nj ->
  CtrlMat.K H !! i = Some Ki ->
  bf_w st !! (i * CtrlMat.n H + j)%nat = Some a ->
  exists m, bf_w st' !! (i * CtrlMat.n H + j)%nat = Some m
    /\ (m <= a)%Qc
    /\ (forall jp, jp ∈ Ki -> jp <> j ->
          exists x, inp !! jp = Some x /\ (m <= dabs x)%Qc)
    /\ (m = a \/ exists jp x, jp ∈ Ki /\ jp <> j
          /\ inp !! jp = Some x /\ m = dabs x).
Proof.
  unfold bf_iteration. intros Hrun Hj HNj Hi HKi Ha.
  apply bind_Ok in Hrun as ([[s w] cw] & Hsyn & Hrun).
  apply bf_syndrome_loop_full in Hsyn as (_ & _ & Hkeep).
  cbn [fst snd negb andb] in Hkeep. rewrite andb_false_r in Hkeep.
  specialize (Hkeep eq_refl). subst w.
  destruct cw; [done|].
  apply bind_Ok in Hrun as ([w' e] & Hmet & Hrun).
  apply bind_Ok in Hrun as (T_max & _ & Hrun).
  apply bind_Ok in Hrun as (fl & _ & Hrun).
  apply bind_Ok in Hrun as (o & _ & Hrun).
  injection Hrun as <-. cbn [bf_w].
  apply (pass_edge_done H alpha inp true true (bf_w st) i j Nj) in Hmet
    as [Hcells Hdone]; [|done|done|done].
  cbn [fst] in *.
  destruct (Hcells _ a Ha) as (m & Hm & Hle & Hat).
  destruct (Hdone Ki a HKi Ha) as (m' & Hm' & Hlow).
  pose proof (lookup_agree _ _ _ _ Hm' Hm) as ->.
  exists m. split; [done|]. split; [done|]. split; [done|].
  destruct Hat as [?|(i' & j' & Ki' & jp & x & Hc & Hj' & HKi' & ? & ? & ? & ?)];
    [by left|].
  apply cell_injective in Hc as [<- <-]; [|done|done].
  assert (Ki' = Ki) as -> by congruence.
  right. by exists jp, x.
Qed.

Lemma edge_weight_excludes_own_column_witness :
  let inp := [sample 1 1; sample (-9) 10; sample 1 1] in
  exists m, bf_w imwbf_example_next !! (0 * CtrlMat.n H_triangle + 1)%nat = Some m
    /\ (m <= DBL_MAX)%Qc
    /\ (forall jp, jp ∈ [0; 1]%nat -> jp <> 1%nat ->
          exists x, inp !! jp = Some x /\ (m <= dabs x)%Qc)
    /\ (m = DBL_MAX \/ exists jp x, jp ∈ [0; 1]%nat /\ jp <> 1%nat
          /\ inp !! jp = Some x /\ m = dabs x).
Proof.
  intros inp.
  apply (edge_weight_excludes_own_column H_triangle (sample 1 2) inp
           imwbf_example_start imwbf_example_next 0 1 [0; 1]%nat [0; 1]%nat
           DBL_MAX);
    [by vm_compute|cbn; lia|done|by left|done|done].
Defined.

(** ** The debug printers *)

Lemma append_cons (c : ascii) (s t : string) :
  String c s +:+ t = String c (s +:+ t).
Proof. done. Qed.

Lemma append_assoc (a b c : string) : (a +:+ b) +:+ c = a +:+ (b +:+ c).
Proof.
  induction a as [|x a IH]; [done|]. rewrite !append_cons. by f_equal.
Qed.

Lemma length_append (a b : string) :
  String.length (a +:+ b) = (String.length a + String.length b)%nat.
Proof.
  induction a as [|x a IH]; [done|]. rewrite append_cons. cbn. by rewrite IH.
Qed.

Lemma substring_prefix (a b : string) :
  String.substring 0 (String.length a) (a +:+ b) = a.
Proof.
  induction a as [|x a IH].
  - by destruct b.
  - rewrite append_cons. cbn. by rewrite IH.
Qed.

Lemma substring_none (n : nat) (s : string) :
  String.substring n 0 s = EmptyString.
Proof.
  revert n. induction s as [|x s IH]; intros [|n]; cbn; auto.
Qed.

(** Replacing the last two characters. *)
Lemma replace_tail (a t : string) (c1 c2 : ascii) :
  std_replace (a +:+ String c1 (String c2 EmptyString))
    (String.length (a +:+ String c1 (String c2 EmptyString)) - 2) 2 t
  = Ok (a +:+ t).
Proof.
  unfold std_replace. rewrite length_append. cbn [String.length].
  replace (String.length a + 2 - 2)%nat with (String.length a) by lia.
  rewrite (proj2 (Nat.ltb_ge _ _)) by lia.
  rewrite substring_prefix.
  replace (String.length a + 2 - (String.length a + 2))%nat with 0%nat by lia.
  by rewrite substring_none, append_empty.
Qed.

Section printers_facts.
Context {T : Type} (show : T -> string).

Lemma sprint_word_fold (size k : nat) (l : list T) (acc : string) :
  size = (k + length l)%nat ->
  fold_left
    (fun ss (ix : nat * T) =>
       (ss +:+ show ix.2) +:+ (if (ix.1 =? size - 1)%nat then ")" else " "))
    (imap (fun i x => ((k + i)%nat, x)) l) acc
  = match l with
    | [] => acc
    | _ => acc +:+ (String.concat " " (map show l) +:+ ")")
    end.
Proof.
  revert k acc. induction l as [|x l IH]; intros k acc Hsize; [done|].
  rewrite imap_cons. cbn [fold_left fst snd].
  rewrite (imap_ext _ (fun i y => ((S k + i)%nat, y)))
    by (intros; unfold compose; f_equal; lia).
  rewrite (IH (S k)) by (cbn [length] in Hsize; lia).
  cbn [length] in Hsize. destruct l as [|y l].
  - rewrite (proj2 (Nat.eqb_eq _ _)) by (cbn [length] in Hsize; lia).
    cbn [map String.concat]. by rewrite append_assoc.
  - rewrite (proj2 (Nat.eqb_neq _ _)) by (cbn [length] in Hsize; lia).
    change (String.concat " " (map show (x :: y :: l)))
      with (show x +:+ " " +:+ String.concat " " (map show (y :: l))).
    by rewrite !append_assoc.
Qed.

Lemma sprint_set_fold (l : list T) (acc : string) :
  fold_left (fun ss val => (ss +:+ show val) +:+ ", ") l acc
  = match l with
    | [] => acc
    | _ => acc +:+ (String.concat ", " (map show l) +:+ ", ")
    end.
Proof.
  revert acc. induction l as [|x l IH]; intros acc; [done|].
  cbn [fold_left]. rewrite IH. destruct l as [|y l].
  - cbn [map String.concat]. by rewrite append_assoc.
  - change (String.concat ", " (map show (x :: y :: l)))
      with (show x +:+ ", " +:+ String.concat ", " (map show (y :: l))).
    by rewrite !append_assoc.
Qed.
End printers_facts.

(** X24: [sprint_word] prints the elements between parentheses, separated by
    single spaces; for an empty vector the closing parenthesis is missing. *)
Theorem sprint_word_brackets (T : Type) (show : T -> string) (name : string) :
  sprint_word show name [] = name +:+ " = ("
  /\ forall x vect,
       sprint_word show name (x :: vect)
       = name +:+ " = (" +:+ String.concat " " (map show (x :: vect)) +:+ ")".
Proof.
  split; [done|]. intros x vect. unfold sprint_word.
  rewrite (imap_ext _ (fun i y => ((0 + i)%nat, y))) by done.
  rewrite (sprint_word_fold show _ 0) by done.
  by rewrite append_assoc.
Qed.

(** X25: [sprint_set] never fails; it prints the elements between braces,
    separated by a comma and a space, and for an empty set the replacement of
    the last two characters eats the space and the opening brace. *)
Theorem sprint_set_braces (T : Type) (show : T -> string) (name : string) :
  sprint_set show name [] = Ok (name +:+ " =}")
  /\ forall x set,
       sprint_set show name (x :: set)
       = Ok (name +:+ " = {" +:+ String.concat ", " (map show (x :: set))
             +:+ "}").
Proof.
  split.
  - unfold sprint_set. cbn [fold_left].
    change (name +:+ " = {") with (name +:+ (" =" +:+ " {")).
    rewrite <- append_assoc.
    rewrite (proj2 (Nat.ltb_ge _ _)) by (rewrite length_append; cbn; lia).
    rewrite replace_tail. by rewrite append_assoc.
  - intros x set. unfold sprint_set. rewrite sprint_set_fold.
    rewrite <- !append_assoc.
    rewrite (proj2 (Nat.ltb_ge _ _)) by (rewrite length_append; cbn; lia).
    rewrite replace_tail. by rewrite !append_assoc.
Qed.

(** ** The metric of WBF and MWBF *)

Section wbf_metric_closed.
Variables (H : CtrlMat) (alpha : double) (inp : list double).
Variable modified : bool.



End wbf_metric_closed.



(** ** The registers of the iterative MLG decoders *)

Section mlg_registers.
Context {R : Type} {arith_R : Arith R}.
Variables (H : CtrlMat) (alpha : double).
Variables (soft adaptive : bool) (gamma : Z).


End mlg_registers.



(** ** The weighted bit-flipping decoders in floating-point arithmetic *)

Section fp_flip_set.
Context {F : Type} {float_F : Fp.Float F}.
Variables (H : CtrlMat) (alpha : F) (inp : list F).
Variables (weighted modified improved : bool).

(** [max_element] returns one of the entries, whatever the comparison
    does. *)
Lemma fp_fold_max_member (l : list F) (a : F) :
  fold_left (fun m y => if Fp.f_lt m y then y else m) l a ∈ a :: l.
Proof.
  revert a. induction l as [|y l IH]; intros a; cbn [fold_left].
  - by left.
  - destruct (Fp.f_lt a y).
    + right. apply IH.
    + specialize (IH a). apply elem_of_cons in IH as [-> | Hin].
      * by left.
      * by do 2 right.
Qed.

Lemma fp_max_element_member (e : list F) (m : F) :
  Fp.max_element e = Ok m -> m ∈ e.
Proof.
  destruct e as [|a l]; [done|]. intros [= <-]. apply fp_fold_max_member.
Qed.

Lemma fp_bf_select_loop (e : list F) (T_max : F) (m : nat) (fl : list nat) :
  for_range m (Fp.bf_select weighted e T_max) [] = Ok fl ->
  fp_selected weighted e T_max m fl.
Proof.
  apply (for_range_invariant (fp_selected weighted e T_max)).
  - intros j t t' Hj (Hnd & Hlen & Hin) Hstep. unfold Fp.bf_select in Hstep.
    apply bind_Ok in Hstep as (ej & Hej%vget_Ok & Hstep).
    apply lookup_lt_Some in Hej as Hlt.
    assert (Hfresh : j ∉ t) by (intros [Hc _]%Hin; lia).
    destruct (Fp.bf_flips weighted ej T_max) eqn:Hfl; injection Hstep as <-.
    + split; [|split; [lia|]].
      * apply list.NoDup_app. split; [done|]. split; [|apply NoDup_singleton].
        intros x Hx ->%list_elem_of_singleton. done.
      * intros x. rewrite elem_of_app, list_elem_of_singleton, Hin. split.
        -- intros [[Hx Hex] | ->]; [split; [lia|done]|]. split; [lia|eauto].
        -- intros [Hx Hex]. destruct (decide (x = j)); [by right|].
           left. split; [lia|done].
    + split; [done|]. split; [lia|].
      intros x. rewrite Hin. split.
      * intros [Hx Hex]. split; [lia|done].
      * intros [Hx (ex & Hex & Hfx)]. split; [|eauto].
        destruct (decide (x = j)) as [->|]; [|lia]. congruence.
  - split; [constructor|]. split; [lia|].
    intros j. split; [by intros ?%elem_of_nil|]. intros [? _]. lia.
Qed.

(** The metric pass keeps the length of [e]. *)
Lemma fp_bf_metric_length (iter m : nat) (s : list Z) (w e : list F)
    (st : list F * list F) :
  for_range m (Fp.bf_metric H alpha inp weighted modified improved iter s)
            (w, e) = Ok st ->
  length st.2 = length e.
Proof.
  apply (for_range_invariant (fun _ (we : list F * list F) =>
    length we.2 = length e)); [|done].
  intros j [u t] [u' t'] _ IH Hstep. cbn [snd] in *.
  unfold Fp.bf_metric in Hstep.
  apply bind_Ok in Hstep as (t0 & Ht0 & Hstep).
  apply bind_Ok in Hstep as (Nj & _ & Hstep).
  assert (Hl0 : length t0 = length e).
  { destruct modified.
    - apply bind_Ok in Ht0 as (x & _ & (_ & ->)%vset_Ok).
      by rewrite length_insert.
    - apply vset_Ok in Ht0 as (_ & ->). by rewrite length_insert. }
  revert Hstep.
  apply (foldM_invariant (fun (we : list F * list F) =>
    length we.2 = length e)); [|done].
  intros i [u1 t1] [u2 t2] _ IH1 Hstep. cbn [snd] in *.
  unfold Fp.bf_metric_step in Hstep.
  apply bind_Ok in Hstep as (u3 & _ & Hstep).
  apply bind_Ok in Hstep as (ej & _ & Hstep).
  apply bind_Ok in Hstep as (si & _ & Hstep).
  destruct improved; [|destruct modified; [|destruct weighted]].
  1-3: apply bind_Ok in Hstep as (x & _ & Hstep).
  all: apply bind_Ok in Hstep as (t3 & (_ & ->)%vset_Ok & Hstep);
    injection Hstep as <- <-; by rewrite length_insert.
Qed.

(** An iteration that does not return flips exactly the positions that
    pass the test against the value [max_element] returns. *)
Lemma fp_bf_iteration_flips (iter : nat) (st st' : Fp.bf_state F) :
  Fp.bf_iteration H alpha inp weighted modified improved iter st
  = Ok (false, st') ->
  exists T_max,
    Fp.max_element (Fp.bf_e st') = Ok T_max
    /\ length (Fp.bf_e st') = length (Fp.bf_e st)
    /\ (forall j, (j < CtrlMat.n H)%nat -> exists ej,
          Fp.bf_e st' !! j = Some ej
          /\ Fp.bf_out st' !! j
             = (fun o => if Fp.bf_flips weighted ej T_max
                         then Z.lxor o 1 else o)
               <$> Fp.bf_out st !! j)
    /\ (forall j, (CtrlMat.n H <= j)%nat ->
          Fp.bf_out st' !! j = Fp.bf_out st !! j).
Proof.
  unfold Fp.bf_iteration. intros Hrun.
  apply bind_Ok in Hrun as ([[s w] cw] & _ & Hrun).
  destruct cw; [done|].
  apply bind_Ok in Hrun as ([w1 e1] & Hmetric & Hrun).
  apply bind_Ok in Hrun as (T_max & HT & Hrun).
  apply bind_Ok in Hrun as (fl & Hsel & Hrun).
  apply bind_Ok in Hrun as (o & Hfl & Hrun).
  injection Hrun as <-. cbn [Fp.bf_e Fp.bf_out].
  apply fp_bf_select_loop in Hsel as (Hnd & Hlen & Hin).
  apply flips_lookup in Hfl as [Hrange Hpt]; [|done].
  exists T_max. split; [done|]. split.
  { by apply fp_bf_metric_length in Hmetric. }
  split.
  - intros j Hj.
    destruct (lookup_lt_is_Some_2 e1 j ltac:(lia)) as [ej Hej].
    exists ej. split; [done|]. rewrite Hpt.
    destruct (Fp.bf_flips weighted ej T_max) eqn:Hflag.
    + rewrite decide_True by (apply Hin; eauto). done.
    + rewrite decide_False.
      2: { intros (_ & ej' & Hej' & Hc)%Hin. congruence. }
      by destruct (Fp.bf_out st !! j).
  - intros j Hj. rewrite Hpt. rewrite decide_False; [done|].
    intros [Hc _]%Hin. lia.
Qed.

(** When the value [max_element] returns passes the test against itself,
    an iteration that does not return changes the word. *)
Lemma fp_bf_iteration_progress (iter : nat) (st st' : Fp.bf_state F) :
  length (Fp.bf_e st) = CtrlMat.n H ->
  (CtrlMat.n H <= length (Fp.bf_out st))%nat ->
  Fp.bf_iteration H alpha inp weighted modified improved iter st
  = Ok (false, st') ->
  (forall T, Fp.max_element (Fp.bf_e st') = Ok T ->
             Fp.bf_flips weighted T T = true) ->
  exists j, (j < CtrlMat.n H)%nat
            /\ Fp.bf_out st' !! j <> Fp.bf_out st !! j.
Proof.
  intros He Ho Hrun Hrefl.
  apply fp_bf_iteration_flips in Hrun as (T & HT & Hle & Hflip & _).
  specialize (Hrefl T HT).
  apply fp_max_element_member, list_elem_of_lookup in HT as [j Hj].
  assert (j < CtrlMat.n H)%nat as Hlt.
  { apply lookup_lt_Some in Hj. lia. }
  exists j. split; [done|].
  destruct (Hflip j Hlt) as (ej & Hej & ->).
  assert (ej = T) as -> by congruence. rewrite Hrefl.
  destruct (lookup_lt_is_Some_2 (Fp.bf_out st) j ltac:(lia)) as [o ->].
  cbn. intros [= Heq].
  assert (Z.lxor o (Z.lxor o 1) = 0) as Hz.
  { rewrite Heq. apply Z.lxor_nilpotent. }
  rewrite <- Z.lxor_assoc, Z.lxor_nilpotent, Z.lxor_0_l in Hz. done.
Qed.
End fp_flip_set.

(** ** MWBF with [alpha = 0] in floating-point arithmetic *)

Section fp_mwbf_zero.
Context {F : Type} {float_F : Fp.Float F}.
Variables (H : CtrlMat) (inp : list F).

Lemma fp_hard_loop_long (n : nat) (out out' : list Z) :
  for_range n (Fp.hard_bit inp) out = Ok out' -> (n <= length inp)%nat.
Proof.
  apply (for_range_invariant (fun i (_ : list Z) => (i <= length inp)%nat));
    [|lia].
  intros i t t' _ _ Hstep. unfold Fp.hard_bit in Hstep.
  apply bind_Ok in Hstep as (x & Hx%vget_Ok & _).
  apply lookup_lt_Some in Hx. lia.
Qed.

Hypothesis inp_long : (CtrlMat.n H <= length inp)%nat.
Hypothesis zero_penalty : forall x, x ∈ inp ->
  Fp.f_mul (Fp.f_neg (Fp.f_of_int 0)) (Fp.f_abs x) = Fp.f_of_int 0.

Lemma fp_bf_metric_zero (iter : nat) (s : list Z) (we : list F * list F)
    (j : nat) :
  (j < CtrlMat.n H)%nat ->
  Fp.bf_metric H (Fp.f_of_int 0) inp true true false iter s we j
  = Fp.bf_metric H (Fp.f_of_int 0) inp true false false iter s we j.
Proof.
  intros Hj. destruct we as [w e]. unfold Fp.bf_metric.
  destruct (vget_lt inp j ltac:(lia)) as (x & -> & Hx). cbn [bind].
  rewrite zero_penalty by (by eapply list_elem_of_lookup_2). done.
Qed.

Lemma fp_bf_iteration_zero (iter : nat) (st : Fp.bf_state F) :
  Fp.bf_iteration H (Fp.f_of_int 0) inp true true false iter st
  = Fp.bf_iteration H (Fp.f_of_int 0) inp true false false iter st.
Proof.
  unfold Fp.bf_iteration.
  destruct (for_range (CtrlMat.k H) _ _) as [[[s w] cw]|]; [|done].
  cbn [bind]. destruct cw; [done|].
  rewrite (for_range_ext _
             (Fp.bf_metric H (Fp.f_of_int 0) inp true false false iter s));
    [done|].
  intros j t Hj. by apply fp_bf_metric_zero.
Qed.

Lemma fp_bf_loop_zero (rem iter : nat) (st : Fp.bf_state F) :
  Fp.bf_loop H (Fp.f_of_int 0) inp true true false rem iter st
  = Fp.bf_loop H (Fp.f_of_int 0) inp true false false rem iter st.
Proof.
  revert iter st. induction rem as [|rem IH]; intros iter st; [done|].
  cbn [Fp.bf_loop]. rewrite fp_bf_iteration_zero.
  destruct (Fp.bf_iteration _ _ _ _ _ _ _ _) as [[[] st']|]; cbn [bind]; auto.
Qed.
End fp_mwbf_zero.

Lemma fp_mwbf_zero_is_wbf {F : Type} {float_F : Fp.Float F} (H : CtrlMat)
    (max_iter : Z) (inp : list F) (out : list Z) :
  (forall x, x ∈ inp ->
     Fp.f_mul (Fp.f_neg (Fp.f_of_int 0)) (Fp.f_abs x) = Fp.f_of_int 0) ->
  Fp.MWBF_decode H max_iter (Fp.f_of_int 0) inp out
  = Fp.WBF_decode H max_iter inp out.
Proof.
  intros Hzero.
  unfold Fp.MWBF_decode, Fp.WBF_decode, Fp.bf_decode, Fp.bf_init.
  cbn [negb orb andb].
  destruct (for_range (CtrlMat.n H) (Fp.hard_bit inp) out) as [o|] eqn:Hhard;
    [|done].
  cbn [bind]. apply fp_hard_loop_long in Hhard.
  by apply fp_bf_loop_zero.
Qed.

(** ** The values of binary64 *)

Lemma x_result_zero : Fp.x_result (of_Z 0) = Fp.Finite (of_Z 0).
Proof. by vm_compute. Qed.

(** For a finite sample the penalty [-0 * |x|] is zero. *)
Lemma x_zero_penalty (x : Fp.xdouble) :
  is_finite x = true ->
  Fp.f_mul (Fp.f_neg (Fp.f_of_int 0)) (Fp.f_abs x) = Fp.f_of_int 0.
Proof.
  destruct x as [q| | |]; [intros _|done..].
  cbn [Fp.f_mul Fp.f_neg Fp.f_abs Fp.f_of_int Fp.xdouble_float
       Fp.x_mul Fp.x_neg Fp.x_abs].
  pose proof (zero_penalty q) as Hz. unfold dabs in Hz. rewrite Hz.
  apply x_result_zero.
Qed.

(** A finite value passes the flip test against itself. *)
Lemma x_flips_refl (T : Fp.xdouble) :
  is_finite T = true -> Fp.bf_flips true T T = true.
Proof.
  destruct T as [q| | |]; [intros _|done..].
  unfold Fp.bf_flips.
  cbn [Fp.f_lt Fp.f_abs Fp.f_sub Fp.f_epsilon_flip Fp.xdouble_float
       Fp.x_sub Fp.x_add Fp.x_neg].
  assert ((q + - q)%Qc = of_Z 0) as ->.
  { change (of_Z 0) with 0%Qc. ring. }
  rewrite x_result_zero. by vm_compute.
Qed.

(** An infinite value and NaN do not. *)
Lemma x_flips_not_finite (T : Fp.xdouble) :
  is_finite T = false -> Fp.bf_flips true T T = false.
Proof. by destruct T. Qed.

Lemma x_lt_irrefl (a : Fp.xdouble) : Fp.x_lt a a = false.
Proof.
  destruct a as [q| | |]; [|done..]. cbn. apply dlt_false. apply Qcle_refl.
Qed.

Lemma x_lt_chain (m y x : Fp.xdouble) :
  Fp.x_lt m y = true -> Fp.x_lt m x = false -> Fp.x_lt y x = false.
Proof.
  destruct m as [a| | |], y as [b| | |], x as [c| | |]; cbn; try done.
  intros Hab%dlt_spec Hca%dlt_false. apply dlt_false.
  apply Qclt_le_weak. by eapply Qcle_lt_trans.
Qed.

Lemma x_fold_max_bound (l seen : list Fp.xdouble) (a : Fp.xdouble) :
  Forall (fun x => Fp.x_lt a x = false) seen ->
  Forall (fun x =>
            Fp.x_lt (fold_left (fun m y => if Fp.x_lt m y then y else m) l a) x
            = false) (seen ++ l).
Proof.
  revert seen a. induction l as [|y l IH]; intros seen a Hseen;
    cbn [fold_left].
  - by rewrite app_nil_r.
  - replace (seen ++ y :: l) with ((seen ++ [y]) ++ l)
      by (by rewrite <- app_assoc).
    destruct (Fp.x_lt a y) eqn:Hay.
    + apply IH. apply Forall_app. split.
      * eapply list.Forall_impl; [exact Hseen|].
        intros x Hx. by eapply x_lt_chain.
      * constructor; [apply x_lt_irrefl|constructor].
    + apply IH. apply Forall_app. split; [done|].
      constructor; [done|constructor].
Qed.

(** No entry exceeds the value [max_element] returns. *)
Lemma x_max_not_exceeded (e : list Fp.xdouble) (T : Fp.xdouble) :
  Fp.max_element e = Ok T -> Forall (fun x => Fp.f_lt T x = false) e.
Proof.
  destruct e as [|a l]; [done|]. intros [= <-].
  apply (x_fold_max_bound l [a] a). constructor; [apply x_lt_irrefl|constructor].
Qed.

(** ** The flip set *)

(** C8 fails on the code for the weighted decoders: the largest metric itself
    need not be flipped.  IMWBF on the matrix with four rows and two columns
    and the received word (1, -1): every weight stays at the largest
    [double], since every row checks one column only; the two weights of
    column 0 add up to minus infinity and those of column 1 to plus infinity.
    [T] is plus infinity, the metric of bit 1 equals [T], and [T - T] is NaN,
    which no comparison accepts: the iteration does not return and flips
    nothing, and the decoder gives up with the word it started from. *)
Lemma largest_metric_not_flipped :
  Fp.bf_iteration H_4x2 (Fp.f_of_int 0) fp_example_word true true true 0
    fp_example_start = Ok (false, fp_example_next)
  /\ Fp.bf_e fp_example_next = [Fp.NInf; Fp.PInf]
  /\ Fp.max_element (Fp.bf_e fp_example_next) = Ok Fp.PInf
  /\ Fp.bf_out fp_example_start = [0; 1]
  /\ Fp.bf_out fp_example_next = [0; 1]
  /\ Fp.IMWBF_decode H_4x2 3 (Fp.f_of_int 0) fp_example_word [0; 0]
     = Ok (false, [0; 1]).
Proof. repeat split; by vm_compute. Qed.

(** C8, as amended: in an iteration of a bit-flipping decoder that does not
    return, BF flips exactly the bits [j] with [e[j] = T], where [T] is the
    largest entry of [e]; WBF, MWBF and IMWBF flip exactly the bits [j] for
    which the test [|e[j] - T| < 0.001] succeeds as [double] arithmetic
    evaluates it, where [T] is the entry of [e] that [max_element] returns,
    in any arithmetic; with the values of binary64 no entry exceeds that [T],
    and the test fails for every [j] when [T] is not finite.  All flips
    belong to that one iteration, and no other entry of [out] changes. *)
Theorem flip_set_of_an_iteration (H : CtrlMat) (iter : nat) :
  (forall (alpha : double) (inp : list double) (st st' : bf_state Z),
     bf_iteration H alpha inp false false false iter st = Ok (false, st') ->
     exists T,
       T ∈ bf_e st' /\ Forall (fun x => x <= T) (bf_e st')
       /\ (forall j, (j < CtrlMat.n H)%nat -> exists ej,
             bf_e st' !! j = Some ej
             /\ bf_out st' !! j
                = (fun o => if decide (ej = T) then Z.lxor o 1 else o)
                  <$> bf_out st !! j)
       /\ (forall j, (CtrlMat.n H <= j)%nat -> bf_out st' !! j = bf_out st !! j))
  /\ (forall (F : Type) (float_F : Fp.Float F) (alpha : F) (inp : list F)
        (modified improved : bool) (st st' : Fp.bf_state F),
       Fp.bf_iteration H alpha inp true modified improved iter st
       = Ok (false, st') ->
       exists T,
         Fp.max_element (Fp.bf_e st') = Ok T /\ T ∈ Fp.bf_e st'
         /\ (forall j, (j < CtrlMat.n H)%nat -> exists ej,
               Fp.bf_e st' !! j = Some ej
               /\ Fp.bf_out st' !! j
                  = (fun o =>
                       if Fp.f_lt (Fp.f_abs (Fp.f_sub ej T)) Fp.f_epsilon_flip
                       then Z.lxor o 1 else o)
                    <$> Fp.bf_out st !! j)
         /\ (forall j, (CtrlMat.n H <= j)%nat ->
               Fp.bf_out st' !! j = Fp.bf_out st !! j))
  /\ (forall (e : list Fp.xdouble) (T : Fp.xdouble),
        Fp.max_element e = Ok T -> Forall (fun x => Fp.f_lt T x = false) e)
  /\ (forall ej T : Fp.xdouble,
        is_finite T = false ->
        Fp.f_lt (Fp.f_abs (Fp.f_sub ej T)) Fp.f_epsilon_flip = false).
Proof.
  split; [|split; [|split]].
  - intros alpha inp st st' Hrun.
    apply bf_iteration_flips in Hrun as (T & HT & _ & Hflip & Hrest).
    exists T. apply max_element_int in HT as [Hin Hmax].
    repeat (split; [done|]). split; [|done].
    intros j Hj. destruct (Hflip j Hj) as (ej & Hej & Hout).
    exists ej. split; [done|]. rewrite Hout.
    destruct (bf_out st !! j) as [o|]; [|done]. cbn. f_equal.
    unfold bf_flips. cbn [eqb int_arith].
    destruct (Z.eqb_spec ej T); [by rewrite decide_True|by rewrite decide_False].
  - intros F float_F alpha inp modified improved st st' Hrun.
    apply fp_bf_iteration_flips in Hrun as (T & HT & _ & Hflip & Hrest).
    exists T. split; [done|].
    split; [by apply fp_max_element_member in HT|]. by split.
  - apply x_max_not_exceeded.
  - intros ej T HT. by destruct T, ej.
Qed.

Lemma flip_set_of_an_iteration_witness :
  let inp := [sample 1 1; sample (-9) 10; sample 1 1] in
  let st := BfState [] [0; 0; 0] [0; 0; 0] [0; 1; 0] in
  let st' := BfState [] [1; 1; 0] [1; 2; 1] [0; 0; 0] in
  bf_iteration H_triangle (of_Z 0) inp false false false 0 st = Ok (false, st')
  /\ (exists T,
        T ∈ bf_e st' /\ Forall (fun x => x <= T) (bf_e st')
        /\ (forall j, (j < CtrlMat.n H_triangle)%nat -> exists ej,
              bf_e st' !! j = Some ej
              /\ bf_out st' !! j
                 = (fun o => if decide (ej = T) then Z.lxor o 1 else o)
                   <$> bf_out st !! j)
        /\ (forall j, (CtrlMat.n H_triangle <= j)%nat ->
              bf_out st' !! j = bf_out st !! j))
  /\ Fp.bf_out fp_example_triangle_start = [0; 1; 0]
  /\ Fp.bf_out fp_example_triangle_next = [0; 0; 0]
  /\ (exists T,
        Fp.max_element (Fp.bf_e fp_example_triangle_next) = Ok T
        /\ T ∈ Fp.bf_e fp_example_triangle_next
        /\ (forall j, (j < CtrlMat.n H_triangle)%nat -> exists ej,
              Fp.bf_e fp_example_triangle_next !! j = Some ej
              /\ Fp.bf_out fp_example_triangle_next !! j
                 = (fun o =>
                      if Fp.f_lt (Fp.f_abs (Fp.f_sub ej T)) Fp.f_epsilon_flip
                      then Z.lxor o 1 else o)
                   <$> Fp.bf_out fp_example_triangle_start !! j)
        /\ (forall j, (CtrlMat.n H_triangle <= j)%nat ->
              Fp.bf_out fp_example_triangle_next !! j
              = Fp.bf_out fp_example_triangle_start !! j)).
Proof.
  intros inp st st'.
  assert (Hint : bf_iteration H_triangle (of_Z 0) inp false false false 0 st
                 = Ok (false, st')) by (by vm_compute).
  assert (Hdbl : Fp.bf_iteration H_triangle (Fp.f_of_int 0)
                   fp_example_triangle_word true false false 0
                   fp_example_triangle_start
                 = Ok (false, fp_example_triangle_next)) by (by vm_compute).
  split; [exact Hint|].
  split; [exact (proj1 (flip_set_of_an_iteration H_triangle 0%nat)
                   (of_Z 0) inp st st' Hint)|].
  split; [by vm_compute|]. split; [by vm_compute|].
  exact (proj1 (proj2 (flip_set_of_an_iteration H_triangle 0%nat))
           Fp.xdouble Fp.xdouble_float (Fp.f_of_int 0)
           fp_example_triangle_word false false
           fp_example_triangle_start fp_example_triangle_next Hdbl).
Defined.

(** X12: an iteration of BF that does not return flips at least one bit: a
    largest entry of [e] passes the test [e[j] = T].  An iteration of WBF,
    MWBF or IMWBF that does not return flips at least one bit when the value
    [T] that [max_element] returns passes the test [|T - T| < 0.001], in any
    arithmetic; with the values of binary64 that is the case when [T] is
    finite. *)
Theorem failed_iteration_flips_a_bit (H : CtrlMat) (iter : nat) :
  (forall (alpha : double) (inp : list double) (st st' : bf_state Z),
     length (bf_e st) = CtrlMat.n H ->
     (CtrlMat.n H <= length (bf_out st))%nat ->
     bf_iteration H alpha inp false false false iter st = Ok (false, st') ->
     exists j, (j < CtrlMat.n H)%nat /\ bf_out st' !! j <> bf_out st !! j)
  /\ (forall (F : Type) (float_F : Fp.Float F) (alpha : F) (inp : list F)
        (modified improved : bool) (st st' : Fp.bf_state F),
        length (Fp.bf_e st) = CtrlMat.n H ->
        (CtrlMat.n H <= length (Fp.bf_out st))%nat ->
        Fp.bf_iteration H alpha inp true modified improved iter st
        = Ok (false, st') ->
        (forall T, Fp.max_element (Fp.bf_e st') = Ok T ->
                   Fp.f_lt (Fp.f_abs (Fp.f_sub T T)) Fp.f_epsilon_flip = true) ->
        exists j, (j < CtrlMat.n H)%nat
                  /\ Fp.bf_out st' !! j <> Fp.bf_out st !! j)
  /\ (forall (alpha : Fp.xdouble) (inp : list Fp.xdouble)
        (modified improved : bool) (st st' : Fp.bf_state Fp.xdouble),
        length (Fp.bf_e st) = CtrlMat.n H ->
        (CtrlMat.n H <= length (Fp.bf_out st))%nat ->
        Fp.bf_iteration H alpha inp true modified improved iter st
        = Ok (false, st') ->
        (forall T, Fp.max_element (Fp.bf_e st') = Ok T -> is_finite T = true) ->
        exists j, (j < CtrlMat.n H)%nat
                  /\ Fp.bf_out st' !! j <> Fp.bf_out st !! j).
Proof.
  split; [|split].
  - intros alpha inp st st'. apply bf_iteration_progress.
    + intros e m Hm. by apply max_element_int in Hm as [? _].
    + intros x. unfold bf_flips. cbn [eqb int_arith]. apply Z.eqb_refl.
  - intros F float_F alpha inp modified improved st st' He Ho Hrun Hrefl.
    by eapply fp_bf_iteration_progress.
  - intros alpha inp modified improved st st' He Ho Hrun Hfin.
    eapply fp_bf_iteration_progress; [done|done|exact Hrun|].
    intros T HT. apply x_flips_refl. by apply Hfin.
Qed.

Lemma failed_iteration_flips_a_bit_witness :
  let inp := [sample 1 1; sample (-9) 10; sample 1 1] in
  let st := BfState [] [0; 0; 0] [0; 0; 0] [0; 1; 0] in
  let st' := BfState [] [1; 1; 0] [1; 2; 1] [0; 0; 0] in
  (exists j, (j < CtrlMat.n H_triangle)%nat
             /\ bf_out st' !! j <> bf_out st !! j)
  /\ (exists j, (j < CtrlMat.n H_triangle)%nat
                /\ Fp.bf_out fp_example_triangle_next !! j
                   <> Fp.bf_out fp_example_triangle_start !! j).
Proof.
  intros inp st st'. split.
  - apply (proj1 (failed_iteration_flips_a_bit H_triangle 0%nat)
             (of_Z 0) inp st st'); [done|cbn; lia|by vm_compute].
  - apply (proj2 (proj2 (failed_iteration_flips_a_bit H_triangle 0%nat))
             (Fp.f_of_int 0) fp_example_triangle_word false false
             fp_example_triangle_start fp_example_triangle_next);
      [by vm_compute|vm_compute; lia|by vm_compute|].
    intros T HT. vm_compute in HT. by injection HT as <-.
Defined.

(** ** MWBF with [alpha = 0] and WBF *)

(** C10 fails on the code for a received word with an infinite sample: the
    penalty [-alpha * |in[j]|] is [-0] times infinity, which is NaN.  On the
    triangle matrix and the received word (+infinity, -0.875, 1) the metric of
    bit 0 is NaN in MWBF; [max_element] then returns that NaN, no bit passes
    the test against it, and MWBF gives up with the word (0, 1, 0), while
    WBF flips bit 1 and returns the codeword (0, 0, 0). *)
Lemma infinite_sample_separates_mwbf_from_wbf :
  let inp := [Fp.PInf; Fp.Finite (sample (-7) 8); Fp.Finite (sample 1 1)] in
  Fp.f_mul (Fp.f_neg (Fp.f_of_int 0)) (Fp.f_abs Fp.PInf) = Fp.NaN
  /\ Fp.MWBF_decode H_triangle 3 (Fp.f_of_int 0) inp [0; 0; 0]
     = Ok (false, [0; 1; 0])
  /\ Fp.WBF_decode H_triangle 3 inp [0; 0; 0] = Ok (true, [0; 0; 0])
  /\ Fp.MWBF_decode H_triangle 3 (Fp.f_of_int 0) inp [0; 0; 0]
     <> Fp.WBF_decode H_triangle 3 inp [0; 0; 0].
Proof. repeat split; by vm_compute. Qed.

(** C10, as amended: [MWBF] with [alpha = 0] returns what [WBF] returns, for
    every matrix, iteration budget and received word whose samples [x] all
    have the penalty [-0 * |x|] equal to zero, in any arithmetic; with the
    values of binary64 these are the received words of finite samples. *)
Theorem mwbf_zero_alpha_is_wbf (H : CtrlMat) (max_iter : Z) (out : list Z) :
  (forall (F : Type) (float_F : Fp.Float F) (inp : list F),
     (forall x, x ∈ inp ->
        Fp.f_mul (Fp.f_neg (Fp.f_of_int 0)) (Fp.f_abs x) = Fp.f_of_int 0) ->
     Fp.MWBF_decode H max_iter (Fp.f_of_int 0) inp out
     = Fp.WBF_decode H max_iter inp out)
  /\ (forall inp : list Fp.xdouble,
        Forall (fun x => is_finite x = true) inp ->
        Fp.MWBF_decode H max_iter (Fp.f_of_int 0) inp out
        = Fp.WBF_decode H max_iter inp out).
Proof.
  split.
  - intros F float_F inp. apply fp_mwbf_zero_is_wbf.
  - intros inp Hfin. apply fp_mwbf_zero_is_wbf.
    intros x Hx. apply x_zero_penalty.
    by eapply (proj1 (list.Forall_forall _ _) Hfin).
Qed.

Lemma mwbf_zero_alpha_is_wbf_witness :
  Forall (fun x => is_finite x = true) fp_example_triangle_word
  /\ Fp.MWBF_decode H_triangle 3 (Fp.f_of_int 0) fp_example_triangle_word
       [0; 0; 0]
     = Fp.WBF_decode H_triangle 3 fp_example_triangle_word [0; 0; 0]
  /\ Fp.WBF_decode H_triangle 3 fp_example_triangle_word [0; 0; 0]
     = Ok (true, [0; 0; 0]).
Proof.
  assert (Hfin : Forall (fun x => is_finite x = true) fp_example_triangle_word)
    by (by repeat constructor).
  split; [exact Hfin|]. split; [|by vm_compute].
  exact (proj2 (mwbf_zero_alpha_is_wbf H_triangle 3 [0; 0; 0])
           fp_example_triangle_word Hfin).
Defined.

(** ** Saturation of the reliability register *)

Lemma converted_Ok {A : Type} (o : option A) (a : A) :
  Fp.converted o = Ok a <-> o = Some a.
Proof. destruct o; cbn; split; congruence. Qed.

Section fp_saturation.
Context {F R : Type} {float_F : Fp.Float F} {register_R : Fp.Register F R}.
Variables (H : CtrlMat) (alpha : F) (inp : list F).
Variables (soft adaptive : bool) (gamma : Z).
Variable in_bounds : R -> Prop.
Hypothesis zero_in_bounds : in_bounds (Fp.r_of_int 0).
Hypothesis init_in_bounds : forall x q, x ∈ inp ->
  Fp.r_of_float
    (Fp.f_round (Fp.f_mul x (Fp.r_to_float (Fp.mlg_max soft gamma))))
  = Some q ->
  in_bounds (Fp.std_min_R (Fp.std_max_R q (Fp.mlg_min soft gamma))
                          (Fp.mlg_max soft gamma)).
Hypothesis max_in_bounds : soft = false -> in_bounds (Fp.mlg_max soft gamma).
Hypothesis min_in_bounds : soft = false -> in_bounds (Fp.mlg_min soft gamma).
Hypothesis update_in_bounds : adaptive = false -> forall rj ej,
  in_bounds rj ->
  in_bounds (Fp.std_min_R
               (Fp.std_max_R (Fp.r_sub rj (Fp.r_of_int ej))
                             (Fp.mlg_min soft gamma))
               (Fp.mlg_max soft gamma)).
Hypothesis adaptive_in_bounds : adaptive = true -> forall rj ej v,
  in_bounds rj ->
  Fp.r_of_float
    (Fp.std_min
       (Fp.std_max (Fp.f_sub (Fp.r_to_float rj)
                             (Fp.f_mul alpha (Fp.f_of_int ej)))
                   (Fp.r_to_float (Fp.mlg_min soft gamma)))
       (Fp.r_to_float (Fp.mlg_max soft gamma)))
  = Some v ->
  in_bounds v.

Lemma fp_mlg_init_loop_saturated (m : nat) (r : list R) (out : list Z)
    (st : list R * list Z) :
  Forall in_bounds r ->
  for_range m (Fp.mlg_init_step inp soft gamma) (r, out) = Ok st ->
  length st.1 = length r /\ Forall in_bounds st.1.
Proof.
  intros Hr.
  apply (for_range_invariant (fun _ (st : list R * list Z) =>
    length st.1 = length r /\ Forall in_bounds st.1)); [|done].
  intros j [t o] [t' o'] _ [Hlen IH] Hstep. cbn [fst] in *.
  unfold Fp.mlg_init_step in Hstep.
  apply bind_Ok in Hstep as (o1 & _ & Hstep).
  destruct soft eqn:Hsoft.
  - apply bind_Ok in Hstep as (x & Hx%vget_Ok & Hstep).
    apply bind_Ok in Hstep as (q & Hq%converted_Ok & Hstep).
    apply bind_Ok in Hstep as (r1 & (Hlt & ->)%vset_Ok & Hstep).
    injection Hstep as <- <-. rewrite length_insert. split; [done|].
    apply Forall_insert; [done|].
    apply (init_in_bounds x); [by eapply list_elem_of_lookup_2|done].
  - apply bind_Ok in Hstep as (oj & _ & Hstep).
    apply bind_Ok in Hstep as (r1 & (Hlt & ->)%vset_Ok & Hstep).
    injection Hstep as <- <-. rewrite length_insert. split; [done|].
    apply Forall_insert; [done|].
    destruct (oj =? 0); auto.
Qed.

Lemma fp_mlg_update_loop_saturated (m : nat) (e : list Z) (r : list R)
    (out : list Z) (st : list R * list Z) :
  Forall in_bounds r ->
  for_range m (Fp.mlg_update alpha soft adaptive gamma e) (r, out) = Ok st ->
  length st.1 = length r /\ Forall in_bounds st.1.
Proof.
  intros Hr.
  apply (for_range_invariant (fun _ (st : list R * list Z) =>
    length st.1 = length r /\ Forall in_bounds st.1)); [|done].
  intros j [t o] [t' o'] _ [Hlen IH] Hstep. cbn [fst] in *.
  unfold Fp.mlg_update in Hstep.
  apply bind_Ok in Hstep as (rj & Hrj%vget_Ok & Hstep).
  apply bind_Ok in Hstep as (ej & _ & Hstep).
  apply bind_Ok in Hstep as (r1 & Hr1 & Hstep).
  apply bind_Ok in Hstep as (rj' & _ & Hstep).
  apply bind_Ok in Hstep as (o1 & _ & Hstep).
  injection Hstep as <- <-.
  assert (Hrj_ok : in_bounds rj) by (by eapply Forall_lookup_1 in IH).
  destruct adaptive eqn:Had.
  - apply bind_Ok in Hr1 as (v & Hv%converted_Ok & (Hlt & ->)%vset_Ok).
    rewrite length_insert. split; [done|].
    apply Forall_insert; [done|]. by eapply (adaptive_in_bounds eq_refl rj ej).
  - apply vset_Ok in Hr1 as (Hlt & ->).
    rewrite length_insert. split; [done|].
    apply Forall_insert; [done|]. by apply update_in_bounds.
Qed.

Lemma fp_mlg_reachable_saturated (out : list Z) (st : mlg_state R) :
  fp_mlg_reachable H alpha inp soft adaptive out gamma st ->
  length (mlg_r st) = CtrlMat.n H /\ Forall in_bounds (mlg_r st).
Proof.
  induction 1 as [st Hinit | st st' _ [Hlen Hall] Hstep].
  - unfold Fp.mlg_init in Hinit.
    apply bind_Ok in Hinit as (col0 & _ & Hinit).
    apply bind_Ok in Hinit as ([r o] & Hloop & Hinit).
    apply bind_Ok in Hinit as (w & _ & Hinit).
    injection Hinit as Hg <-. cbn [mlg_r]. rewrite Hg in Hloop.
    apply fp_mlg_init_loop_saturated in Hloop as [Hlen Hall].
    + cbn [fst] in *. by rewrite length_replicate in Hlen.
    + by apply Forall_replicate.
  - unfold Fp.mlg_iteration in Hstep.
    apply bind_Ok in Hstep as ([s cw] & _ & Hstep).
    destruct cw; [done|].
    apply bind_Ok in Hstep as (e & _ & Hstep).
    apply bind_Ok in Hstep as ([r o] & Hupd & Hstep).
    injection Hstep as <-. cbn [mlg_r].
    apply fp_mlg_update_loop_saturated in Hupd as [Hlen' Hall']; [|done].
    cbn [fst] in *. split; [lia|done].
Qed.
End fp_saturation.

Lemma fp_mlg_reachable_gamma {F R : Type} {float_F : Fp.Float F}
    {register_R : Fp.Register F R} (H : CtrlMat) (alpha : F) (inp : list F)
    (soft adaptive : bool) (out : list Z) (gamma : Z) (st : mlg_state R) :
  fp_mlg_reachable H alpha inp soft adaptive out gamma st ->
  gamma = column_gamma H.
Proof.
  induction 1 as [st Hinit | st st' _ IH _]; [|done].
  unfold Fp.mlg_init in Hinit.
  apply bind_Ok in Hinit as (col0 & Hcol%vget_Ok & Hinit).
  apply bind_Ok in Hinit as ([r o] & _ & Hinit).
  apply bind_Ok in Hinit as (w & _ & Hinit).
  injection Hinit as <- _. unfold column_gamma. by rewrite Hcol.
Qed.

Lemma column_gamma_nonneg (H : CtrlMat) : 0 <= column_gamma H.
Proof. unfold column_gamma. lia. Qed.

(** The saturation at [int]. *)
Lemma fp_clamp_int {F : Type} {float_F : Fp.Float F} (x lo hi : Z) :
  lo <= hi ->
  lo <= Fp.std_min_R (register_R := Fp.int_register (F := F))
          (Fp.std_max_R (register_R := Fp.int_register (F := F)) x lo) hi
     <= hi.
Proof.
  intros Hle. unfold Fp.std_min_R, Fp.std_max_R. cbn [Fp.r_lt Fp.int_register].
  destruct (Z.ltb_spec x lo); destruct (Z.ltb_spec hi lo);
    destruct (Z.ltb_spec hi x); lia.
Qed.

Lemma x_result_not_nan (q : Qc) : is_nan (Fp.x_result q) = false.
Proof. unfold Fp.x_result. by repeat case_match. Qed.

(** What the saturation of the adaptive decoder makes of a value that is not
    NaN. *)
Lemma x_clamp_in_bounds (v : Fp.xdouble) :
  is_nan v = false ->
  x_in_bounds 3
    (Fp.std_min (Fp.std_max v (Fp.Finite (- of_Z 3)%Qc)) (Fp.Finite (of_Z 3))).
Proof.
  assert (Hle : (- of_Z 3 <= of_Z 3)%Qc) by (by vm_compute).
  destruct v as [q| | |]; [intros _| | |done].
  - unfold Fp.std_min, Fp.std_max.
    cbn [Fp.f_lt Fp.xdouble_float Fp.x_lt].
    destruct (dlt q (- of_Z 3)%Qc) eqn:Hq.
    + cbn [Fp.x_lt].
      destruct (dlt (of_Z 3) (- of_Z 3)%Qc) eqn:Hhi.
      * apply dlt_spec in Hhi. by apply Qcle_not_lt in Hle.
      * split; [apply Qcle_refl|done].
    + cbn [Fp.x_lt]. apply dlt_false in Hq.
      destruct (dlt (of_Z 3) q) eqn:Hhi.
      * split; [done|apply Qcle_refl].
      * apply dlt_false in Hhi. done.
  - intros _. by vm_compute.
  - intros _. by vm_compute.
Qed.

Lemma x_scaled_sample_not_nan (x : Fp.xdouble) :
  is_nan x = false ->
  is_nan (Fp.f_round (Fp.f_mul x (Fp.Finite (of_Z 3)))) = false.
Proof.
  destruct x as [q| | |]; [intros _| | |done].
  - cbn [Fp.f_round Fp.f_mul Fp.xdouble_float Fp.x_mul].
    pose proof (x_result_not_nan (q * of_Z 3)%Qc) as Hr.
    by destruct (Fp.x_result (q * of_Z 3)%Qc).
  - intros _. by vm_compute.
  - intros _. by vm_compute.
Qed.

Lemma x_updated_register_not_nan (alpha rj : Fp.xdouble) (ej : Z) :
  is_finite alpha = true -> x_in_bounds 3 rj ->
  is_nan (Fp.f_sub rj (Fp.f_mul alpha (Fp.f_of_int ej))) = false.
Proof.
  destruct alpha as [a| | |]; [intros _|done..].
  destruct rj as [r| | |]; [intros _|done..].
  cbn [Fp.f_sub Fp.f_mul Fp.f_of_int Fp.xdouble_float Fp.x_mul Fp.x_sub].
  pose proof (x_result_not_nan (a * of_Z ej)%Qc) as Hr.
  destruct (Fp.x_result (a * of_Z ej)%Qc) as [p| | |]; [|done..].
  cbn [Fp.x_neg Fp.x_add]. apply x_result_not_nan.
Qed.

(** C9 fails on the code in two ways.  The bound of HardMLG is the weight of
    column 0, not the row weight: on [H_star], whose rows have weight 2, the
    registers are initialised to 4 and -4.  And the saturation of the
    adaptive decoder lets a NaN through, since [std::max] and [std::min]
    return their first argument when a comparison with NaN fails: a NaN
    sample leaves a NaN in the register. *)
Lemma register_outside_claimed_bounds :
  fp_mlg_reachable H_star (Fp.f_of_int 0) hard_example_word false false
    [0; 0; 0; 0] 4 hard_example_start
  /\ row_gamma H_star = 2
  /\ mlg_r hard_example_start !! 0%nat = Some 4
  /\ ~ Forall (fun x => - row_gamma H_star <= x <= row_gamma H_star)
         (mlg_r hard_example_start)
  /\ fp_mlg_reachable H_triangle (Fp.Finite (sample 1 2))
       [Fp.NaN; Fp.Finite (sample 1 1); Fp.Finite (sample 1 1)] true true
       [0; 0; 0] 2 fp_example_nan_start
  /\ mlg_r fp_example_nan_start !! 0%nat = Some Fp.NaN
  /\ ~ Forall (x_in_bounds 3) (mlg_r fp_example_nan_start).
Proof.
  split; [apply fp_reach_init; by vm_compute|].
  split; [done|]. split; [done|].
  split.
  { intros Hall. apply Forall_inv in Hall. vm_compute in Hall.
    destruct Hall as [_ Hle]. by apply Hle. }
  split; [apply fp_reach_init; by vm_compute|].
  split; [by vm_compute|].
  intros Hall.
  assert (Hnan : mlg_r fp_example_nan_start !! 0%nat = Some Fp.NaN)
    by (by vm_compute).
  by apply (Forall_lookup_1 _ _ _ _ Hall) in Hnan.
Qed.

(** C9, as amended: in the iterative MLG decoders, after the initialisation
    and after the update of every iteration, every entry of the register [r]
    lies between [min] and [max].  For HardMLG and SoftMLG, the instance at
    [int], that is between -gamma and gamma, where gamma is the weight of
    column 0, and between -3 and 3, for every received word and in any
    arithmetic (SoftMLG reaches no state when the conversion of a scaled
    sample to [int] is undefined).  For AdaptiveSoftMLG, the instance at
    [double], with the values of binary64, the entry is a number between -3
    and 3, for a finite [alpha] and a received word without a NaN sample. *)
Theorem register_saturated (H : CtrlMat) (out : list Z) (gamma : Z) :
  (forall (F : Type) (float_F : Fp.Float F) (alpha : F) (inp : list F)
     (soft : bool) (st : mlg_state Z),
     fp_mlg_reachable H alpha inp soft false out gamma st ->
     gamma = column_gamma H
     /\ Forall (fun x => - (if soft then 3 else gamma) <= x
                         <= (if soft then 3 else gamma)) (mlg_r st))
  /\ (forall (alpha : Fp.xdouble) (inp : list Fp.xdouble)
        (st : mlg_state Fp.xdouble),
        is_finite alpha = true ->
        Forall (fun x => is_nan x = false) inp ->
        fp_mlg_reachable H alpha inp true true out gamma st ->
        Forall (x_in_bounds 3) (mlg_r st)).
Proof.
  split.
  - intros F float_F alpha inp soft st Hreach.
    pose proof (fp_mlg_reachable_gamma _ _ _ _ _ _ _ _ Hreach) as Hg.
    split; [done|].
    assert (Hpos : 0 <= gamma) by (rewrite Hg; apply column_gamma_nonneg).
    assert (Hb : - (if soft then 3 else gamma) <= (if soft then 3 else gamma))
      by (destruct soft; lia).
    assert (Hmax : Fp.mlg_max (register_R := Fp.int_register (F := F))
                     soft gamma = if soft then 3 else gamma)
      by (by destruct soft).
    assert (Hmin : Fp.mlg_min (register_R := Fp.int_register (F := F))
                     soft gamma = - (if soft then 3 else gamma))
      by (by destruct soft).
    apply (fp_mlg_reachable_saturated H alpha inp soft false gamma
             (fun x => - (if soft then 3 else gamma) <= x
                       <= (if soft then 3 else gamma))) in Hreach;
      [by destruct Hreach as [_ ?]| | | | | |].
    + cbn [Fp.r_of_int Fp.int_register]. lia.
    + intros x q _ _. rewrite Hmin, Hmax. by apply fp_clamp_int.
    + intros _. rewrite Hmax. lia.
    + intros _. rewrite Hmin. lia.
    + intros _ rj ej _. rewrite Hmin, Hmax. by apply fp_clamp_int.
    + done.
  - intros alpha inp st Halpha Hinp Hreach.
    apply (fp_mlg_reachable_saturated H alpha inp true true gamma
             (x_in_bounds 3)) in Hreach;
      [by destruct Hreach as [_ ?]| | | | | |].
    + by vm_compute.
    + intros x q Hx [= <-]. apply x_clamp_in_bounds.
      apply x_scaled_sample_not_nan.
      by eapply (proj1 (list.Forall_forall _ _) Hinp).
    + done.
    + done.
    + done.
    + intros _ rj ej v Hrj [= <-]. apply x_clamp_in_bounds.
      by apply x_updated_register_not_nan.
Qed.

Lemma register_saturated_witness :
  (2 = column_gamma H_triangle
   /\ Forall (fun x => - 3 <= x <= 3) (mlg_r soft_example_start))
  /\ (4 = column_gamma H_star
      /\ Forall (fun x => - 4 <= x <= 4) (mlg_r hard_example_start))
  /\ Forall (x_in_bounds 3) (mlg_r fp_example_adaptive_next)
  /\ mlg_out fp_example_adaptive_next = [0; 1; 0].
Proof.
  split; [|split; [|split; [|by vm_compute]]].
  - apply (proj1 (register_saturated H_triangle [0; 0; 0] 2)
             Fp.xdouble Fp.xdouble_float (Fp.f_of_int 0)
             fp_example_triangle_word true soft_example_start).
    apply fp_reach_init. by vm_compute.
  - apply (proj1 (register_saturated H_star [0; 0; 0; 0] 4)
             Fp.xdouble Fp.xdouble_float (Fp.f_of_int 0)
             hard_example_word false hard_example_start).
    apply fp_reach_init. by vm_compute.
  - apply (proj2 (register_saturated H_triangle [0; 0; 0] 2)
             (Fp.Finite (sample 1 2)) fp_example_triangle_word
             fp_example_adaptive_next); [done|by repeat constructor|].
    apply (fp_reach_update _ _ _ _ _ _ _ fp_example_adaptive_start).
    + apply fp_reach_init. by vm_compute.
    + by vm_compute.
Defined.
